(** * Living Universe Engine: the simulation core of [simulation.js]

    A shallow embedding of the vector algebra, the three dynamics models,
    the [LivingUniverse] class and the retrocausal operator, followed by
    the properties of the engine's specification that were checked
    against them.

    Modelling conventions.
    - A JavaScript number is an element of an abstract carrier [T] with
      the operations the source uses ([JSNumber]).  Everything that only
      depends on how data flows is proved for every carrier, hence also
      for IEEE doubles.  Arithmetic facts are proved in the instance
      [jsnum]: a real number or NaN (no rounding, no overflow).
    - An array of numbers is a [list T].  Arrays are never written in
      place after they are stored in a universe ([retro_influence]
      replaces the slot, [evolveOscillators] writes into its own copy),
      so sharing one array between [history] and [levels] is invisible
      and a value model is exact.
    - [Math.random()] reads a global generator: the successive draws are
      a function [draws : nat -> T] and a cursor counts the draws
      consumed so far.
    - A call either returns or throws; the object it was mutating keeps
      the writes done before the throw ([outcome]). *)

From Stdlib Require Import ZArith QArith Reals Lra Lia.
From stdpp Require Import base option list gmap sorting strings.

Local Open Scope nat_scope.

(** ** Numbers *)

Class JSNumber (T : Type) := {
  lit : Q -> T;                 (* a numeric literal, or an integer used as a number *)
  nan : T;                      (* what [undefined] becomes inside arithmetic *)
  num_add : T -> T -> T;
  num_sub : T -> T -> T;
  num_mul : T -> T -> T;
  num_div : T -> T -> T;
  num_sin : T -> T;
  num_cos : T -> T;
  num_tanh : T -> T
}.

Definition lit_nat `{JSNumber T} (n : nat) : T := lit (inject_Z (Z.of_nat n)).

Declare Scope js_scope.
Delimit Scope js_scope with js.
Infix "+" := num_add : js_scope.
Infix "-" := num_sub : js_scope.
Infix "*" := num_mul : js_scope.
Infix "/" := num_div : js_scope.

(** The defaults of the source.  [DEFAULT_DIM] replaces a [dim] of 0 in
    the constructor; the other two are what a caller that omits
    [maxLevel] or [steps] passes, and the functions below take these
    arguments explicitly (as they take [strength], default 0.01, and the
    [level] of [get_state], default 0). *)
Definition DEFAULT_DIM : Z := 10.
Definition DEFAULT_LEVELS : nat := 50.
Definition DEFAULT_STEPS : nat := 100.

(** ** Vector algebra *)

(** An array of numbers. *)
Abbreviation vec := list (only parsing).

Section Vectors.
Context {T : Type} `{JSNumber T}.

(** [b[i]] inside an arithmetic expression: [undefined] past the end. *)
Definition at_index (b : vec T) (i : nat) : T := default nan (b !! i).

(** [new Array(len).fill(0)]: a RangeError unless 0 <= len < 2^32. *)
Definition zeros (len : Z) : option (vec T) :=
  if decide (0 <= len < 2 ^ 32)%Z
  then Some (replicate (Z.to_nat len) (lit 0))
  else None.

(** [Array.from({length: len}, () => Math.random())]: a negative length
    counts as 0; one draw per element, in index order. *)
Definition randVec (draws : nat -> T) (len : Z) (cur : nat) : vec T * nat :=
  let n := Z.to_nat len in
  ((fun k => draws (cur + k)) <$> seq 0 n, cur + n).

Definition sinVec (v : vec T) : vec T := num_sin <$> v.
Definition cosVec (v : vec T) : vec T := num_cos <$> v.

Definition addVec (a b : vec T) : vec T := imap (fun i x => x + at_index b i)%js a.
Definition subVec (a b : vec T) : vec T := imap (fun i x => x - at_index b i)%js a.
Definition scaleVec (v : vec T) (s : T) : vec T := (fun x => x * s)%js <$> v.

Definition blendVec (a b : vec T) (alpha : T) : vec T :=
  let oneMinus := (lit 1 - alpha)%js in
  imap (fun i x => oneMinus * x + alpha * at_index b i)%js a.
End Vectors.

(** ** Calls that may throw *)

(** How a call on a mutable object ends, and the state it leaves. *)
Inductive outcome (S : Type) : Type :=
  | Returned (s : S)
  | Threw (s : S).
Arguments Returned {S} s.
Arguments Threw {S} s.

Definition final_state {S} (o : outcome S) : S :=
  match o with Returned s | Threw s => s end.

Definition returned {S} (o : outcome S) : bool :=
  match o with Returned _ => true | Threw _ => false end.

(** [for (let i = lo; i < lo + count; i++) body(i)], threading a state. *)
Definition for_loop {S} (lo count : nat) (body : nat -> S -> S) (s : S) : S :=
  foldl (fun s i => body i s) s (seq lo count).

(** ** Dynamics models *)

Section Dynamics.
Context {T : Type} `{JSNumber T}.
Variable draws : nat -> T.

Definition is_open (systemType : string) : bool := String.eqb systemType "open".
Definition is_closed (systemType : string) : bool := String.eqb systemType "closed".

(** [noiseScale > 0] on a constant of the source. *)
Definition positive (q : Q) : bool := negb (Qle_bool q 0).

(** [(Math.random() * 2 - 1) * noiseScale] *)
Definition noise (noiseScale : Q) (cur : nat) : T :=
  ((draws cur * lit 2 - lit 1) * lit noiseScale)%js.

(** The draws that [k] rounds of a loop consume. *)
Definition noise_draws (noiseScale : Q) (k : nat) : nat :=
  if positive noiseScale then k else 0.

Definition osc_dt : Q := 5 # 100.
Definition osc_k : Q := 1.
Definition osc_coupling : Q := 1 # 10.
Definition osc_gamma (systemType : string) : Q :=
  if is_open systemType then 5 # 100
  else if is_closed systemType then 1 # 100 else 0.
Definition osc_noiseScale (systemType : string) : Q :=
  if is_open systemType then 2 # 100 else 0.

(** The velocity of pair [i] after the damped update, before any noise. *)
Definition osc_damped (prev : vec T) (systemType : string) (n i : nat) : T :=
  let xi := at_index prev (2 * i) in
  let vi := at_index prev (2 * i + 1) in
  let left := if 0 <? i then at_index prev (2 * (i - 1)) else xi in
  let right := if i <? n - 1 then at_index prev (2 * (i + 1)) else xi in
  let force :=
    (lit (- osc_k) * xi - lit osc_coupling * ((xi - left) + (xi - right)))%js in
  let vNext := (vi + lit osc_dt * force)%js in
  (vNext * (lit 1 - lit (osc_gamma systemType)))%js.

(** One iteration of the loop over the pairs. *)
Definition osc_pair (prev : vec T) (systemType : string) (n i : nat)
    (st : vec T * nat) : vec T * nat :=
  let '(next, cur) := st in
  let xi := at_index prev (2 * i) in
  let vNext := osc_damped prev systemType n i in
  let xNext := (xi + lit osc_dt * vNext)%js in
  let '(vNext, cur) :=
    if positive (osc_noiseScale systemType)
    then ((vNext + noise (osc_noiseScale systemType) cur)%js, S cur)
    else (vNext, cur) in
  (<[2 * i + 1 := vNext]> (<[2 * i := xNext]> next), cur).

Definition evolveOscillators (prev : vec T) (systemType : string) (cur : nat)
    : vec T * nat :=
  let dim := length prev in
  let next := prev in
  let n := dim / 2 in
  let '(next, cur) := for_loop 0 n (osc_pair prev systemType n) (next, cur) in
  let next :=
    if dim mod 2 =? 1 then <[dim - 1 := at_index prev (dim - 1)]> next else next in
  (next, cur).

Definition ising_J : Q := 1.
Definition ising_h : Q := 0.
Definition ising_beta : Q := 1.
Definition ising_noiseScale (systemType : string) : Q :=
  if is_open systemType then 15 # 100 else 0.

(** [m = 0; for (...) m += spins[i]; m /= dim || 1] *)
Definition ising_mean (spins : vec T) : T :=
  let dim := length spins in
  let m := for_loop 0 dim (fun i m => (m + at_index spins i)%js) (lit 0) in
  (m / lit_nat (if dim =? 0 then 1 else dim))%js.

Definition ising_site (m : T) (systemType : string) (i : nat)
    (st : vec T * nat) : vec T * nat :=
  let '(next, cur) := st in
  let localField := (lit ising_J * m + lit ising_h)%js in
  let '(localField, cur) :=
    if positive (ising_noiseScale systemType)
    then ((localField + noise (ising_noiseScale systemType) cur)%js, S cur)
    else (localField, cur) in
  (<[i := num_tanh (lit ising_beta * localField)%js]> next, cur).

(** [new Array(dim)] holds [dim] empty slots; every one is assigned. *)
Definition evolveIsing (prev : vec T) (systemType : string) (cur : nat)
    : vec T * nat :=
  let dim := length prev in
  let m := ising_mean prev in
  for_loop 0 dim (ising_site m systemType) (replicate dim nan, cur).

(** The default model of [LivingUniverse.evolve]. *)
Definition nonlinear (prev memory : vec T) (level : nat) : vec T :=
  let A := sinVec prev in
  let B := cosVec memory in
  let alpha := (lit 1 / (lit 1 + lit_nat level))%js in
  blendVec A B alpha.
End Dynamics.

(** ** The LivingUniverse class *)

Section LivingUniverse.
Context {T : Type} `{JSNumber T}.

(** [levels] is an object keyed by time whose values are objects keyed
    by level; both keys are non-negative integers. *)
Record universe := Universe {
  dim : Z;
  modelType : string;
  systemType : string;
  history : list (vec T);
  levels : gmap nat (gmap nat (vec T))
}.

Definition set_history (u : universe) (h : list (vec T)) : universe :=
  Universe (dim u) (modelType u) (systemType u) h (levels u).

Definition set_levels (u : universe) (l : gmap nat (gmap nat (vec T))) : universe :=
  Universe (dim u) (modelType u) (systemType u) (history u) l.

(** [this.levels[t][level] = v]: a TypeError when [this.levels[t]] is
    undefined. *)
Definition write_level (u : universe) (t level : nat) (v : vec T) : option universe :=
  row ← levels u !! t;
  Some (set_levels u (<[t := <[level := v]> row]> (levels u))).

Variable draws : nat -> T.

(** [new LivingUniverse(dim, modelType, systemType, seed)]; an omitted
    seed is [None], and [x || d] takes [d] for 0 and for the empty
    string. *)
Definition construct (dim0 : Z) (modelType0 systemType0 : string)
    (seed : option (vec T)) (cur : nat) : universe * nat :=
  let dim := if decide (dim0 = 0%Z) then DEFAULT_DIM else dim0 in
  let modelType :=
    if decide (modelType0 = EmptyString) then "nonlinear"%string else modelType0 in
  let systemType :=
    if decide (systemType0 = EmptyString) then "isolated"%string else systemType0 in
  let '(seed, cur) :=
    match seed with
    | Some s => (s, cur)
    | None => randVec draws dim cur
    end in
  (Universe dim modelType systemType [seed] ∅, cur).

(** The expression [new LivingUniverse(...)] as a call.  No statement
    of the constructor throws, whatever [dim] is. *)
Definition new_LivingUniverse (dim0 : Z) (modelType0 systemType0 : string)
    (seed : option (vec T)) (cur : nat) : outcome (universe * nat) :=
  Returned (construct dim0 modelType0 systemType0 seed cur).

(** [evolve(prev, memory, level)].  The arguments are array reads and
    may be [undefined] ([None]); the result is [None] when the call
    throws a TypeError, which happens before any random draw. *)
Definition evolve (u : universe) (prev memory : option (vec T)) (level : nat)
    (cur : nat) : option (vec T * nat) :=
  if String.eqb (modelType u) "oscillators" then
    prev ← prev; Some (evolveOscillators draws prev (systemType u) cur)
  else if String.eqb (modelType u) "ising" then
    prev ← prev; Some (evolveIsing draws prev (systemType u) cur)
  else
    prev ← prev; memory ← memory; Some (nonlinear prev memory level, cur).

(** The loop over the derived levels, from [level] for [count] rounds. *)
Fixpoint level_loop (t level count : nat) (u : universe) (cur : nat)
    : outcome (universe * nat) :=
  match count with
  | 0 => Returned (u, cur)
  | S count =>
      match levels u !! t with
      | None => Threw (u, cur)
      | Some row =>
          let prev_layer := row !! (level - 1) in
          let mem_layer :=
            if 1 <? t
            then match levels u !! (t - 1) with
                 | Some before => Some (before !! (level - 1))
                 | None => None
                 end
            else Some prev_layer in
          match mem_layer with
          | None => Threw (u, cur)
          | Some mem_layer =>
              match evolve u prev_layer mem_layer level cur with
              | None => Threw (u, cur)
              | Some (state, cur) =>
                  match write_level u t level state with
                  | None => Threw (u, cur)
                  | Some u => level_loop t (S level) count u cur
                  end
              end
          end
      end
  end.

Definition step (u : universe) (t maxLevel : nat) (cur : nat)
    : outcome (universe * nat) :=
  if t =? 0 then Returned (u, cur) else
  let u := set_levels u (<[t := ∅]> (levels u)) in
  let prev := history u !! (t - 1) in
  let mem := if 1 <? t then history u !! (t - 2) else prev in
  match evolve u prev mem 0 cur with
  | None => Threw (u, cur)
  | Some (base_now, cur) =>
      let u := set_history u (history u ++ [base_now]) in
      match write_level u t 0 base_now with
      | None => Threw (u, cur)
      | Some u => level_loop t 1 (maxLevel - 1) u cur
      end
  end.

(** [for (let t = from; t < from + count; t++) this.step(t, maxLevel)] *)
Fixpoint run_from (t count maxLevel : nat) (u : universe) (cur : nat)
    : outcome (universe * nat) :=
  match count with
  | 0 => Returned (u, cur)
  | S count =>
      match step u t maxLevel cur with
      | Returned (u, cur) => run_from (S t) count maxLevel u cur
      | Threw s => Threw s
      end
  end.

Definition run (u : universe) (steps maxLevel : nat) (cur : nat)
    : outcome (universe * nat) :=
  run_from 1 (steps - 1) maxLevel u cur.

(** The value of a read that may find nothing. *)
Inductive read :=
  | Value (v : vec T)
  | Undefined
  | TypeError.

Definition get_state (u : universe) (t level : nat) : read :=
  if level =? 0
  then from_option Value Undefined (history u !! t)
  else match levels u !! t with
       | Some row => from_option Value Undefined (row !! level)
       | None => TypeError
       end.

(** [Object.keys(levelMap).map(k => parseInt(k, 10)).sort((a, b) => a - b)] *)
Definition sorted_keys (levelMap : gmap nat (vec T)) : list nat :=
  merge_sort (≤) (elements (dom levelMap)).

(** [w = 1 / (i + 1)] *)
Definition weight (i : nat) : T := (lit 1 / (lit_nat i + lit 1))%js.

(** [for (let j = 0; j < this.dim; j++) acc[j] += s[j] * w], on an
    accumulator of [this.dim] entries. *)
Definition accumulate (acc s : vec T) (w : T) : vec T :=
  imap (fun j a => a + at_index s j * w)%js acc.

(** [None]: the RangeError of [zeros].  Every key read comes from
    [levelMap] itself, so the default of the lookup is never taken. *)
Definition infinite_state (u : universe) (t : nat) : option (vec T) :=
  acc ← zeros (dim u);
  let levelMap := default ∅ (levels u !! t) in
  Some (foldl (fun acc i => accumulate acc (default [] (levelMap !! i)) (weight i))
              acc (sorted_keys levelMap)).

(** The [delta] that [retro_influence] computes on in-range indices. *)
Definition retro_delta (future_state past_state : vec T) (strength : T) : vec T :=
  scaleVec (subVec future_state past_state) strength.

(** Past the guard both reads find a vector, so the last branch is never
    taken for indices that are natural numbers. *)
Definition retro_influence (u : universe) (t_future t_past : nat) (strength : T)
    : outcome universe :=
  if (length (history u) <=? t_future) || (length (history u) <=? t_past)
  then Returned u
  else
    match get_state u t_future 0, history u !! t_past with
    | Value future_state, Some past_state =>
        let delta := retro_delta future_state past_state strength in
        Returned (set_history u (<[t_past := addVec past_state delta]> (history u)))
    | _, _ => Threw u
    end.

(** [new Observer(universe, level).perceive(t)] *)
Definition perceive (u : universe) (level t : nat) : read := get_state u t level.
End LivingUniverse.

Arguments universe T : clear implicits.
Arguments read T : clear implicits.

(** ** Notions used to state the properties *)

Section Specification.
Context {T : Type} `{JSNumber T}.

(** The specification's reading of the infinite-level aggregate: the
    weighted sum over the derived levels, level 0 left out. *)
Definition infinite_state_derived_levels (u : universe T) (t : nat) : option (vec T) :=
  acc ← zeros (dim u);
  let levelMap := default ∅ (levels u !! t) in
  Some (foldl (fun acc i => accumulate acc (default [] (levelMap !! i)) (weight i))
              acc (filter (fun i => 1 ≤ i) (sorted_keys levelMap))).

(** The memory argument of the level-0 update of [step]. *)
Definition base_memory (u : universe T) (t : nat) : option (vec T) :=
  if 1 <? t then history u !! (t - 2) else history u !! (t - 1).

(** The universe is ready for [step t]: the steps before [t] were taken
    in order with the same [maxLevel]. *)
Definition in_order (u : universe T) (t maxLevel : nat) : Prop :=
  length (history u) = t ∧
  (1 < t → ∃ before, levels u !! (t - 1) = Some before ∧
             ∀ l, is_Some (before !! l) ↔ l < Nat.max 1 maxLevel).

(** How two runs compare when the random draws are left aside. *)
Definition same_universe (o1 o2 : outcome (universe T * nat)) : Prop :=
  match o1, o2 with
  | Returned (u1, _), Returned (u2, _) => u1 = u2
  | Threw (u1, _), Threw (u2, _) => u1 = u2
  | _, _ => False
  end.

(** The paths of [evolve] that call [Math.random()]. *)
Definition noisy (modelType systemType : string) : bool :=
  (String.eqb modelType "oscillators" || String.eqb modelType "ising")
  && is_open systemType.

(** Every vector stored in the universe has [n] components. *)
Definition all_length (n : nat) (u : universe T) : Prop :=
  Forall (fun v => length v = n) (history u) ∧
  ∀ t row level v,
    levels u !! t = Some row → row !! level = Some v → length v = n.

(** The universes that calls of the public operations can produce from
    [u0], the states left by calls that throw included. *)
Inductive reachable (draws : nat -> T) (u0 : universe T) : universe T -> Prop :=
  | reach_new : reachable draws u0 u0
  | reach_step u t maxLevel cur :
      reachable draws u0 u ->
      reachable draws u0 (final_state (step draws u t maxLevel cur)).1
  | reach_run u steps maxLevel cur :
      reachable draws u0 u ->
      reachable draws u0 (final_state (run draws u steps maxLevel cur)).1
  | reach_retro u t_future t_past strength :
      reachable draws u0 u ->
      reachable draws u0 (final_state (retro_influence u t_future t_past strength)).
(** The memory argument of the update of level [l >= 1] at time [t]. *)
Definition level_memory (u : universe T) (t l : nat) : option (vec T) :=
  if 1 <? t
  then levels u !! (t - 1) ≫= (.!! (l - 1))
  else levels u !! t ≫= (.!! (l - 1)).

(** Time [t] of the universe was computed by the rule of [step]: the
    state from the two states before it, every derived level from the
    level below and its memory, each by one call of [evolve]. *)
Definition follows_rule (draws : nat -> T) (u : universe T) (t : nat) : Prop :=
  (∃ v c c', history u !! t = Some v ∧
     evolve draws u (history u !! (t - 1)) (base_memory u t) 0 c = Some (v, c')) ∧
  ∀ l v, 1 ≤ l → levels u !! t ≫= (.!! l) = Some v →
    ∃ c c', evolve draws u (levels u !! t ≫= (.!! (l - 1))) (level_memory u t l) l c
            = Some (v, c').
(** A set [P] of numbers that holds every literal and is kept by every
    operation of the arithmetic.  Nothing is asked of [nan], the value
    that an undefined read takes inside arithmetic. *)
Definition closed_under (P : T -> Prop) : Prop :=
  (∀ q, P (lit q)) ∧
  (∀ x y, P x → P y → P (x + y)%js) ∧
  (∀ x y, P x → P y → P (x - y)%js) ∧
  (∀ x y, P x → P y → P (x * y)%js) ∧
  (∀ x y, P x → P y → P (x / y)%js) ∧
  (∀ x, P x → P (num_sin x)) ∧
  (∀ x, P x → P (num_cos x)) ∧
  (∀ x, P x → P (num_tanh x)).

(** Every number stored in the universe is in [P]. *)
Definition universe_within (P : T -> Prop) (u : universe T) : Prop :=
  Forall (Forall P) (history u) ∧
  ∀ t row level v, levels u !! t = Some row → row !! level = Some v → Forall P v.

(** The universes that the public operations produce from [u0] when
    every strength passed to [retro_influence] is in [P]. *)
Inductive reachable_with (P : T -> Prop) (draws : nat -> T) (u0 : universe T)
    : universe T -> Prop :=
  | with_new : reachable_with P draws u0 u0
  | with_step u t maxLevel cur :
      reachable_with P draws u0 u ->
      reachable_with P draws u0 (final_state (step draws u t maxLevel cur)).1
  | with_run u steps maxLevel cur :
      reachable_with P draws u0 u ->
      reachable_with P draws u0 (final_state (run draws u steps maxLevel cur)).1
  | with_retro u t_future t_past strength :
      P strength ->
      reachable_with P draws u0 u ->
      reachable_with P draws u0 (final_state (retro_influence u t_future t_past strength)).
End Specification.

(** ** Real numbers with NaN *)

(** The idealised JavaScript number: a real, or NaN.  Rounding and
    overflow are left out, so Infinity never arises; every divisor in the
    source is at least 1. *)
Inductive jsnum : Type :=
  | Num (r : R)
  | NaN.

Definition jsnum_lift1 (f : R -> R) (x : jsnum) : jsnum :=
  match x with
  | Num a => Num (f a)
  | NaN => NaN
  end.

Definition jsnum_lift2 (f : R -> R -> R) (x y : jsnum) : jsnum :=
  match x, y with
  | Num a, Num b => Num (f a b)
  | _, _ => NaN
  end.

#[export] Instance jsnum_number : JSNumber jsnum := {|
  lit q := Num (Q2R q);
  nan := NaN;
  num_add := jsnum_lift2 Rplus;
  num_sub := jsnum_lift2 Rminus;
  num_mul := jsnum_lift2 Rmult;
  num_div := jsnum_lift2 Rdiv;
  num_sin := jsnum_lift1 sin;
  num_cos := jsnum_lift1 cos;
  num_tanh := jsnum_lift1 tanh
|}.

Definition is_real (x : jsnum) : Prop :=
  match x with Num _ => True | NaN => False end.

(** A draw of [Math.random()]: a real in [0, 1). *)
Definition unit_draw (x : jsnum) : Prop :=
  match x with Num r => (0 <= r < 1)%R | NaN => False end.

(** ** Diagnostics and the callers of the engine *)

(** The two functions of [Math] that the diagnostics use. *)
Class JSMath (T : Type) := {
  num_sqrt : T -> T;            (* [Math.sqrt] *)
  num_max : T -> T -> T         (* [Math.max] of two numbers *)
}.

Section Diagnostics.
Context {T : Type} `{JSNumber T} `{JSMath T}.

Definition norm (v : vec T) : T :=
  let acc :=
    for_loop 0 (length v)
      (fun i acc => (acc + at_index v i * at_index v i)%js) (lit 0) in
  num_sqrt acc.

Definition oscillatorEnergy (state : vec T) : T :=
  let dim := length state in
  let n := dim / 2 in
  for_loop 0 n
    (fun i E =>
       let x := at_index state (2 * i) in
       let v := at_index state (2 * i + 1) in
       (E + lit (1 # 2) * (x * x + v * v))%js)
    (lit 0).

Definition isingEnergy (state : vec T) : T :=
  let dim := length state in
  if dim =? 0 then lit 0 else
  let m := for_loop 0 dim (fun i m => (m + at_index state i)%js) (lit 0) in
  let m := (m / lit_nat dim)%js in
  let J : Q := 1%Q in
  (lit (- (1 # 2)) * lit J * lit_nat dim * m * m)%js.

(** The parameter object that the callers pass on. *)
Record parameters := Parameters {
  p_steps : nat;
  p_maxLevels : nat;
  p_t0 : nat;
  p_t1 : nat;
  p_strength : T;
  p_obsLevel : nat;
  p_dim : Z;
  p_modelType : string;
  p_systemType : string
}.

Variable draws : nat -> T.

(** [norm(x)] on the result of a read: [v.length] throws a TypeError on
    [undefined], and a read that threw never reaches [norm]. *)
Definition norm_of (r : read T) : option T :=
  match r with
  | Value v => Some (norm v)
  | Undefined | TypeError => None
  end.

(** The three running sums of [updateMultiverseStats]. *)
Record sums := Sums { sumInf : T; sumDelta : T; sumInfSq : T }.

(** One round of the loop of [updateMultiverseStats].  The state is the
    sums and the cursor of the generator; a throw leaves the sums as
    they were. *)
Definition ensemble_round (p : parameters) (st : sums * nat) : outcome (sums * nat) :=
  let '(acc, cur) := st in
  match new_LivingUniverse draws (p_dim p) (p_modelType p) (p_systemType p) None cur with
  | Threw (_, cur) => Threw (acc, cur)
  | Returned (U, cur) =>
      match run draws U (p_steps p) (p_maxLevels p) cur with
      | Threw (_, cur) => Threw (acc, cur)
      | Returned (U, cur) =>
          match norm_of (get_state U (p_t0 p) 0) with
          | None => Threw (acc, cur)
          | Some normBefore =>
              match retro_influence U (p_t1 p) (p_t0 p) (p_strength p) with
              | Threw _ => Threw (acc, cur)
              | Returned U =>
                  match norm_of (get_state U (p_t0 p) 0) with
                  | None => Threw (acc, cur)
                  | Some normAfter =>
                      let delta := (normAfter - normBefore)%js in
                      match infinite_state U (p_t0 p) with
                      | None => Threw (acc, cur)
                      | Some inf_state =>
                          let inf := norm inf_state in
                          Returned
                            (Sums (sumInf acc + inf)%js
                                  (sumDelta acc + delta)%js
                                  (sumInfSq acc + inf * inf)%js,
                             cur)
                      end
                  end
              end
          end
      end
  end.

(** [for (let i = 0; i < count; i++) { ... }], left at the first throw. *)
Fixpoint ensemble_loop (p : parameters) (count : nat) (st : sums * nat)
    : outcome (sums * nat) :=
  match count with
  | 0 => Returned st
  | S count =>
      match ensemble_round p st with
      | Returned st => ensemble_loop p count st
      | Threw st => Threw st
      end
  end.

(** What [updateMultiverseStats] computes: nothing when the mode is off
    or [count] is 0, else the three statistics it then formats into the
    page, or a throw. *)
Inductive statistics :=
  | NoStatistics
  | Statistics (meanInf meanDelta varInf : T)
  | StatisticsThrew.

Definition updateMultiverseStats (enabled : bool) (count : nat) (p : parameters)
    (cur : nat) : statistics * nat :=
  if negb enabled || (count =? 0) then (NoStatistics, cur) else
  match ensemble_loop p count (Sums (lit 0) (lit 0) (lit 0), cur) with
  | Threw (_, cur) => (StatisticsThrew, cur)
  | Returned (acc, cur) =>
      let meanInf := (sumInf acc / lit_nat count)%js in
      let meanDelta := (sumDelta acc / lit_nat count)%js in
      let varInf :=
        num_max (lit 0) (sumInfSq acc / lit_nat count - meanInf * meanInf)%js in
      (Statistics meanInf meanDelta varInf, cur)
  end.

(** The numbers that [runBrowserSimulation] computes from one universe
    before it writes them into the page. *)
Record metrics := Metrics {
  norm_before : T;
  norm_after : T;
  delta_norm : T;
  delta_energy : T;
  inf_norm : T;
  obs_norm : T;
  normsTimeline : list T
}.

Definition energy_of (modelType : string) (state : vec T) (state_norm : T) : T :=
  if String.eqb modelType "oscillators" then oscillatorEnergy state
  else if String.eqb modelType "ising" then isingEnergy state
  else (state_norm * state_norm)%js.

(** The engine part of [runBrowserSimulation]: [None] when one of its
    statements throws. *)
Definition simulation_metrics (p : parameters) (cur : nat) : option (metrics * nat) :=
  match new_LivingUniverse draws (p_dim p) (p_modelType p) (p_systemType p) None cur with
  | Threw _ => None
  | Returned (U, cur) =>
      match run draws U (p_steps p) (p_maxLevels p) cur with
      | Threw _ => None
      | Returned (U, cur) =>
          match get_state U (p_t0 p) 0 with
          | Value state_before =>
              let norm_before := norm state_before in
              match retro_influence U (p_t1 p) (p_t0 p) (p_strength p) with
              | Threw _ => None
              | Returned U =>
                  match get_state U (p_t0 p) 0 with
                  | Value state_after =>
                      let norm_after := norm state_after in
                      let delta_norm := (norm_after - norm_before)%js in
                      let energy_before :=
                        energy_of (p_modelType p) state_before norm_before in
                      let energy_after :=
                        energy_of (p_modelType p) state_after norm_after in
                      let delta_energy := (energy_after - energy_before)%js in
                      inf_state ← infinite_state U (p_t0 p);
                      let inf_norm := norm inf_state in
                      obs_norm ← norm_of (perceive U (p_obsLevel p) (p_t0 p));
                      Some (Metrics norm_before norm_after delta_norm delta_energy
                                    inf_norm obs_norm (norm <$> history U), cur)
                  | _ => None
                  end
              end
          | _ => None
          end
      end
  end.
End Diagnostics.

Arguments parameters T : clear implicits.
Arguments sums T : clear implicits.
Arguments statistics T : clear implicits.
Arguments metrics T : clear implicits.

(** ** Reading the parameters *)

(** The text of an input field: a sequence of UTF-16 code units. *)
Definition white_space_units : list N :=
  [9; 10; 11; 12; 13; 32; 160; 5760; 8232; 8233; 8239; 8287; 12288; 65279]%N.

(** ECMAScript WhiteSpace and LineTerminator, which [parseInt] skips. *)
Definition is_white_space (c : N) : bool :=
  existsb (N.eqb c) white_space_units || ((8192 <=? c)%N && (c <=? 8202)%N).

Fixpoint trim_start (s : list N) : list N :=
  match s with
  | c :: rest => if is_white_space c then trim_start rest else s
  | [] => []
  end.

Definition is_digit (c : N) : bool := (48 <=? c)%N && (c <=? 57)%N.

(** The longest prefix of decimal digits, as digit values. *)
Fixpoint leading_digits (s : list N) : list Z :=
  match s with
  | c :: rest => if is_digit c then (Z.of_N c - 48)%Z :: leading_digits rest else []
  | [] => []
  end.

Definition decimal_value (digits : list Z) : Z :=
  foldl (fun acc d => (10 * acc + d)%Z) 0%Z digits.

(** [parseInt(value, 10)] on a string: [None] is NaN.  The result is the
    exact integer; the number JavaScript returns agrees with it below
    2^53 and stays above every such bound beyond. *)
Definition parseInt (value : list N) : option Z :=
  let s := trim_start value in
  let sign := match s with 45%N :: _ => (-1)%Z | _ => 1%Z end in
  let s := match s with
           | c :: rest => if (c =? 43)%N || (c =? 45)%N then rest else s
           | [] => s
           end in
  match leading_digits s with
  | [] => None
  | digits => Some (sign * decimal_value digits)%Z
  end.

Definition clampInt (value : list N) (min max fallback : Z) : Z :=
  match parseInt value with
  | None => fallback
  | Some n => Z.min max (Z.max min n)
  end.

(** The input elements that [getParameters] looks up: [None] when the
    page has no such element, else the text of the field (for the
    check box, whether it is checked). *)
Record controls := Controls {
  stepsEl : option (list N);
  levelsEl : option (list N);
  t0El : option (list N);
  t1El : option (list N);
  levelEl : option (list N);
  dimEl : option (list N);
  multiEl : option bool;
  multiCountEl : option (list N)
}.

(** The integer parameters that [getParameters] returns. *)
Record integer_parameters := IntegerParameters {
  g_steps : Z;
  g_maxLevels : Z;
  g_t0 : Z;
  g_t1 : Z;
  g_obsLevel : Z;
  g_dim : Z;
  g_multiverseEnabled : bool;
  g_multiverseCount : Z
}.

(** [el ? clampInt(el.value, min, max, fallback) : fallback] *)
Definition field_value (el : option (list N)) (min max fallback : Z) : Z :=
  match el with
  | Some value => clampInt value min max fallback
  | None => fallback
  end.

(** The integer part of [getParameters]; the write-back of [t0] and [t1]
    into their fields is [written_back] below, the strength and the
    display preferences are left out. *)
Definition getParameters (c : controls) : integer_parameters :=
  let steps := field_value (stepsEl c) 10 500 120 in
  let maxLevels := field_value (levelsEl c) 5 100 60 in
  let t0 := field_value (t0El c) 0 (steps - 1) 30 in
  let t1 := field_value (t1El c) 1 (steps - 1) 90 in
  let t1 := if (t1 <=? t0)%Z then Z.min (steps - 1) (t0 + 1) else t1 in
  let obsLevel := field_value (levelEl c) 0 (maxLevels - 1) 10 in
  let dim := field_value (dimEl c) 2 40 DEFAULT_DIM in
  let multiverseEnabled := default false (multiEl c) in
  let multiverseCount :=
    if multiverseEnabled then field_value (multiCountEl c) 2 40 10 else 0%Z in
  IntegerParameters steps maxLevels t0 t1 obsLevel dim multiverseEnabled multiverseCount.

(** The decimal digits of [n], most significant first, in front of
    [acc]; [fuel] bounds the number of digits. *)
Fixpoint decimal_digits (fuel : nat) (n : N) (acc : list N) : list N :=
  match fuel with
  | 0 => acc
  | S fuel =>
      let acc := (48 + n mod 10)%N :: acc in
      if (n / 10 =? 0)%N then acc else decimal_digits fuel (n / 10)%N acc
  end.

(** [String(n)] for an integer (below 10^21 in size, where JavaScript
    still prints every digit). *)
Definition String_of_integer (z : Z) : list N :=
  let n := Z.to_N (Z.abs z) in
  let digits := decimal_digits (S (N.to_nat n)) n [] in
  if (z <? 0)%Z then 45%N :: digits else digits.

(** The fields after [getParameters]: [if (t0El) t0El.value = String(t0)]
    and the same for [t1]. *)
Definition written_back (c : controls) : controls :=
  let p := getParameters c in
  Controls (stepsEl c) (levelsEl c)
           ((fun _ => String_of_integer (g_t0 p)) <$> t0El c)
           ((fun _ => String_of_integer (g_t1 p)) <$> t1El c)
           (levelEl c) (dimEl c) (multiEl c) (multiCountEl c).

(** The parameters as [runBrowserSimulation] hands them to the engine:
    the integers of [getParameters], none of which is negative, with
    the strength and the two names read from their fields. *)
Definition engine_parameters {T : Type} (g : integer_parameters) (strength : T)
    (modelType systemType : string) : parameters T :=
  Parameters (Z.to_nat (g_steps g)) (Z.to_nat (g_maxLevels g)) (Z.to_nat (g_t0 g))
             (Z.to_nat (g_t1 g)) strength (Z.to_nat (g_obsLevel g)) (g_dim g)
             modelType systemType.

(** ** The list of the last runs *)

(** [while (historyArr.length > 5) historyArr.shift()] *)
Fixpoint shift_to_five {A} (historyArr : list A) : list A :=
  match historyArr with
  | [] => []
  | _ :: rest => if 5 <? length historyArr then shift_to_five rest else historyArr
  end.

(** [historyArr.push({id: historyArr.length + 1, ...})] and the loop
    that follows it in [runBrowserSimulation]; an entry is its [id] and
    the rest of its fields. *)
Definition record_run {A} (historyArr : list (nat * A)) (fields : A) : list (nat * A) :=
  shift_to_five (historyArr ++ [(length historyArr + 1, fields)]).

(** ** The real instance of the diagnostics *)

Definition jsnum_sqrt (x : jsnum) : jsnum :=
  match x with
  | Num a => if Rle_dec 0 a then Num (sqrt a) else NaN
  | NaN => NaN
  end.

#[export] Instance jsnum_math : JSMath jsnum := {|
  num_sqrt := jsnum_sqrt;
  num_max := jsnum_lift2 Rmax
|}.

(** Every component is a real number. *)
Definition real_vector (v : vec jsnum) : Prop := Forall is_real v.

(** Every number stored in the universe is real. *)
Definition real_universe (u : universe jsnum) : Prop :=
  Forall real_vector (history u) ∧
  ∀ t row level v, levels u !! t = Some row → row !! level = Some v → real_vector v.

(** Every component is a real number that satisfies [P]. *)
Definition within (P : R -> Prop) (v : vec jsnum) : Prop :=
  Forall (fun x => match x with Num r => P r | NaN => False end) v.

(** Evaluation of a [jsnum] expression down to the real operations. *)
Ltac js_eval := cbv -[Rplus Rminus Rmult Rdiv Rinv Ropp IZR sin cos tanh Rle Rlt].

(** * Properties *)

(** ** Vector algebra *)

Section VectorFacts.
Context {T : Type} `{JSNumber T}.

Lemma length_sinVec (v : vec T) : length (sinVec v) = length v.
Proof. apply length_fmap. Qed.

Lemma length_cosVec (v : vec T) : length (cosVec v) = length v.
Proof. apply length_fmap. Qed.

Lemma length_addVec (a b : vec T) : length (addVec a b) = length a.
Proof. apply length_imap. Qed.

Lemma length_subVec (a b : vec T) : length (subVec a b) = length a.
Proof. apply length_imap. Qed.

Lemma length_scaleVec (v : vec T) s : length (scaleVec v s) = length v.
Proof. apply length_fmap. Qed.

Lemma length_blendVec (a b : vec T) alpha : length (blendVec a b alpha) = length a.
Proof. apply length_imap. Qed.

Lemma length_randVec (draws : nat -> T) len cur :
  length (randVec draws len cur).1 = Z.to_nat len.
Proof. unfold randVec. simpl. by rewrite length_fmap, length_seq. Qed.

Lemma length_zeros len (v : vec T) : zeros len = Some v -> length v = Z.to_nat len.
Proof.
  unfold zeros. case_decide; [|done].
  intros [= <-]. apply length_replicate.
Qed.
End VectorFacts.

(** ** Loops and models *)

Section LoopFacts.
Context {St : Type}.

Lemma for_loop_0 lo (body : nat -> St -> St) s : for_loop lo 0 body s = s.
Proof. reflexivity. Qed.

Lemma for_loop_S lo k (body : nat -> St -> St) s :
  for_loop lo (S k) body s = body (lo + k) (for_loop lo k body s).
Proof. unfold for_loop. by rewrite seq_S, foldl_app. Qed.
End LoopFacts.

Section DynamicsFacts.
Context {T : Type} `{JSNumber T}.
Variable draws : nat -> T.

(** The loop of [evolveOscillators] after [k] pairs. *)
Lemma osc_loop_spec prev systemType n k next0 cur :
  2 * k ≤ length next0 →
  let st := for_loop 0 k (osc_pair draws prev systemType n) (next0, cur) in
  length st.1 = length next0 ∧
  st.2 = cur + noise_draws (osc_noiseScale systemType) k ∧
  (∀ j, 2 * k ≤ j → st.1 !! j = next0 !! j) ∧
  (∀ i, i < k →
     st.1 !! (2 * i) =
       Some (at_index prev (2 * i) + lit osc_dt * osc_damped prev systemType n i)%js ∧
     st.1 !! (2 * i + 1) =
       Some (if positive (osc_noiseScale systemType)
             then (osc_damped prev systemType n i
                   + noise draws (osc_noiseScale systemType) (cur + i))%js
             else osc_damped prev systemType n i)).
Proof.
  induction k as [|k IH]; intros Hlen.
  - simpl. unfold noise_draws. repeat split; try done.
    + destruct (positive _); lia.
    + intros; lia.
    + intros; lia.
  - cbv zeta. rewrite for_loop_S. simpl.
    destruct IH as (IHlen & IHcur & IHrest & IHpairs); [lia|].
    destruct (for_loop 0 k _ _) as [next c] eqn:E. simpl in *.
    unfold osc_pair, noise_draws in *.
    destruct (positive (osc_noiseScale systemType)) eqn:Epos; simpl.
    all: rewrite !length_insert.
    all: split; [done|].
    all: split; [lia|].
    all: split.
    all: try (intros j Hj; rewrite !list_lookup_insert_ne by lia; apply IHrest; lia).
    all: intros i Hi; destruct (decide (i = k)) as [->|Hne].
    all: try (split;
      [ rewrite list_lookup_insert_ne by lia;
        rewrite list_lookup_insert_eq by (rewrite ?length_insert; lia); done
      | rewrite list_lookup_insert_eq by (rewrite ?length_insert; lia);
        subst; done ]).
    all: rewrite !list_lookup_insert_ne by lia; apply IHpairs; lia.
Qed.

Lemma evolveOscillators_spec prev systemType cur :
  let out := evolveOscillators draws prev systemType cur in
  let n := length prev / 2 in
  length out.1 = length prev ∧
  out.2 = cur + noise_draws (osc_noiseScale systemType) n ∧
  (∀ j, 2 * n ≤ j → out.1 !! j = prev !! j) ∧
  (∀ i, i < n →
     out.1 !! (2 * i) =
       Some (at_index prev (2 * i) + lit osc_dt * osc_damped prev systemType n i)%js ∧
     out.1 !! (2 * i + 1) =
       Some (if positive (osc_noiseScale systemType)
             then (osc_damped prev systemType n i
                   + noise draws (osc_noiseScale systemType) (cur + i))%js
             else osc_damped prev systemType n i)).
Proof.
  cbv zeta. unfold evolveOscillators.
  assert (Hn : 2 * (length prev / 2) ≤ length prev).
  { pose proof (Nat.div_mod_eq (length prev) 2). lia. }
  destruct (osc_loop_spec prev systemType (length prev / 2)
              (length prev / 2) prev cur Hn) as (Hlen & Hcur & Hrest & Hpairs).
  destruct (for_loop 0 _ _ _) as [next c]. cbn [fst snd] in *.
  assert (Hlast : <[length prev - 1 := at_index prev (length prev - 1)]> next !! (length prev - 1)
                  = prev !! (length prev - 1) ∨ length prev = 0).
  { destruct (decide (length prev = 0)) as [|Hpos]; [by right|left].
    rewrite list_lookup_insert_eq by lia.
    unfold at_index. destruct (prev !! _) eqn:E; [done|].
    apply lookup_ge_None in E. lia. }
  destruct (length prev mod 2 =? 1) eqn:Eodd; cbn [fst snd].
  - apply Nat.eqb_eq in Eodd.
    assert (Hd : length prev - 1 = 2 * (length prev / 2)).
    { pose proof (Nat.div_mod_eq (length prev) 2). lia. }
    rewrite length_insert. repeat split; try done.
    + intros j Hj. destruct (decide (j = length prev - 1)) as [->|Hne].
      * destruct Hlast as [->|E0]; [done|]. by rewrite E0 in Eodd.
      * rewrite list_lookup_insert_ne by lia. by apply Hrest.
    + rewrite list_lookup_insert_ne by lia. by apply Hpairs.
    + rewrite list_lookup_insert_ne by lia. by apply Hpairs.
  - repeat split; try done; by apply Hpairs.
Qed.

(** The loop of [evolveIsing] after [k] sites. *)
Lemma ising_loop_spec m systemType k next0 cur :
  k ≤ length next0 →
  let st := for_loop 0 k (ising_site draws m systemType) (next0, cur) in
  length st.1 = length next0 ∧
  st.2 = cur + noise_draws (ising_noiseScale systemType) k ∧
  (∀ j, k ≤ j → st.1 !! j = next0 !! j) ∧
  (∀ i, i < k →
     st.1 !! i =
       Some (num_tanh
               (lit ising_beta *
                  (if positive (ising_noiseScale systemType)
                   then (lit ising_J * m + lit ising_h)
                        + noise draws (ising_noiseScale systemType) (cur + i)
                   else lit ising_J * m + lit ising_h))%js)).
Proof.
  induction k as [|k IH]; intros Hlen.
  - simpl. unfold noise_draws. repeat split; try done.
    + destruct (positive _); lia.
    + intros; lia.
  - cbv zeta. rewrite for_loop_S. simpl.
    destruct IH as (IHlen & IHcur & IHrest & IHsites); [lia|].
    destruct (for_loop 0 k _ _) as [next c] eqn:E. simpl in *.
    unfold ising_site, noise_draws in *.
    destruct (positive (ising_noiseScale systemType)) eqn:Epos; simpl.
    all: rewrite !length_insert.
    all: split; [done|].
    all: split; [lia|].
    all: split.
    all: try (intros j Hj; rewrite !list_lookup_insert_ne by lia; apply IHrest; lia).
    all: intros i Hi; destruct (decide (i = k)) as [->|Hne].
    all: try (rewrite list_lookup_insert_eq by lia; subst; done).
    all: rewrite !list_lookup_insert_ne by lia; apply IHsites; lia.
Qed.

Lemma evolveIsing_spec prev systemType cur :
  let out := evolveIsing draws prev systemType cur in
  length out.1 = length prev ∧
  out.2 = cur + noise_draws (ising_noiseScale systemType) (length prev).
Proof.
  cbv zeta. unfold evolveIsing.
  destruct (ising_loop_spec (ising_mean prev) systemType (length prev)
              (replicate (length prev) nan) cur) as (Hlen & Hcur & _).
  { by rewrite length_replicate. }
  rewrite length_replicate in Hlen. done.
Qed.

Lemma length_nonlinear (prev memory : vec T) level :
  length (nonlinear prev memory level) = length prev.
Proof. unfold nonlinear. by rewrite length_blendVec, length_sinVec. Qed.

(** Every model returns a vector as long as the state it is given. *)
Lemma length_evolve (u : universe T) prev memory level cur v cur' :
  evolve draws u (Some prev) memory level cur = Some (v, cur') →
  length v = length prev.
Proof.
  unfold evolve. repeat case_match; cbn [mbind option_bind].
  - intros [= E]. pose proof (evolveOscillators_spec prev (systemType u) cur) as (Hl & _).
    by rewrite E in Hl.
  - intros [= E]. pose proof (evolveIsing_spec prev (systemType u) cur) as (Hl & _).
    by rewrite E in Hl.
  - destruct memory; cbn [mbind option_bind]; [|done].
    intros [= <- <-]. apply length_nonlinear.
Qed.

Lemma evolve_undefined (u : universe T) memory level cur :
  evolve draws u None memory level cur = None.
Proof. unfold evolve. by repeat case_match. Qed.
End DynamicsFacts.

(** ** Steps and runs *)

Section UniverseFacts.
Context {T : Type} `{JSNumber T}.
Variable draws : nat -> T.

Lemma write_level_Some (u : universe T) t level v row :
  levels u !! t = Some row →
  write_level u t level v
  = Some (set_levels u (<[t := <[level := v]> row]> (levels u))).
Proof. unfold write_level. by intros ->. Qed.

Lemma evolve_set_levels (u : universe T) l prev memory level cur :
  evolve draws (set_levels u l) prev memory level cur
  = evolve draws u prev memory level cur.
Proof. done. Qed.

Lemma evolve_set_history (u : universe T) h prev memory level cur :
  evolve draws (set_history u h) prev memory level cur
  = evolve draws u prev memory level cur.
Proof. done. Qed.

Lemma evolve_defined (u : universe T) prev memory level cur :
  is_Some (evolve draws u (Some prev) (Some memory) level cur).
Proof. unfold evolve. repeat case_match; by eexists. Qed.

(** What the loop over the derived levels has done when it returns. *)
Lemma level_loop_returned t count : ∀ level (u : universe T) cur u' cur' row,
  level_loop draws t level count u cur = Returned (u', cur') →
  levels u !! t = Some row →
  history u' = history u ∧ dim u' = dim u ∧
  modelType u' = modelType u ∧ systemType u' = systemType u ∧
  (∀ t', t' ≠ t → levels u' !! t' = levels u !! t') ∧
  ∃ row', levels u' !! t = Some row' ∧
    (∀ l, l < level ∨ level + count ≤ l → row' !! l = row !! l) ∧
    (∀ l, level ≤ l < level + count → is_Some (row' !! l)).
Proof.
  induction count as [|count IH]; intros level u cur u' cur' row Hrun Hrow.
  - injection Hrun as <- <-. repeat split; try done.
    exists row. repeat split; try done. intros; lia.
  - cbn [level_loop] in Hrun. rewrite Hrow in Hrun.
    destruct (if 1 <? t then _ else _) as [mem_layer|]; [|done].
    destruct (evolve _ _ _ _ _ _) as [[state c]|]; [|done].
    rewrite (write_level_Some _ _ _ _ _ Hrow) in Hrun.
    eapply IH in Hrun; [|cbn; by rewrite lookup_insert_eq].
    destruct Hrun as (Hh & Hd & Hm & Hs & Hother & row' & Hrow' & Hkeep & Hnew).
    cbn in Hh, Hd, Hm, Hs, Hother.
    repeat split; try done.
    + intros t' Ht'. rewrite Hother by done. by rewrite lookup_insert_ne.
    + exists row'. repeat split; try done.
      * intros l Hl. rewrite Hkeep by lia. apply lookup_insert_ne. lia.
      * intros l Hl. destruct (decide (l = level)) as [->|Hne].
        -- rewrite Hkeep by lia. rewrite lookup_insert_eq. by eexists.
        -- apply Hnew. lia.
Qed.

(** The loop returns when the rows it reads are there. *)
Lemma level_loop_returns t count : ∀ level (u : universe T) cur row,
  levels u !! t = Some row →
  is_Some (row !! (level - 1)) →
  (1 < t → ∃ before, levels u !! (t - 1) = Some before ∧
             ∀ l, level - 1 ≤ l < level - 1 + count → is_Some (before !! l)) →
  0 < level →
  returned (level_loop draws t level count u cur) = true.
Proof.
  induction count as [|count IH]; intros level u cur row Hrow [p Hp] Hbefore Hlevel.
  - done.
  - cbn [level_loop]. rewrite Hrow, Hp.
    assert (∃ m, (if 1 <? t
                  then match levels u !! (t - 1) with
                       | Some before => Some (before !! (level - 1))
                       | None => None
                       end
                  else Some (Some p)) = Some (Some m)) as [m ->].
    { destruct (1 <? t) eqn:Et; [|by eexists].
      apply Nat.ltb_lt in Et. destruct (Hbefore Et) as (before & -> & Hall).
      destruct (Hall (level - 1)) as [m ->]; [lia|]. by eexists. }
    destruct (evolve_defined u p m level cur) as [[state c] ->].
    rewrite (write_level_Some _ _ _ _ _ Hrow).
    eapply IH.
    + cbn. by rewrite lookup_insert_eq.
    + replace (S level - 1) with level by lia. rewrite lookup_insert_eq. by eexists.
    + intros Ht. destruct (Hbefore Ht) as (before & Hb & Hall).
      exists before. split.
      * cbn. rewrite lookup_insert_ne by lia. done.
      * intros l Hl. apply Hall. lia.
    + lia.
Qed.

(** What [step] has done when it returns. *)
Lemma step_returned (u : universe T) t maxLevel cur u' cur' :
  step draws u t maxLevel cur = Returned (u', cur') →
  0 < t →
  ∃ base_now c row,
    evolve draws u (history u !! (t - 1)) (base_memory u t) 0 cur = Some (base_now, c) ∧
    history u' = history u ++ [base_now] ∧
    dim u' = dim u ∧ modelType u' = modelType u ∧ systemType u' = systemType u ∧
    (∀ t', t' ≠ t → levels u' !! t' = levels u !! t') ∧
    levels u' !! t = Some row ∧
    row !! 0 = Some base_now ∧
    (∀ l, is_Some (row !! l) ↔ l < Nat.max 1 maxLevel).
Proof.
  unfold step, base_memory. intros Hstep Ht.
  destruct (t =? 0) eqn:E0; [apply Nat.eqb_eq in E0; lia|]. clear E0.
  cbn [history set_levels] in Hstep.
  rewrite evolve_set_levels in Hstep.
  destruct (evolve _ _ _ _ _ _) as [[base_now c]|] eqn:Eev; [|done].
  erewrite write_level_Some in Hstep; [|cbn; by rewrite lookup_insert_eq].
  eapply level_loop_returned in Hstep; [|cbn; by rewrite lookup_insert_eq].
  destruct Hstep as (Hh & Hd & Hm & Hs & Hother & row & Hrow & Hkeep & Hnew).
  cbn in Hh, Hd, Hm, Hs, Hother.
  exists base_now, c, row. repeat split; try done.
  - intros t' Ht'. rewrite Hother by done. by rewrite !lookup_insert_ne.
  - rewrite Hkeep by lia. apply lookup_insert_eq.
  - intros Hl. destruct (decide (l < Nat.max 1 maxLevel)); [done|].
    rewrite Hkeep in Hl by lia.
    rewrite lookup_insert_ne, lookup_empty in Hl by lia. by destruct Hl.
  - intros Hl. destruct (decide (l = 0)) as [->|Hne].
    + rewrite Hkeep by lia. rewrite lookup_insert_eq. by eexists.
    + apply Hnew. lia.
Qed.

(** [step] returns when the state before [t] and the row of [t - 1]
    are there. *)
Lemma step_returns (u : universe T) t maxLevel cur :
  0 < t ≤ length (history u) →
  (1 < t → ∃ before, levels u !! (t - 1) = Some before ∧
             ∀ l, l < maxLevel - 1 → is_Some (before !! l)) →
  returned (step draws u t maxLevel cur) = true.
Proof.
  intros Ht Hbefore. unfold step.
  destruct (t =? 0) eqn:E0; [done|]. clear E0.
  cbn [history set_levels]. rewrite evolve_set_levels.
  destruct (lookup_lt_is_Some_2 (history u) (t - 1)) as [prev Hprev]; [lia|].
  assert (∃ mem, (if 1 <? t then history u !! (t - 2) else history u !! (t - 1))
                 = Some mem) as [mem Hmem].
  { destruct (1 <? t); [|by eexists].
    apply lookup_lt_is_Some_2. lia. }
  rewrite Hmem, Hprev.
  destruct (evolve_defined u prev mem 0 cur) as [[base_now c] ->].
  erewrite write_level_Some; [|cbn; by rewrite lookup_insert_eq].
  eapply level_loop_returns.
  - cbn. by rewrite lookup_insert_eq.
  - cbn. rewrite lookup_insert_eq. by eexists.
  - intros Ht1. destruct (Hbefore Ht1) as (before & Hb & Hall).
    exists before. split.
    + cbn. rewrite !lookup_insert_ne by lia. done.
    + intros l Hl. apply Hall. lia.
  - lia.
Qed.

(** [run] from an ordered universe returns, and every step it takes
    leaves a row whose level-0 entry is the state appended to
    [history]. *)
Lemma run_from_spec maxLevel count : ∀ t (u : universe T) cur,
  0 < t → in_order u t maxLevel →
  ∃ u' cur',
    run_from draws t count maxLevel u cur = Returned (u', cur') ∧
    in_order u' (t + count) maxLevel ∧
    dim u' = dim u ∧ modelType u' = modelType u ∧ systemType u' = systemType u ∧
    (∀ k, k < t → history u' !! k = history u !! k) ∧
    (∀ k, k < t → levels u' !! k = levels u !! k) ∧
    (∀ k, t ≤ k < t + count →
       ∃ base row, history u' !! k = Some base ∧
         levels u' !! k = Some row ∧ row !! 0 = Some base ∧
         ∀ l, is_Some (row !! l) ↔ l < Nat.max 1 maxLevel).
Proof.
  induction count as [|count IH]; intros t u cur Ht Hord.
  - exists u, cur. rewrite Nat.add_0_r.
    do 2 (split; [done|]). repeat split; try done. intros; lia.
  - cbn [run_from].
    assert (Hret : returned (step draws u t maxLevel cur) = true).
    { destruct Hord as [Hlen Hbefore]. apply step_returns; [lia|].
      intros Ht1. destruct (Hbefore Ht1) as (before & Hb & Hall).
      exists before. split; [done|]. intros l Hl. apply Hall. lia. }
    destruct (step draws u t maxLevel cur) as [[u1 c1]|] eqn:Estep; [|done].
    apply step_returned in Estep; [|done].
    destruct Estep as (base_now & c & row & _ & Hh & Hd & Hm & Hs & Hother & Hrow & H0 & Hdom).
    destruct Hord as [Hlen Hbefore].
    destruct (IH (S t) u1 c1) as (u' & cur' & Hrun & Hord' & Hd' & Hm' & Hs' & Hhist & Hlev & Hrows).
    { lia. }
    { split; [rewrite Hh, length_app; cbn; lia|].
      intros _. exists row. replace (S t - 1) with t by lia. done. }
    exists u', cur'. rewrite Hrun.
    replace (t + S count) with (S t + count) by lia.
    do 2 (split; [done|]). repeat split; try congruence.
    + intros k Hk. rewrite Hhist by lia. rewrite Hh. apply lookup_app_l. lia.
    + intros k Hk. rewrite Hlev by lia. apply Hother. lia.
    + intros k Hk. destruct (decide (k = t)) as [->|Hne]; [|apply Hrows; lia].
      exists base_now, row. rewrite Hhist, Hlev by lia.
      repeat split; try done; try apply Hdom.
      rewrite Hh, lookup_app_r by lia.
      replace (t - length (history u)) with 0 by lia. done.
Qed.
End UniverseFacts.

(** ** The length of the stored vectors *)

Section LengthFacts.
Context {T : Type} `{JSNumber T}.
Variable draws : nat -> T.

Lemma all_length_write n (u : universe T) t level v row :
  all_length n u → levels u !! t = Some row → length v = n →
  all_length n (set_levels u (<[t := <[level := v]> row]> (levels u))).
Proof.
  intros [Hh Hl] Hrow Hv. split; [done|].
  intros t' row' l v'. cbn.
  destruct (decide (t' = t)) as [->|Hne].
  - rewrite lookup_insert_eq. intros [= <-].
    destruct (decide (l = level)) as [->|Hnl].
    + rewrite lookup_insert_eq. by intros [= <-].
    + rewrite lookup_insert_ne by done. by apply (Hl t).
  - rewrite lookup_insert_ne by done. apply Hl.
Qed.

Lemma all_length_clear n (u : universe T) t :
  all_length n u → all_length n (set_levels u (<[t := ∅]> (levels u))).
Proof.
  intros [Hh Hl]. split; [done|].
  intros t' row' l v'. cbn.
  destruct (decide (t' = t)) as [->|Hne].
  - rewrite lookup_insert_eq. intros [= <-]. by rewrite lookup_empty.
  - rewrite lookup_insert_ne by done. apply Hl.
Qed.

Lemma all_length_push n (u : universe T) v :
  all_length n u → length v = n →
  all_length n (set_history u (history u ++ [v])).
Proof.
  intros [Hh Hl] Hv. split; [|done].
  cbn. apply Forall_app. split; [done|]. by apply Forall_singleton.
Qed.

Lemma all_length_replace n (u : universe T) k v :
  all_length n u → length v = n →
  all_length n (set_history u (<[k := v]> (history u))).
Proof.
  intros [Hh Hl] Hv. split; [|done].
  cbn. by apply Forall_insert.
Qed.

Lemma all_length_history n (u : universe T) k v :
  all_length n u → history u !! k = Some v → length v = n.
Proof. intros [Hh _] Hk. by eapply (Forall_lookup_1 _ _ _ _ Hh). Qed.

(** The loop over the levels keeps the lengths, also when it throws. *)
Lemma level_loop_all_length n t count : ∀ level (u : universe T) cur,
  all_length n u →
  all_length n (final_state (level_loop draws t level count u cur)).1 ∧
  dim (final_state (level_loop draws t level count u cur)).1 = dim u.
Proof.
  induction count as [|count IH]; intros level u cur Hu; [done|].
  cbn [level_loop].
  destruct (levels u !! t) as [row|] eqn:Hrow; [|done].
  destruct (if 1 <? t then _ else _) as [mem_layer|]; [|done].
  destruct (row !! (level - 1)) as [prev|] eqn:Hprev;
    [|by rewrite evolve_undefined].
  destruct (evolve _ _ _ _ _ _) as [[state c]|] eqn:Eev; [|done].
  rewrite (write_level_Some _ _ _ _ _ Hrow).
  apply length_evolve in Eev.
  destruct (IH (S level) (set_levels u (<[t := <[level := state]> row]> (levels u))) c)
    as [IH1 IH2]; [|done].
  apply all_length_write; [done..|].
  rewrite Eev. destruct Hu as [_ Hl]. by eapply Hl.
Qed.

Lemma step_all_length n (u : universe T) t maxLevel cur :
  all_length n u →
  all_length n (final_state (step draws u t maxLevel cur)).1 ∧
  dim (final_state (step draws u t maxLevel cur)).1 = dim u.
Proof.
  intros Hu. unfold step. destruct (t =? 0); [done|].
  cbn [history set_levels]. rewrite evolve_set_levels.
  destruct (history u !! (t - 1)) as [prev|] eqn:Hprev.
  2:{ rewrite evolve_undefined. split; [|done]. by apply all_length_clear. }
  destruct (evolve _ _ _ _ _ _) as [[base_now c]|] eqn:Eev.
  2:{ split; [|done]. by apply all_length_clear. }
  apply length_evolve in Eev.
  erewrite write_level_Some; [|cbn; by rewrite lookup_insert_eq].
  match goal with
  | |- context [level_loop draws t 1 ?k ?u1 c] =>
      destruct (level_loop_all_length n t k 1 u1 c) as [L1 L2]; [|done]
  end.
  apply (all_length_write n
           (set_history (set_levels u (<[t:=∅]> (levels u))) (history u ++ [base_now]))
           t 0 base_now ∅).
  - apply (all_length_push n (set_levels u (<[t:=∅]> (levels u)))).
    + by apply all_length_clear.
    + rewrite Eev. by eapply all_length_history.
  - cbn. by rewrite lookup_insert_eq.
  - rewrite Eev. by eapply all_length_history.
Qed.

Lemma run_from_all_length n maxLevel count : ∀ t (u : universe T) cur,
  all_length n u →
  all_length n (final_state (run_from draws t count maxLevel u cur)).1 ∧
  dim (final_state (run_from draws t count maxLevel u cur)).1 = dim u.
Proof.
  induction count as [|count IH]; intros t u cur Hu; [done|].
  cbn [run_from].
  destruct (step_all_length n u t maxLevel cur Hu) as [S1 S2].
  destruct (step draws u t maxLevel cur) as [[u1 c1]|[u1 c1]]; [|done].
  destruct (IH (S t) u1 c1 S1) as [R1 R2]. split; [done|]. by rewrite R2.
Qed.

Lemma retro_influence_all_length n (u : universe T) t_future t_past strength :
  all_length n u →
  all_length n (final_state (retro_influence u t_future t_past strength)) ∧
  dim (final_state (retro_influence u t_future t_past strength)) = dim u.
Proof.
  intros Hu. unfold retro_influence.
  destruct (_ || _); [done|].
  destruct (get_state u t_future 0); [|done..].
  destruct (history u !! t_past) as [past_state|] eqn:Hp; [|done].
  split; [|done]. cbn [final_state].
  apply all_length_replace; [done|].
  rewrite length_addVec. by eapply all_length_history.
Qed.
End LengthFacts.

(** ** Runs that draw no random number *)

Section QuietFacts.
Context {T : Type} `{JSNumber T}.

Lemma for_loop_related {S1 S2} (R : S1 → S2 → Prop) lo k
    (body1 : nat → S1 → S1) (body2 : nat → S2 → S2) s1 s2 :
  R s1 s2 →
  (∀ i x y, R x y → R (body1 i x) (body2 i y)) →
  R (for_loop lo k body1 s1) (for_loop lo k body2 s2).
Proof.
  intros Hs Hbody. induction k as [|k IH]; [done|].
  rewrite !for_loop_S. by apply Hbody.
Qed.

Lemma positive_osc_noiseScale systemType :
  positive (osc_noiseScale systemType) = is_open systemType.
Proof. unfold osc_noiseScale. by destruct (is_open systemType). Qed.

Lemma positive_ising_noiseScale systemType :
  positive (ising_noiseScale systemType) = is_open systemType.
Proof. unfold ising_noiseScale. by destruct (is_open systemType). Qed.

Variables draws1 draws2 : nat → T.

Lemma evolveOscillators_quiet prev systemType cur1 cur2 :
  is_open systemType = false →
  (evolveOscillators draws1 prev systemType cur1).1
  = (evolveOscillators draws2 prev systemType cur2).1.
Proof.
  intros Hopen. unfold evolveOscillators.
  pose proof (for_loop_related (λ x y : vec T * nat, x.1 = y.1) 0 (length prev / 2)
    (osc_pair draws1 prev systemType (length prev / 2))
    (osc_pair draws2 prev systemType (length prev / 2))
    (prev, cur1) (prev, cur2) eq_refl) as Hloop.
  destruct (for_loop _ _ _ (prev, cur1)) as [n1 c1].
  destruct (for_loop _ _ _ (prev, cur2)) as [n2 c2].
  cbn [fst] in *. rewrite Hloop; [done|].
  intros i [x cx] [y cy]. cbn [fst]. intros ->.
  unfold osc_pair. by rewrite positive_osc_noiseScale, Hopen.
Qed.

Lemma evolveIsing_quiet prev systemType cur1 cur2 :
  is_open systemType = false →
  (evolveIsing draws1 prev systemType cur1).1
  = (evolveIsing draws2 prev systemType cur2).1.
Proof.
  intros Hopen. unfold evolveIsing.
  apply (for_loop_related (λ x y : vec T * nat, x.1 = y.1)); [done|].
  intros i [x cx] [y cy]. cbn [fst]. intros ->.
  unfold ising_site. by rewrite positive_ising_noiseScale, Hopen.
Qed.

(** Without noise [evolve] computes the same vector whatever the
    generator holds. *)
Lemma evolve_quiet (u : universe T) prev memory level cur1 cur2 :
  noisy (modelType u) (systemType u) = false →
  fst <$> evolve draws1 u prev memory level cur1
  = fst <$> evolve draws2 u prev memory level cur2.
Proof.
  unfold noisy, evolve. intros Hq.
  destruct (String.eqb (modelType u) "oscillators");
    [|destruct (String.eqb (modelType u) "ising")].
  - destruct prev as [prev|]; [|done]. cbn in *.
    f_equal. by apply evolveOscillators_quiet.
  - destruct prev as [prev|]; [|done]. cbn in *.
    f_equal. by apply evolveIsing_quiet.
  - by destruct prev, memory.
Qed.

Lemma level_loop_quiet t count : ∀ level (u : universe T) cur1 cur2,
  noisy (modelType u) (systemType u) = false →
  same_universe (level_loop draws1 t level count u cur1)
                (level_loop draws2 t level count u cur2).
Proof.
  induction count as [|count IH]; intros level u cur1 cur2 Hq; [done|].
  cbn [level_loop].
  destruct (levels u !! t) as [row|] eqn:Hrow; [|done].
  destruct (if 1 <? t then _ else _) as [mem_layer|]; [|done].
  pose proof (evolve_quiet u (row !! (level - 1)) mem_layer level cur1 cur2 Hq) as Hev.
  destruct (evolve draws1 _ _ _ _ _) as [[s1 c1]|],
           (evolve draws2 _ _ _ _ _) as [[s2 c2]|]; try done.
  injection Hev as ->.
  rewrite (write_level_Some _ _ _ _ _ Hrow). by apply IH.
Qed.

Lemma step_quiet (u : universe T) t maxLevel cur1 cur2 :
  noisy (modelType u) (systemType u) = false →
  same_universe (step draws1 u t maxLevel cur1) (step draws2 u t maxLevel cur2).
Proof.
  intros Hq. unfold step. destruct (t =? 0); [done|].
  cbn [history set_levels]. rewrite !evolve_set_levels.
  pose proof (evolve_quiet u (history u !! (t - 1))
                (if 1 <? t then history u !! (t - 2) else history u !! (t - 1))
                0 cur1 cur2 Hq) as Hev.
  destruct (evolve draws1 _ _ _ _ _) as [[s1 c1]|],
           (evolve draws2 _ _ _ _ _) as [[s2 c2]|]; try done.
  injection Hev as ->.
  erewrite write_level_Some; [|cbn; by rewrite lookup_insert_eq].
  by apply level_loop_quiet.
Qed.

Lemma run_from_quiet maxLevel count : ∀ t (u : universe T) cur1 cur2,
  noisy (modelType u) (systemType u) = false →
  same_universe (run_from draws1 t count maxLevel u cur1)
                (run_from draws2 t count maxLevel u cur2).
Proof.
  induction count as [|count IH]; intros t u cur1 cur2 Hq; [done|].
  cbn [run_from].
  pose proof (step_quiet u t maxLevel cur1 cur2 Hq) as Hstep.
  destruct (step draws1 u t maxLevel cur1) as [[u1 c1]|[u1 c1]] eqn:E1,
           (step draws2 u t maxLevel cur2) as [[u2 c2]|[u2 c2]]; try done.
  cbn in Hstep. subst u2.
  apply IH.
  destruct (Nat.eq_dec t 0) as [->|Ht].
  - by injection E1 as <- _.
  - apply step_returned in E1; [|lia].
    destruct E1 as (? & ? & ? & _ & _ & _ & -> & -> & _). done.
Qed.
End QuietFacts.

(** ** The infinite-level aggregate *)

Section AggregateFacts.
Context {T : Type} `{JSNumber T}.

Lemma Sorted_le_seq lo n : Sorted (≤) (seq lo n).
Proof.
  revert lo. induction n as [|n IH]; intros lo; cbn; [constructor|].
  constructor; [apply IH|].
  destruct n; cbn; constructor. lia.
Qed.

Lemma filter_derived_seq lo n :
  1 ≤ lo → filter (λ i, 1 ≤ i) (seq lo n) = seq lo n.
Proof.
  revert lo. induction n as [|n IH]; intros lo Hlo; [done|].
  cbn [seq]. rewrite filter_cons_True by done. f_equal. apply IH. lia.
Qed.

(** The keys of a row that holds the levels below [n], in order. *)
Lemma sorted_keys_seq (row : gmap nat (vec T)) n :
  (∀ l, is_Some (row !! l) ↔ l < n) →
  sorted_keys row = seq 0 n.
Proof.
  intros Hdom. unfold sorted_keys.
  apply (Sorted_unique (≤)).
  - apply Sorted_merge_sort. apply _.
  - apply Sorted_le_seq.
  - rewrite merge_sort_Permutation.
    apply NoDup_Permutation.
    + apply NoDup_elements.
    + apply NoDup_seq.
    + intros l. rewrite elem_of_elements, elem_of_dom, Hdom, elem_of_seq. lia.
Qed.

Lemma infinite_state_row (u : universe T) t row n :
  levels u !! t = Some row →
  (∀ l, is_Some (row !! l) ↔ l < n) →
  infinite_state u t =
    acc ← zeros (dim u);
    Some (foldl (fun acc i => accumulate acc (default [] (row !! i)) (weight i))
                acc (seq 0 n)).
Proof.
  intros Hrow Hdom. unfold infinite_state.
  rewrite Hrow.
  change (default ∅ (Some row)) with row. by rewrite (sorted_keys_seq row n).
Qed.

Lemma infinite_state_derived_levels_row (u : universe T) t row n :
  levels u !! t = Some row →
  (∀ l, is_Some (row !! l) ↔ l < n) →
  infinite_state_derived_levels u t =
    acc ← zeros (dim u);
    Some (foldl (fun acc i => accumulate acc (default [] (row !! i)) (weight i))
                acc (seq 1 (n - 1))).
Proof.
  intros Hrow Hdom. unfold infinite_state_derived_levels.
  rewrite Hrow.
  change (default ∅ (Some row)) with row. rewrite (sorted_keys_seq row n) by done.
  replace (filter (λ i, 1 ≤ i) (seq 0 n)) with (seq 1 (n - 1)); [done|].
  destruct n as [|n]; [done|]. cbn [seq]. rewrite filter_cons_False by lia.
  replace (S n - 1) with n by lia.
  symmetry. apply filter_derived_seq. lia.
Qed.
End AggregateFacts.

(** ** Construction *)

Section ConstructionFacts.
Context {T : Type} `{JSNumber T}.
Variable draws : nat -> T.

Lemma construct_fields dim0 modelType0 systemType0 seed cur :
  let u := (construct draws dim0 modelType0 systemType0 seed cur).1 in
  dim u = (if decide (dim0 = 0%Z) then DEFAULT_DIM else dim0) ∧
  history u = [default (randVec draws (dim u) cur).1 seed] ∧
  levels u = ∅.
Proof. unfold construct. by destruct seed. Qed.

Lemma construct_in_order dim0 modelType0 systemType0 seed cur maxLevel :
  in_order (construct draws dim0 modelType0 systemType0 seed cur).1 1 maxLevel.
Proof. unfold construct. destruct seed; (split; [done|lia]). Qed.

Lemma construct_noisy dim0 modelType0 systemType0 seed cur :
  let u := (construct draws dim0 modelType0 systemType0 seed cur).1 in
  noisy (modelType u) (systemType u) = noisy modelType0 systemType0.
Proof.
  unfold construct.
  destruct seed; cbn; repeat case_decide; by subst.
Qed.
End ConstructionFacts.

(** ** Concrete runs *)

Section Scenarios.
Context {T : Type} `{JSNumber T}.
Variable draws : nat -> T.

(** A one-component nonlinear universe after [run(2, 2)]: one step,
    the level-0 state and one derived level. *)
Lemma one_component_run x cur :
  let out := run draws (construct draws 1 "nonlinear" "isolated" (Some [x]) cur).1 2 2 cur in
  let u := (final_state out).1 in
  let base := nonlinear [x] [x] 0 in
  let derived := nonlinear base base 1 in
  returned out = true ∧
  history u = [[x]; base] ∧
  levels u !! 1 ≫= (.!! 0) = Some base ∧
  infinite_state u 1
    = Some (accumulate (accumulate [lit 0] base (weight 0)) derived (weight 1)) ∧
  infinite_state_derived_levels u 1 = Some (accumulate [lit 0] derived (weight 1)).
Proof. vm_compute. done. Qed.

(** One step of the same universe. *)
Lemma one_component_step x cur :
  let out := step draws (construct draws 1 "nonlinear" "isolated" (Some [x]) cur).1 1 2 cur in
  returned out = true ∧
  history (final_state out).1 = [[x]; nonlinear [x] [x] 0] ∧
  levels (final_state out).1 !! 1 ≫= (.!! 0) = Some (nonlinear [x] [x] 0).
Proof. vm_compute. done. Qed.

(** Two oscillator components after [run(2, 1)]. *)
Lemma two_component_run x y cur :
  let out := run draws (construct draws 2 "oscillators" "isolated" (Some [x; y]) cur).1 2 1 cur in
  returned out = true ∧
  history (final_state out).1 = [[x; y]; (evolveOscillators draws [x; y] "isolated" cur).1].
Proof. vm_compute. done. Qed.

Lemma evolve_nonlinear (u : universe T) prev memory level cur :
  modelType u = "nonlinear"%string →
  evolve draws u (Some prev) (Some memory) level cur
  = Some (nonlinear prev memory level, cur).
Proof. unfold evolve. by intros ->. Qed.

(** The first two states of a run of at least two steps. *)
Lemma run_first_states dim0 modelType0 systemType0 seed cur steps maxLevel :
  2 ≤ steps →
  let u0 := (construct draws dim0 modelType0 systemType0 (Some seed) cur).1 in
  let out := run draws u0 steps maxLevel cur in
  returned out = true ∧
  history (final_state out).1 !! 0 = Some seed ∧
  history (final_state out).1 !! 1
    = fst <$> evolve draws u0 (Some seed) (Some seed) 0 cur.
Proof.
  intros Hsteps. cbv zeta.
  set (u0 := (construct draws dim0 modelType0 systemType0 (Some seed) cur).1).
  assert (Hh0 : history u0 = [seed]) by done.
  clearbody u0. unfold run. replace (steps - 1) with (S (steps - 2)) by lia. cbn [run_from].
  assert (Hret : returned (step draws u0 1 maxLevel cur) = true).
  { apply step_returns; [rewrite Hh0; cbn; lia|lia]. }
  destruct (step draws u0 1 maxLevel cur) as [[u1 c1]|] eqn:Estep; [|done].
  apply step_returned in Estep; [|lia].
  destruct Estep as (base_now & c & row & Hev & Hh & _ & _ & _ & _ & Hrow & H0 & Hdom).
  unfold base_memory in Hev. rewrite Hh0 in Hev, Hh. cbn in Hev, Hh.
  destruct (run_from_spec draws maxLevel (steps - 2) 2 u1 c1)
    as (u & c' & Hrun & _ & _ & _ & _ & Hhist & _).
  { lia. }
  { split; [by rewrite Hh|]. intros _. by exists row. }
  rewrite Hrun. cbn [final_state fst returned].
  rewrite !Hhist by lia. rewrite Hh, Hev. done.
Qed.
End Scenarios.

(** ** The retrocausal operator *)

Section RetroFacts.
Context {T : Type} `{JSNumber T}.

Lemma retro_influence_lookup (u : universe T) t_future t_past strength
    future_state past_state :
  history u !! t_future = Some future_state →
  history u !! t_past = Some past_state →
  retro_influence u t_future t_past strength
  = Returned (set_history u
      (<[t_past := addVec past_state (retro_delta future_state past_state strength)]>
         (history u))).
Proof.
  intros Hf Hp. unfold retro_influence, get_state. cbn [Nat.eqb].
  pose proof (lookup_lt_Some _ _ _ Hf). pose proof (lookup_lt_Some _ _ _ Hp).
  destruct (length (history u) <=? t_future) eqn:E1; [apply Nat.leb_le in E1; lia|].
  destruct (length (history u) <=? t_past) eqn:E2; [apply Nat.leb_le in E2; lia|].
  by rewrite Hf, Hp.
Qed.

Lemma lookup_retro_delta (f p : vec T) s i :
  retro_delta f p s !! i = (λ x, (x - at_index p i) * s)%js <$> f !! i.
Proof.
  unfold retro_delta, scaleVec, subVec.
  rewrite list_lookup_fmap, list_lookup_imap. by destruct (f !! i).
Qed.

Lemma lookup_addVec (a b : vec T) i :
  addVec a b !! i = (λ x, x + at_index b i)%js <$> a !! i.
Proof. unfold addVec. apply list_lookup_imap. Qed.
End RetroFacts.

(** * The claims of the specification *)

Section Claims.
Context {T : Type} `{JSNumber T}.
Variable draws : nat -> T.

(** C1, as amended.  After [run(steps, maxLevel)] on a new universe,
    at every time [1 <= t < steps] the row [levels[t]] holds the level-0
    state (the vector the step appended as [history[t]]) next to the
    derived levels, and [infinite_state(t)] adds it with weight
    [1/(0+1)]: the aggregate is the sum over the derived levels started
    from that level-0 term instead of from zero. *)
Theorem infinite_state_counts_level_0 dim0 modelType0 systemType0 seed cur
    steps maxLevel t :
  (0 ≤ dim0 < 2 ^ 32)%Z →
  1 ≤ t < steps →
  let out := run draws (construct draws dim0 modelType0 systemType0 seed cur).1
               steps maxLevel (construct draws dim0 modelType0 systemType0 seed cur).2 in
  let u := (final_state out).1 in
  let sum_from := foldl (λ acc l, accumulate acc (default [] (default ∅ (levels u !! t) !! l))
                                    (weight l)) in
  returned out = true ∧
  ∃ base zero,
    history u !! t = Some base ∧
    levels u !! t ≫= (.!! 0) = Some base ∧
    zeros (dim u) = Some zero ∧
    infinite_state u t
      = Some (sum_from (accumulate zero base (weight 0)) (seq 1 (Nat.max 1 maxLevel - 1))) ∧
    infinite_state_derived_levels u t
      = Some (sum_from zero (seq 1 (Nat.max 1 maxLevel - 1))).
Proof.
  intros Hdim Ht. cbv zeta.
  destruct (run_from_spec draws maxLevel (steps - 1) 1
              (construct draws dim0 modelType0 systemType0 seed cur).1
              (construct draws dim0 modelType0 systemType0 seed cur).2)
    as (u & c & Hrun & _ & Hd & _ & _ & _ & _ & Hrows);
    [lia|apply construct_in_order|].
  unfold run. rewrite Hrun. cbn [final_state fst returned].
  split; [done|].
  destruct (Hrows t) as (base & row & Hbase & Hrow & H0 & Hdom); [lia|].
  assert (Hz : zeros (dim u) = Some (replicate (Z.to_nat (dim u)) (lit 0))).
  { rewrite Hd.
    destruct (construct_fields draws dim0 modelType0 systemType0 seed cur) as (-> & _).
    unfold zeros, DEFAULT_DIM. repeat case_decide; try done; lia. }
  exists base, (replicate (Z.to_nat (dim u)) (lit 0)).
  rewrite (infinite_state_row u t row (Nat.max 1 maxLevel) Hrow Hdom).
  rewrite (infinite_state_derived_levels_row u t row (Nat.max 1 maxLevel) Hrow Hdom).
  rewrite Hz, Hrow. cbn [mbind option_bind].
  change (default ∅ (Some row)) with row.
  repeat split; try done.
  replace (Nat.max 1 maxLevel) with (S (Nat.max 1 maxLevel - 1)) at 1 by lia.
  rewrite <- cons_seq. simpl foldl. by rewrite H0.
Qed.

(** C2, as amended.  When [step(t, maxLevel)] with [t >= 1] returns, the
    row [levels[t]] exists and its entry at level 0 is the vector the
    step has just appended to [history]. *)
Theorem step_records_level_0 (u : universe T) t maxLevel cur u' cur' :
  1 ≤ t →
  step draws u t maxLevel cur = Returned (u', cur') →
  ∃ base_now,
    history u' = history u ++ [base_now] ∧
    levels u' !! t ≫= (.!! 0) = Some base_now.
Proof.
  intros Ht Hstep. apply step_returned in Hstep; [|lia].
  destruct Hstep as (base_now & c & row & _ & Hh & _ & _ & _ & _ & Hrow & H0 & _).
  exists base_now. split; [done|]. by rewrite Hrow.
Qed.

(** C3.  On indices inside [history], [retro_influence] returns after
    replacing [history[t_past]] by
    [history[t_past] + (get_state(t_future) - history[t_past]) * strength],
    component by component: the new state is as long as the past one,
    its component [i] is [past[i] + (future[i] - past[i]) * strength]
    where the future state has a component [i], and [past[i] + undefined]
    beyond the end of the future state.  Every other entry of [history],
    the whole [levels] table and the other fields stay as they were. *)
Theorem retro_influence_in_range (u : universe T) t_future t_past strength :
  t_future < length (history u) →
  t_past < length (history u) →
  ∃ future_state past_state new_state u',
    get_state u t_future 0 = Value future_state ∧
    history u !! t_past = Some past_state ∧
    retro_influence u t_future t_past strength = Returned u' ∧
    history u' !! t_past = Some new_state ∧
    new_state = addVec past_state (scaleVec (subVec future_state past_state) strength) ∧
    length new_state = length past_state ∧
    (∀ i a b, future_state !! i = Some a → past_state !! i = Some b →
       new_state !! i = Some (b + (a - b) * strength)%js) ∧
    (∀ i b, future_state !! i = None → past_state !! i = Some b →
       new_state !! i = Some (b + nan)%js) ∧
    (∀ k, k ≠ t_past → history u' !! k = history u !! k) ∧
    length (history u') = length (history u) ∧
    levels u' = levels u ∧
    dim u' = dim u ∧ modelType u' = modelType u ∧ systemType u' = systemType u.
Proof.
  intros Hf Hp.
  destruct (lookup_lt_is_Some_2 _ _ Hf) as [future_state Hfs].
  destruct (lookup_lt_is_Some_2 _ _ Hp) as [past_state Hps].
  exists future_state, past_state,
    (addVec past_state (retro_delta future_state past_state strength)).
  unfold retro_influence, get_state. cbn [Nat.eqb].
  rewrite Hfs, Hps. cbn [from_option].
  destruct (length (history u) <=? t_future) eqn:E1; [apply Nat.leb_le in E1; lia|].
  destruct (length (history u) <=? t_past) eqn:E2; [apply Nat.leb_le in E2; lia|].
  cbn [orb]. eexists. split; [done|]. split; [done|]. split; [done|].
  cbn [history levels dim modelType systemType set_history].
  split; [by apply list_lookup_insert_eq|]. split; [done|].
  split; [apply length_addVec|].
  split.
  { intros i a b Ha Hb. rewrite lookup_addVec, Hb. unfold at_index at 1.
    rewrite lookup_retro_delta, Ha. unfold at_index. by rewrite Hb. }
  split.
  { intros i b Ha Hb. rewrite lookup_addVec, Hb. unfold at_index at 1.
    by rewrite lookup_retro_delta, Ha. }
  split; [intros k Hk; by apply list_lookup_insert_ne|].
  split; [apply length_insert|done].
Qed.

(** C4.  When [t_future] or [t_past] is not an index of [history],
    [retro_influence] returns and the universe is the one it was given:
    [history], [levels] and the other fields are unchanged. *)
Theorem retro_influence_out_of_range (u : universe T) t_future t_past strength :
  length (history u) ≤ t_future ∨ length (history u) ≤ t_past →
  retro_influence u t_future t_past strength = Returned u.
Proof.
  intros Hout. unfold retro_influence.
  destruct (length (history u) <=? t_future) eqn:E1; [done|].
  destruct (length (history u) <=? t_past) eqn:E2; [done|].
  apply Nat.leb_gt in E1, E2. lia.
Qed.

(** C8, as amended.  Construction with [dim < 1] does not fail.  The
    call returns a universe whose [dim] is 10 when 0 was given and the
    given number otherwise, whose [history] holds the seed alone (the
    given one, or 10 draws for 0 and no draw for a negative [dim]), and
    on which [run] returns. *)
Theorem construction_accepts_dim_below_1 dim0 modelType0 systemType0 seed cur
    steps maxLevel :
  (dim0 < 1)%Z →
  ∃ u cur',
    new_LivingUniverse draws dim0 modelType0 systemType0 seed cur = Returned (u, cur') ∧
    dim u = (if decide (dim0 = 0%Z) then 10%Z else dim0) ∧
    history u
      = [default ((λ k, draws (cur + k)) <$> seq 0 (if decide (dim0 = 0%Z) then 10 else 0))
                 seed] ∧
    levels u = ∅ ∧
    returned (run draws u steps maxLevel cur') = true.
Proof.
  intros Hdim. unfold new_LivingUniverse.
  destruct (construct draws dim0 modelType0 systemType0 seed cur) as [u cur'] eqn:E.
  exists u, cur'. split; [done|].
  pose proof (construct_fields draws dim0 modelType0 systemType0 seed cur) as (Hd & Hh & Hl).
  pose proof (construct_in_order draws dim0 modelType0 systemType0 seed cur maxLevel) as Hord.
  rewrite E in Hd, Hh, Hl, Hord. cbn [fst] in *.
  repeat split; try done.
  - rewrite Hh, Hd. destruct seed as [s|]; [done|]. cbn [default from_option].
    unfold randVec. cbn [fst]. case_decide.
    + done.
    + replace (Z.to_nat dim0) with 0 by lia. done.
  - destruct (run_from_spec draws maxLevel (steps - 1) 1 u cur') as (u' & c & Hrun & _);
      [lia|done|].
    unfold run. by rewrite Hrun.
Qed.

(** C10.  Take a universe constructed with a seed that has [dim]
    components, [dim] being the dimension the universe keeps (the given
    one, or 10 when 0 was given), or with no seed and [dim >= 0], so that
    [dim] random components are generated.  Every universe that calls of
    [step], [run] and [retro_influence] produce from it, with any
    arguments and whether they return or throw, keeps that [dim] and
    stores only vectors of exactly [dim] components in [history] and in
    [levels]. *)
Theorem stored_vectors_have_length_dim dim0 modelType0 systemType0 seed cur
    (u : universe T) :
  let u0 := (construct draws dim0 modelType0 systemType0 seed cur).1 in
  match seed with
  | Some s => Z.of_nat (length s) = dim u0
  | None => (0 ≤ dim0)%Z
  end →
  reachable draws u0 u →
  dim u = dim u0 ∧ (dim0 ≠ 0%Z → dim u = dim0) ∧
  (0 ≤ dim u)%Z ∧ all_length (Z.to_nat (dim u)) u.
Proof.
  cbv zeta. intros Hseed Hreach.
  pose proof (construct_fields draws dim0 modelType0 systemType0 seed cur) as (Hd & Hh & Hl).
  cbv zeta in Hd, Hh, Hl.
  set (u0 := (construct draws dim0 modelType0 systemType0 seed cur).1) in *.
  assert (Hpos : (0 ≤ dim u0)%Z).
  { destruct seed as [s|]; [lia|]. rewrite Hd. unfold DEFAULT_DIM. case_decide; lia. }
  assert (Hinv : dim u = dim u0 ∧ all_length (Z.to_nat (dim u0)) u).
  { induction Hreach as [|u t maxLevel c _ [IHd IHl]|u steps maxLevel c _ [IHd IHl]
                         |u tf tp s _ [IHd IHl]].
    - split; [done|]. split.
      + rewrite Hh. apply Forall_singleton.
        destruct seed as [s|]; [cbn; lia|].
        apply length_randVec.
      + intros t row level v. by rewrite Hl, lookup_empty.
    - destruct (step_all_length draws _ u t maxLevel c IHl) as [? Hdu]. by rewrite Hdu.
    - destruct (run_from_all_length draws _ maxLevel (steps - 1) 1 u c IHl) as [? Hdu].
      unfold run. by rewrite Hdu.
    - destruct (retro_influence_all_length _ u tf tp s IHl) as [? Hdu]. by rewrite Hdu. }
  destruct Hinv as [Hdu Hall]. rewrite Hdu.
  repeat split; try done; try apply Hall.
  intros Hne. rewrite Hd. by rewrite decide_False.
Qed.
End Claims.

Section Determinism.
Context {T : Type} `{JSNumber T}.
Variables draws1 draws2 : nat → T.

Lemma quiet_paths modelType0 systemType0 :
  (modelType0 ≠ "oscillators" ∧ modelType0 ≠ "ising") ∨ systemType0 ≠ "open" →
  noisy modelType0 systemType0 = false.
Proof.
  unfold noisy, is_open. intros [[Ho Hi]|Hs].
  - apply String.eqb_neq in Ho, Hi. by rewrite Ho, Hi.
  - apply String.eqb_neq in Hs. rewrite Hs. apply andb_false_r.
Qed.

(** C7.  Two universes constructed with the same [dim], [modelType],
    [systemType] and explicit seed, and run with the same [steps] and
    [maxLevel], end as the same universe (same [history], same [levels])
    whatever the random generator holds, on every path that draws no
    noise: a model other than oscillators and ising, or a system type
    other than open. *)
Theorem run_deterministic_without_noise dim0 modelType0 systemType0 seed
    steps maxLevel cur1 cur2 :
  (modelType0 ≠ "oscillators" ∧ modelType0 ≠ "ising") ∨ systemType0 ≠ "open" →
  ∃ u cur1' cur2',
    run draws1 (construct draws1 dim0 modelType0 systemType0 (Some seed) cur1).1
        steps maxLevel (construct draws1 dim0 modelType0 systemType0 (Some seed) cur1).2
      = Returned (u, cur1') ∧
    run draws2 (construct draws2 dim0 modelType0 systemType0 (Some seed) cur2).1
        steps maxLevel (construct draws2 dim0 modelType0 systemType0 (Some seed) cur2).2
      = Returned (u, cur2').
Proof.
  intros Hq. apply quiet_paths in Hq.
  rewrite <- (construct_noisy draws1 dim0 modelType0 systemType0 (Some seed) cur1) in Hq.
  cbv zeta in Hq.
  change (construct draws2 dim0 modelType0 systemType0 (Some seed) cur2).1
    with (construct draws1 dim0 modelType0 systemType0 (Some seed) cur1).1.
  set (u0 := (construct draws1 dim0 modelType0 systemType0 (Some seed) cur1).1) in *.
  set (c1 := (construct draws1 dim0 modelType0 systemType0 (Some seed) cur1).2).
  set (c2 := (construct draws2 dim0 modelType0 systemType0 (Some seed) cur2).2).
  assert (Hord : in_order u0 1 maxLevel) by apply construct_in_order.
  destruct (run_from_spec draws1 maxLevel (steps - 1) 1 u0 c1) as (u1 & c1' & Hrun1 & _);
    [lia|done|].
  destruct (run_from_spec draws2 maxLevel (steps - 1) 1 u0 c2) as (u2 & c2' & Hrun2 & _);
    [lia|done|].
  pose proof (run_from_quiet draws1 draws2 maxLevel (steps - 1) 1 u0 c1 c2 Hq) as Hsame.
  rewrite Hrun1, Hrun2 in Hsame. cbn in Hsame. subst u2.
  exists u1, c1', c2'. unfold run. by rewrite Hrun1, Hrun2.
Qed.
End Determinism.

(** * The claims that depend on arithmetic *)

Section RealArithmetic.

Lemma alpha_level_0 : (lit 1 / (lit 1 + lit_nat 0))%js = Num 1.
Proof. js_eval. f_equal. lra. Qed.

Lemma nonlinear_zero : nonlinear [Num 0] [Num 0] 0 = [Num 1].
Proof. js_eval. rewrite sin_0, cos_0. repeat f_equal; lra. Qed.

Lemma oscillators_rest (draws : nat → jsnum) cur :
  (evolveOscillators draws [Num 0; Num 0] "isolated" cur).1 = [Num 0; Num 0].
Proof. js_eval. repeat f_equal; lra. Qed.

Lemma blend_zero_state :
  blendVec (sinVec [Num 0; Num 0; Num 0; Num 0]) (cosVec [Num 0; Num 0; Num 0; Num 0]) (Num 1)
  = [Num 1; Num 1; Num 1; Num 1].
Proof. js_eval. rewrite sin_0, cos_0. repeat f_equal; lra. Qed.

(** C9.  The concrete scenario: [dim = 4], the nonlinear model, seed
    [0,0,0,0], [run(3, 2)].  The run returns, [history[0]] is the seed
    and [history[1]] is [blend(sin(seed), cos(seed), 1)], the blend
    weight of level 0 being [1/(1+0) = 1]; that vector is [1,1,1,1]. *)
Theorem nonlinear_zero_seed_scenario (draws : nat → jsnum) systemType0 cur :
  let seed := [Num 0; Num 0; Num 0; Num 0] in
  let out := run draws (construct draws 4 "nonlinear" systemType0 (Some seed) cur).1 3 2 cur in
  returned out = true ∧
  history (final_state out).1 !! 0 = Some seed ∧
  history (final_state out).1 !! 1 = Some (blendVec (sinVec seed) (cosVec seed) (Num 1)) ∧
  (lit 1 / (lit 1 + lit_nat 0))%js = Num 1 ∧
  blendVec (sinVec seed) (cosVec seed) (Num 1) = [Num 1; Num 1; Num 1; Num 1].
Proof.
  cbv zeta.
  destruct (run_first_states draws 4 "nonlinear" systemType0
              [Num 0; Num 0; Num 0; Num 0] cur 3 2) as (Hret & Hh0 & Hh1); [lia|].
  repeat split; try done.
  - rewrite Hh1, evolve_nonlinear by done.
    unfold nonlinear. by rewrite alpha_level_0.
  - apply alpha_level_0.
  - apply blend_zero_state.
Qed.

Lemma noise_range (draws : nat → jsnum) cur :
  unit_draw (draws cur) →
  ∃ e, noise draws (2 # 100) cur = Num e ∧ (-0.02 <= e < 0.02)%R.
Proof.
  unfold noise, unit_draw. destruct (draws cur) as [r|]; [|done].
  intros Hr. eexists. split; [js_eval; reflexivity|]. lra.
Qed.

(** C6, as amended.  In the open oscillators model the velocity stored
    for pair [i] is the damped velocity plus the noise term
    [(2 * random - 1) * 0.02], which lies in [-0.02, 0.02) for a draw in
    [0, 1); the position stored is [prev[2i] + 0.05 * damped], computed
    from the damped velocity before the noise is added. *)
Theorem oscillators_open_position (draws : nat → jsnum) (prev : vec jsnum) cur i :
  i < length prev / 2 →
  unit_draw (draws (cur + i)) →
  let next := (evolveOscillators draws prev "open" cur).1 in
  let damped := osc_damped prev "open" (length prev / 2) i in
  let noise_i := noise draws (2 # 100) (cur + i) in
  next !! (2 * i + 1) = Some (damped + noise_i)%js ∧
  next !! (2 * i) = Some (at_index prev (2 * i) + lit (5 # 100) * damped)%js ∧
  ∃ e, noise_i = Num e ∧ (-0.02 <= e < 0.02)%R.
Proof.
  intros Hi Hdraw. cbv zeta.
  destruct (evolveOscillators_spec draws prev "open" cur) as (_ & _ & _ & Hpairs).
  destruct (Hpairs i Hi) as [Hx Hv].
  split; [exact Hv|]. split; [exact Hx|]. by apply noise_range.
Qed.
End RealArithmetic.

(** * The retrocausal operator applied twice *)

Section RetroTwice.
Context {T : Type} `{JSNumber T}.

Lemma real_entry (v : vec jsnum) i x :
  Forall is_real v → v !! i = Some x → ∃ a, x = Num a.
Proof.
  intros Hv Hi. pose proof (Forall_lookup_1 _ _ _ _ Hv Hi) as Hx.
  destruct x; [by eexists|done].
Qed.

(** C5, as amended.  On indices inside [history], two calls of
    [retro_influence] with the same arguments both return, and the
    second computes its delta from the state the first one wrote.  In a
    component where the future state holds [a] and the past state [b],
    the first delta is [d1 = (a - b) * strength] and leaves [b + d1];
    the second delta is [d2 = (a - (b + d1)) * strength] (with [b + d1]
    in the place of [a] when [t_future = t_past]) and leaves
    [(b + d1) + d2].  Whether [d2] differs from [d1] depends on these
    numbers, not on [strength] alone. *)
Theorem retro_influence_twice (u : universe T) t_future t_past strength f p :
  history u !! t_future = Some f →
  history u !! t_past = Some p →
  ∃ u1 f1 p1 u2 p2,
    retro_influence u t_future t_past strength = Returned u1 ∧
    history u1 !! t_future = Some f1 ∧
    history u1 !! t_past = Some p1 ∧
    f1 = (if decide (t_future = t_past) then p1 else f) ∧
    retro_influence u1 t_future t_past strength = Returned u2 ∧
    history u2 !! t_past = Some p2 ∧
    ∀ i a b, f !! i = Some a → p !! i = Some b →
      let d1 := ((a - b) * strength)%js in
      let a1 := if decide (t_future = t_past) then (b + d1)%js else a in
      let d2 := ((a1 - (b + d1)) * strength)%js in
      retro_delta f p strength !! i = Some d1 ∧
      p1 !! i = Some (b + d1)%js ∧
      retro_delta f1 p1 strength !! i = Some d2 ∧
      p2 !! i = Some ((b + d1) + d2)%js.
Proof.
  intros Hf Hp.
  pose proof (lookup_lt_Some _ _ _ Hf) as Htf.
  pose proof (lookup_lt_Some _ _ _ Hp) as Htp.
  set (p1 := addVec p (retro_delta f p strength)).
  set (u1 := set_history u (<[t_past := p1]> (history u))).
  set (f1 := if decide (t_future = t_past) then p1 else f).
  assert (Hp1 : history u1 !! t_past = Some p1).
  { cbn. by apply list_lookup_insert_eq. }
  assert (Hf1 : history u1 !! t_future = Some f1).
  { cbn. unfold f1. case_decide as Heq.
    - subst. by apply list_lookup_insert_eq.
    - by rewrite list_lookup_insert_ne. }
  set (p2 := addVec p1 (retro_delta f1 p1 strength)).
  exists u1, f1, p1, (set_history u1 (<[t_past := p2]> (history u1))), p2.
  split; [by apply retro_influence_lookup|].
  do 3 (split; [done|]).
  split; [by apply retro_influence_lookup|].
  split; [cbn; apply list_lookup_insert_eq; by rewrite length_insert|].
  intros i a b Ha Hb. cbv zeta.
  assert (Hd1 : retro_delta f p strength !! i = Some ((a - b) * strength)%js).
  { rewrite lookup_retro_delta, Ha. unfold at_index. by rewrite Hb. }
  assert (Hp1i : p1 !! i = Some (b + (a - b) * strength)%js).
  { unfold p1. rewrite lookup_addVec, Hb. unfold at_index. by rewrite Hd1. }
  assert (Hf1i : f1 !! i = Some (if decide (t_future = t_past)
                                 then (b + (a - b) * strength)%js else a)).
  { unfold f1. by case_decide. }
  assert (Hd2 : retro_delta f1 p1 strength !! i
                = Some (((if decide (t_future = t_past)
                          then (b + (a - b) * strength)%js else a)
                         - (b + (a - b) * strength)) * strength)%js).
  { rewrite lookup_retro_delta, Hf1i. unfold at_index. by rewrite Hp1i. }
  do 3 (split; [done|]).
  unfold p2. rewrite lookup_addVec, Hp1i. unfold at_index. by rewrite Hd2.
Qed.
End RetroTwice.

(** * Counterexamples to the claims as worded *)

Section Counterexamples.

(** C1 as worded fails.  One nonlinear component, seed [0],
    [run(2, 2)]: [history[1]] is [1] and [infinite_state(1)] exceeds the
    sum over the derived levels by exactly that [1]. *)
Lemma infinite_state_level_0_counterexample :
  let draws := λ _ : nat, Num 0 in
  let out := run draws (construct draws 1 "nonlinear" "isolated" (Some [Num 0]) 0).1 2 2 0 in
  let u := (final_state out).1 in
  returned out = true ∧
  history u !! 1 = Some [Num 1] ∧
  infinite_state u 1 ≠ infinite_state_derived_levels u 1 ∧
  ∃ x y, infinite_state u 1 = Some [Num x] ∧
         infinite_state_derived_levels u 1 = Some [Num y] ∧ x = (y + 1)%R.
Proof.
  cbv zeta.
  destruct (one_component_run (λ _ : nat, Num 0) (Num 0) 0) as (Hret & Hh & _ & Hi & Hd).
  rewrite Hi, Hd, Hh, nonlinear_zero.
  assert (Hvals : ∃ x y,
    accumulate (accumulate [lit 0] [Num 1] (weight 0)) (nonlinear [Num 1] [Num 1] 1) (weight 1)
      = [Num x] ∧
    accumulate [lit 0] (nonlinear [Num 1] [Num 1] 1) (weight 1) = [Num y] ∧
    x = (y + 1)%R).
  { eexists _, _. split; [js_eval; reflexivity|]. split; [js_eval; reflexivity|]. lra. }
  destruct Hvals as (x & y & -> & -> & Hxy).
  split; [done|]. split; [done|]. split.
  - intros [= Heq]. lra.
  - by exists x, y.
Qed.

(** C2 as worded fails.  After [step(1, 2)] on a one-component nonlinear
    universe with seed [0], [levels[1][0]] holds [1], the state that was
    appended to [history]. *)
Lemma step_level_0_counterexample :
  let draws := λ _ : nat, Num 0 in
  let out := step draws (construct draws 1 "nonlinear" "isolated" (Some [Num 0]) 0).1 1 2 0 in
  returned out = true ∧
  history (final_state out).1 = [[Num 0]; [Num 1]] ∧
  levels (final_state out).1 !! 1 ≫= (.!! 0) = Some [Num 1] ∧
  levels (final_state out).1 !! 1 ≫= (.!! 0) ≠ None.
Proof.
  cbv zeta.
  destruct (one_component_step (λ _ : nat, Num 0) (Num 0) 0) as (Hret & Hh & Hl).
  rewrite Hh, Hl, nonlinear_zero. done.
Qed.

(** C5 as worded fails.  Two oscillator components at rest: the states
    at times 0 and 1 are both [0,0], so with [strength = 1] the first
    and the second call of [retro_influence(u, 1, 0, 1)] both compute
    the delta [0,0]. *)
Lemma retro_influence_twice_counterexample :
  let draws := λ _ : nat, Num 0 in
  let out := run draws (construct draws 2 "oscillators" "isolated"
                          (Some [Num 0; Num 0]) 0).1 2 1 0 in
  let u := (final_state out).1 in
  let u1 := final_state (retro_influence u 1 0 (Num 1)) in
  returned out = true ∧ length (history u) = 2 ∧ Num 1 ≠ Num 0 ∧
  ∃ f p f1 p1,
    history u !! 1 = Some f ∧ history u !! 0 = Some p ∧
    history u1 !! 1 = Some f1 ∧ history u1 !! 0 = Some p1 ∧
    retro_delta f p (Num 1) = [Num 0; Num 0] ∧
    retro_delta f1 p1 (Num 1) = retro_delta f p (Num 1).
Proof.
  cbv zeta.
  destruct (two_component_run (λ _ : nat, Num 0) (Num 0) (Num 0) 0) as (Hret & Hh).
  rewrite oscillators_rest in Hh.
  destruct (final_state _).1 as [d m s h l]. cbn [history] in Hh. subst h.
  split; [done|]. split; [done|]. split; [intros [= Heq]; lra|].
  exists [Num 0; Num 0], [Num 0; Num 0].
  eexists _, _. split; [done|]. split; [done|].
  split; [reflexivity|]. split; [reflexivity|].
  split; js_eval; repeat f_equal; lra.
Qed.

(** C6 as worded fails.  One pair at rest in the open model with the
    draw 0: the stored velocity is the noise [-0.02], the stored
    position is 0 and not [0 + 0.05 * (-0.02)]. *)
Lemma oscillators_open_position_counterexample :
  let draws := λ _ : nat, Num 0 in
  let prev := [Num 0; Num 0] in
  let next := (evolveOscillators draws prev "open" 0).1 in
  unit_draw (draws 0) ∧
  next = [Num 0; Num (-0.02)] ∧
  next !! 0 ≠ Some (at_index prev 0 + lit (5 # 100) * at_index next 1)%js.
Proof.
  cbv zeta.
  assert (Hnext : (evolveOscillators (λ _ : nat, Num 0) [Num 0; Num 0] "open" 0).1
                  = [Num 0; Num (-0.02)]).
  { js_eval. repeat f_equal; lra. }
  rewrite Hnext. split; [cbn; lra|]. split; [done|].
  js_eval. intros [= Heq]. lra.
Qed.

(** C8 as worded fails.  [new LivingUniverse(0)] returns a universe of
    dimension 10 seeded with 10 draws, and [new LivingUniverse(-1)]
    returns a universe of dimension -1 seeded with the empty vector. *)
Lemma construction_counterexample :
  let draws := λ _ : nat, Num 0 in
  let zero := new_LivingUniverse draws 0 EmptyString EmptyString None 0 in
  let negative := new_LivingUniverse draws (-1) EmptyString EmptyString None 0 in
  returned zero = true ∧
  dim (final_state zero).1 = 10%Z ∧
  history (final_state zero).1 = [replicate 10 (Num 0)] ∧
  returned negative = true ∧
  dim (final_state negative).1 = (-1)%Z ∧
  history (final_state negative).1 = [[]].
Proof. vm_compute. done. Qed.
End Counterexamples.

(** * The theorems at concrete inputs *)

Section Witnesses.

Lemma infinite_state_counts_level_0_witness :
  let draws := λ _ : nat, Num 0 in
  let out := run draws (construct draws 1 "nonlinear" "isolated" (Some [Num 0]) 0).1 2 2 0 in
  let u := (final_state out).1 in
  ((0 ≤ 1 < 2 ^ 32)%Z ∧ 1 ≤ 1 < 2) ∧
  returned out = true ∧
  ∃ base zero,
    history u !! 1 = Some base ∧
    levels u !! 1 ≫= (.!! 0) = Some base ∧
    zeros (dim u) = Some zero ∧
    infinite_state u 1
      = Some (foldl (λ acc l, accumulate acc (default [] (default ∅ (levels u !! 1) !! l))
                                (weight l))
                (accumulate zero base (weight 0)) (seq 1 (Nat.max 1 2 - 1))) ∧
    infinite_state_derived_levels u 1
      = Some (foldl (λ acc l, accumulate acc (default [] (default ∅ (levels u !! 1) !! l))
                                (weight l))
                zero (seq 1 (Nat.max 1 2 - 1))).
Proof.
  split; [lia|].
  apply (infinite_state_counts_level_0 (λ _ : nat, Num 0) 1 "nonlinear" "isolated"
           (Some [Num 0]) 0 2 2 1); lia.
Defined.

Lemma step_records_level_0_witness :
  let draws := λ _ : nat, Num 0 in
  let u := (construct draws 1 "nonlinear" "isolated" (Some [Num 0]) 0).1 in
  let u' := (final_state (step draws u 1 2 0)).1 in
  (1 ≤ 1 ∧ step draws u 1 2 0 = Returned (u', 0)) ∧
  ∃ base_now,
    history u' = history u ++ [base_now] ∧
    levels u' !! 1 ≫= (.!! 0) = Some base_now.
Proof.
  cbv zeta.
  assert (Hstep : step (λ _ : nat, Num 0)
            (construct (λ _ : nat, Num 0) 1 "nonlinear" "isolated" (Some [Num 0]) 0).1 1 2 0
          = Returned ((final_state (step (λ _ : nat, Num 0)
              (construct (λ _ : nat, Num 0) 1 "nonlinear" "isolated" (Some [Num 0]) 0).1
              1 2 0)).1, 0)).
  { vm_compute. reflexivity. }
  split; [split; [lia|exact Hstep]|].
  apply (step_records_level_0 (λ _ : nat, Num 0) _ 1 2 0 _ 0); [lia|exact Hstep].
Defined.

Lemma retro_influence_in_range_witness :
  let u := Universe 1 "nonlinear" "isolated" [[Num 1]; [Num 3]] ∅ in
  (1 < length (history u) ∧ 0 < length (history u)) ∧
  ∃ future_state past_state new_state u',
    get_state u 1 0 = Value future_state ∧
    history u !! 0 = Some past_state ∧
    retro_influence u 1 0 (Num 0.5) = Returned u' ∧
    history u' !! 0 = Some new_state ∧
    new_state = addVec past_state (scaleVec (subVec future_state past_state) (Num 0.5)) ∧
    length new_state = length past_state ∧
    (∀ i a b, future_state !! i = Some a → past_state !! i = Some b →
       new_state !! i = Some (b + (a - b) * Num 0.5)%js) ∧
    (∀ i b, future_state !! i = None → past_state !! i = Some b →
       new_state !! i = Some (b + nan)%js) ∧
    (∀ k, k ≠ 0 → history u' !! k = history u !! k) ∧
    length (history u') = length (history u) ∧
    levels u' = levels u ∧
    dim u' = dim u ∧ modelType u' = modelType u ∧ systemType u' = systemType u.
Proof.
  cbv zeta. split; [cbn; lia|].
  apply (retro_influence_in_range
           (Universe 1 "nonlinear" "isolated" [[Num 1]; [Num 3]] ∅) 1 0 (Num 0.5));
    cbn; lia.
Defined.

Lemma retro_influence_out_of_range_witness :
  let u := Universe 1 "nonlinear" "isolated" [[Num 1]; [Num 3]] ∅ in
  (length (history u) ≤ 2 ∨ length (history u) ≤ 0) ∧
  retro_influence u 2 0 (Num 0.5) = Returned u.
Proof.
  cbv zeta. split; [left; cbn; lia|].
  apply (retro_influence_out_of_range
           (Universe 1 "nonlinear" "isolated" [[Num 1]; [Num 3]] ∅) 2 0 (Num 0.5)).
  left. cbn. lia.
Defined.

Lemma run_deterministic_without_noise_witness :
  let draws1 := λ _ : nat, Num 0 in
  let draws2 := λ _ : nat, Num 0.5 in
  (("oscillators" ≠ "oscillators" ∧ "oscillators" ≠ "ising") ∨ "closed" ≠ "open")%string ∧
  ∃ u cur1' cur2',
    run draws1 (construct draws1 2 "oscillators" "closed" (Some [Num 1; Num 0]) 0).1 3 2
        (construct draws1 2 "oscillators" "closed" (Some [Num 1; Num 0]) 0).2
      = Returned (u, cur1') ∧
    run draws2 (construct draws2 2 "oscillators" "closed" (Some [Num 1; Num 0]) 7).1 3 2
        (construct draws2 2 "oscillators" "closed" (Some [Num 1; Num 0]) 7).2
      = Returned (u, cur2').
Proof.
  cbv zeta. split; [right; discriminate|].
  apply (run_deterministic_without_noise (λ _ : nat, Num 0) (λ _ : nat, Num 0.5)
           2 "oscillators" "closed" [Num 1; Num 0] 3 2 0 7).
  right. discriminate.
Defined.

Lemma construction_accepts_dim_below_1_witness :
  let draws := λ _ : nat, Num 0 in
  (0 < 1)%Z ∧
  ∃ u cur',
    new_LivingUniverse draws 0 "nonlinear" "isolated" None 0 = Returned (u, cur') ∧
    dim u = (if decide (0 = 0)%Z then 10%Z else 0%Z) ∧
    history u
      = [default ((λ k, draws (0 + k)) <$> seq 0 (if decide (0 = 0)%Z then 10 else 0)) None] ∧
    levels u = ∅ ∧
    returned (run draws u 3 2 cur') = true.
Proof.
  cbv zeta. split; [lia|].
  apply (construction_accepts_dim_below_1 (λ _ : nat, Num 0) 0 "nonlinear" "isolated"
           None 0 3 2).
  lia.
Defined.

Lemma stored_vectors_have_length_dim_witness :
  let draws := λ _ : nat, Num 0 in
  let u0 := (construct draws 2 "ising" "open" None 0).1 in
  let u := final_state (retro_influence (final_state (run draws u0 3 2 2)).1 2 0 (Num 0.5)) in
  ((0 ≤ 2)%Z ∧ reachable draws u0 u) ∧
  dim u = dim u0 ∧ ((2 ≠ 0)%Z → dim u = 2%Z) ∧
  (0 ≤ dim u)%Z ∧ all_length (Z.to_nat (dim u)) u.
Proof.
  cbv zeta.
  assert (Hreach : reachable (λ _ : nat, Num 0)
            (construct (λ _ : nat, Num 0) 2 "ising" "open" None 0).1
            (final_state (retro_influence
               (final_state (run (λ _ : nat, Num 0)
                  (construct (λ _ : nat, Num 0) 2 "ising" "open" None 0).1 3 2 2)).1
               2 0 (Num 0.5)))).
  { apply reach_retro, reach_run, reach_new. }
  split; [split; [lia|exact Hreach]|].
  apply (stored_vectors_have_length_dim (λ _ : nat, Num 0) 2 "ising" "open" None 0);
    [cbn; lia|exact Hreach].
Defined.

Lemma retro_influence_twice_witness :
  let u := Universe 1 "nonlinear" "isolated" [[Num 1]; [Num 3]] ∅ in
  (history u !! 1 = Some [Num 3] ∧ history u !! 0 = Some [Num 1]) ∧
  ∃ u1 f1 p1 u2 p2,
    retro_influence u 1 0 (Num 0.5) = Returned u1 ∧
    history u1 !! 1 = Some f1 ∧
    history u1 !! 0 = Some p1 ∧
    f1 = (if decide (1 = 0) then p1 else [Num 3]) ∧
    retro_influence u1 1 0 (Num 0.5) = Returned u2 ∧
    history u2 !! 0 = Some p2 ∧
    ∀ i a b, [Num 3] !! i = Some a → [Num 1] !! i = Some b →
      let d1 := ((a - b) * Num 0.5)%js in
      let a1 := if decide (1 = 0) then (b + d1)%js else a in
      let d2 := ((a1 - (b + d1)) * Num 0.5)%js in
      retro_delta [Num 3] [Num 1] (Num 0.5) !! i = Some d1 ∧
      p1 !! i = Some (b + d1)%js ∧
      retro_delta f1 p1 (Num 0.5) !! i = Some d2 ∧
      p2 !! i = Some ((b + d1) + d2)%js.
Proof.
  cbv zeta. split; [split; reflexivity|].
  apply (retro_influence_twice
           (Universe 1 "nonlinear" "isolated" [[Num 1]; [Num 3]] ∅) 1 0 (Num 0.5)
           [Num 3] [Num 1]); reflexivity.
Defined.

Lemma oscillators_open_position_witness :
  let draws := λ _ : nat, Num 0.75 in
  let prev := [Num 1; Num 0] in
  let next := (evolveOscillators draws prev "open" 0).1 in
  let damped := osc_damped prev "open" (length prev / 2) 0 in
  let noise_0 := noise draws (2 # 100) (0 + 0) in
  (0 < length prev / 2 ∧ unit_draw (draws (0 + 0))) ∧
  next !! (2 * 0 + 1) = Some (damped + noise_0)%js ∧
  next !! (2 * 0) = Some (at_index prev (2 * 0) + lit (5 # 100) * damped)%js ∧
  ∃ e, noise_0 = Num e ∧ (-0.02 <= e < 0.02)%R.
Proof.
  cbv zeta. split; [split; [cbn; lia|cbn; lra]|].
  apply (oscillators_open_position (λ _ : nat, Num 0.75) [Num 1; Num 0] 0 0).
  - cbn. lia.
  - cbn. lra.
Defined.
End Witnesses.

(** * Further properties of the engine *)

Section StepEdges.
Context {T : Type} `{JSNumber T}.
Variable draws : nat -> T.

(** Whatever way the loop over the levels ends, it leaves [history], the
    fields and the rows of the other times alone. *)
Lemma level_loop_frame t count : ∀ level (u : universe T) cur,
  let u' := (final_state (level_loop draws t level count u cur)).1 in
  history u' = history u ∧ dim u' = dim u ∧
  modelType u' = modelType u ∧ systemType u' = systemType u ∧
  ∀ t', t' ≠ t → levels u' !! t' = levels u !! t'.
Proof.
  induction count as [|count IH]; intros level u cur; [done|].
  cbn [level_loop].
  destruct (levels u !! t) as [row|] eqn:Hrow; [|done].
  destruct (if 1 <? t then _ else _) as [mem_layer|]; [|done].
  destruct (evolve _ _ _ _ _ _) as [[state c]|]; [|done].
  rewrite (write_level_Some _ _ _ _ _ Hrow).
  destruct (IH (S level) (set_levels u (<[t := <[level := state]> row]> (levels u))) c)
    as (Hh & Hd & Hm & Hs & Hother).
  cbv zeta. rewrite Hh, Hd, Hm, Hs. repeat split; try done.
  intros t' Ht'. rewrite Hother by done. cbn. by rewrite lookup_insert_ne.
Qed.

(** X1.  [step] is append-only on [history]: however the call ends, the
    old [history] is a prefix of the new one and at most one state was
    appended (exactly one when the call returns and [t >= 1], none when
    [t = 0]); the fields and the rows of [levels] at times other than
    [t] are untouched. *)
Theorem step_append_only (u : universe T) t maxLevel cur :
  let out := step draws u t maxLevel cur in
  let u' := (final_state out).1 in
  (∃ tail, history u' = history u ++ tail ∧ length tail ≤ 1 ∧
     (returned out = true → length tail = if t =? 0 then 0 else 1)) ∧
  dim u' = dim u ∧ modelType u' = modelType u ∧ systemType u' = systemType u ∧
  ∀ t', t' ≠ t → levels u' !! t' = levels u !! t'.
Proof.
  cbv zeta. unfold step.
  destruct (t =? 0) eqn:E0.
  { cbn. repeat split; try done. exists []. rewrite app_nil_r.
    repeat split; cbn; try done; lia. }
  cbn [history set_levels]. rewrite evolve_set_levels.
  destruct (evolve _ _ _ _ _ _) as [[base_now c]|].
  - erewrite write_level_Some; [|cbn; by rewrite lookup_insert_eq].
    match goal with
    | |- context [level_loop draws t 1 ?k ?u1 c] =>
        destruct (level_loop_frame t k 1 u1 c) as (Hh & Hd & Hm & Hs & Hother)
    end.
    rewrite Hh, Hd, Hm, Hs. cbn. repeat split; try done.
    + exists [base_now]. split; [done|]. split; [cbn; lia|done].
    + intros t' Ht'. rewrite Hother by done. cbn. by rewrite !lookup_insert_ne.
  - cbn. repeat split; try done.
    + exists []. rewrite app_nil_r. repeat split; cbn; try done; lia.
    + intros t' Ht'. by rewrite lookup_insert_ne.
Qed.

(** X2.  [step(t)] for a [t] beyond the end of [history] throws: the
    state [history[t - 1]] is undefined.  [history] is left as it was,
    and the row [levels[t]] has already been replaced by an empty one. *)
Theorem step_beyond_history_throws (u : universe T) t maxLevel cur :
  length (history u) < t →
  step draws u t maxLevel cur = Threw (set_levels u (<[t := ∅]> (levels u)), cur).
Proof.
  intros Ht. unfold step.
  destruct (t =? 0) eqn:E0; [apply Nat.eqb_eq in E0; lia|].
  cbn [history set_levels].
  rewrite (lookup_ge_None_2 (history u) (t - 1)) by lia.
  by rewrite evolve_undefined.
Qed.
End StepEdges.

Section RunShape.
Context {T : Type} `{JSNumber T}.
Variable draws : nat -> T.

Lemma evolve_same_model (u u' : universe T) prev memory level cur :
  modelType u' = modelType u → systemType u' = systemType u →
  evolve draws u' prev memory level cur = evolve draws u prev memory level cur.
Proof. unfold evolve. by intros -> ->. Qed.

(** A run only writes the rows of the times it steps through. *)
Lemma run_from_frame maxLevel count : ∀ t (u : universe T) cur u' cur',
  run_from draws t count maxLevel u cur = Returned (u', cur') →
  ∀ k, k < t ∨ t + count ≤ k → levels u' !! k = levels u !! k.
Proof.
  induction count as [|count IH]; intros t u cur u' cur' Hrun k Hk.
  - by injection Hrun as <- <-.
  - cbn [run_from] in Hrun.
    destruct (step draws u t maxLevel cur) as [[u1 c1]|] eqn:Estep; [|done].
    rewrite (IH _ _ _ _ _ Hrun) by lia.
    destruct (decide (t = 0)) as [->|Ht].
    + by injection Estep as <- _.
    + apply step_returned in Estep; [|lia].
      destruct Estep as (? & ? & ? & _ & _ & _ & _ & _ & Hother & _).
      apply Hother. lia.
Qed.

(** The shape of a universe with one state after [run]. *)
Lemma run_shape (u0 : universe T) cur steps maxLevel :
  length (history u0) = 1 →
  let out := run draws u0 steps maxLevel cur in
  let u := (final_state out).1 in
  returned out = true ∧
  length (history u) = Nat.max 1 steps ∧
  history u !! 0 = history u0 !! 0 ∧
  dim u = dim u0 ∧ modelType u = modelType u0 ∧ systemType u = systemType u0 ∧
  (∀ t, ¬ 1 ≤ t < steps → levels u !! t = levels u0 !! t) ∧
  (∀ t, 1 ≤ t < steps →
     ∃ base row, history u !! t = Some base ∧ levels u !! t = Some row ∧
       row !! 0 = Some base ∧ ∀ l, is_Some (row !! l) ↔ l < Nat.max 1 maxLevel).
Proof.
  intros Hone. cbv zeta.
  destruct (run_from_spec draws maxLevel (steps - 1) 1 u0 cur)
    as (u & c & Hrun & [Hlen _] & Hd & Hm & Hs & Hhist & _ & Hrows);
    [lia|split; [done|lia]|].
  unfold run. rewrite Hrun. cbn [final_state fst returned].
  repeat split; try done.
  - lia.
  - apply Hhist. lia.
  - intros t Ht. apply (run_from_frame _ _ _ _ _ _ _ Hrun). lia.
  - intros t Ht. apply Hrows. lia.
Qed.

(** X3.  [run(steps, maxLevel)] on a universe as the constructor leaves
    it (one state in [history], no row in [levels]) returns; [history]
    then holds [max(1, steps)] states, the first of which is still the
    seed, and [levels] has a row exactly for the times [1 .. steps - 1],
    each holding exactly the levels [0 .. max(1, maxLevel) - 1]. *)
Theorem run_builds_rectangular_table (u0 : universe T) cur steps maxLevel :
  length (history u0) = 1 → levels u0 = ∅ →
  let out := run draws u0 steps maxLevel cur in
  let u := (final_state out).1 in
  returned out = true ∧
  length (history u) = Nat.max 1 steps ∧
  history u !! 0 = history u0 !! 0 ∧
  (∀ t, is_Some (levels u !! t) ↔ 1 ≤ t < steps) ∧
  (∀ t l, is_Some (levels u !! t ≫= (.!! l)) ↔ 1 ≤ t < steps ∧ l < Nat.max 1 maxLevel).
Proof.
  intros Hone Hempty. cbv zeta.
  destruct (run_shape u0 cur steps maxLevel Hone)
    as (Hret & Hlen & Hseed & _ & _ & _ & Hnone & Hrows).
  assert (Hnone' : ∀ t, ¬ 1 ≤ t < steps →
            levels (final_state (run draws u0 steps maxLevel cur)).1 !! t = None).
  { intros t Ht. by rewrite Hnone, Hempty, lookup_empty. }
  clear Hnone.
  do 3 (split; [done|]). split.
  - intros t. split.
    + intros Hsome. destruct (decide (1 ≤ t < steps)); [done|].
      rewrite Hnone' in Hsome by done. by destruct Hsome.
    + intros Ht. destruct (Hrows t Ht) as (? & row & _ & -> & _). by eexists.
  - intros t l. split.
    + intros Hsome. destruct (decide (1 ≤ t < steps)) as [Ht|Ht].
      * destruct (Hrows t Ht) as (? & row & _ & Hrow & _ & Hdom).
        rewrite Hrow in Hsome. split; [done|]. by apply Hdom.
      * rewrite Hnone' in Hsome by done. by destruct Hsome.
    + intros [Ht Hl]. destruct (Hrows t Ht) as (? & row & _ & Hrow & _ & Hdom).
      rewrite Hrow. by apply Hdom.
Qed.

(** X4.  What [get_state] answers after [run(steps, maxLevel)] on a
    universe as the constructor leaves it.  Level 0 is a state for
    every time below [max(1, steps)] and [undefined] beyond.  A level
    [>= 1] is a state for the times [1 .. steps - 1] and the levels
    below [maxLevel], [undefined] for these times and a higher level,
    and a TypeError for time 0 and for every time from [steps] on,
    where [levels] has no row. *)
Theorem get_state_after_run (u0 : universe T) cur steps maxLevel t level :
  length (history u0) = 1 → levels u0 = ∅ →
  let out := run draws u0 steps maxLevel cur in
  let u := (final_state out).1 in
  if level =? 0 then
    if t <? Nat.max 1 steps
    then ∃ v, history u !! t = Some v ∧ get_state u t level = Value v
    else get_state u t level = Undefined
  else
    if (1 <=? t) && (t <? steps) then
      if level <? Nat.max 1 maxLevel
      then ∃ v, get_state u t level = Value v
      else get_state u t level = Undefined
    else get_state u t level = TypeError.
Proof.
  intros Hone Hempty. cbv zeta.
  pose proof (run_shape u0 cur steps maxLevel Hone) as Hshape.
  cbv zeta in Hshape.
  set (u := (final_state _).1) in *.
  destruct Hshape as (_ & Hlen & _ & _ & _ & _ & Hnone & Hrows).
  unfold get_state.
  destruct (level =? 0) eqn:El.
  - destruct (t <? Nat.max 1 steps) eqn:Et.
    + apply Nat.ltb_lt in Et.
      destruct (lookup_lt_is_Some_2 (history u) t) as [v Hv]; [lia|].
      exists v. by rewrite Hv.
    + apply Nat.ltb_ge in Et. by rewrite lookup_ge_None_2 by lia.
  - destruct ((1 <=? t) && (t <? steps)) eqn:Et.
    + apply andb_true_iff in Et as [Et1 Et2].
      apply Nat.leb_le in Et1. apply Nat.ltb_lt in Et2.
      destruct (Hrows t) as (? & row & _ & -> & _ & Hdom); [lia|].
      destruct (level <? Nat.max 1 maxLevel) eqn:Elv.
      * apply Nat.ltb_lt in Elv. apply Hdom in Elv as [v ->]. by exists v.
      * apply Nat.ltb_ge in Elv.
        destruct (row !! level) eqn:Er; [|done].
        assert (is_Some (row !! level)) as Hs by (by eexists).
        apply Hdom in Hs. lia.
    + rewrite Hnone, Hempty, lookup_empty; [done|].
      apply andb_false_iff in Et as [Et|Et];
        [apply Nat.leb_gt in Et|apply Nat.ltb_ge in Et]; lia.
Qed.
End RunShape.

Section AggregateEdges.
Context {T : Type} `{JSNumber T}.
Variable draws : nat -> T.

Lemma length_accumulate (acc s : vec T) w : length (accumulate acc s w) = length acc.
Proof. apply length_imap. Qed.

Lemma length_foldl_accumulate (row : gmap nat (vec T)) keys : ∀ acc : vec T,
  length (foldl (λ acc i, accumulate acc (default [] (row !! i)) (weight i)) acc keys)
  = length acc.
Proof.
  induction keys as [|k keys IH]; intros acc; [done|].
  cbn [foldl]. by rewrite IH, length_accumulate.
Qed.

Lemma infinite_state_has_dim (u : universe T) t :
  (infinite_state u t = None ↔ ¬ (0 ≤ dim u < 2 ^ 32)%Z).
Proof.
  unfold infinite_state, zeros. case_decide as Hd; cbn; [|done].
  split; [done|by intros []].
Qed.

(** X5.  [infinite_state(t)] throws (the RangeError of [new Array])
    exactly when [dim] is negative or at least 2^32; otherwise it
    returns a vector of exactly [dim] components, whatever [levels]
    holds at [t]. *)
Theorem infinite_state_has_dim_components (u : universe T) t :
  (infinite_state u t = None ↔ ¬ (0 ≤ dim u < 2 ^ 32)%Z) ∧
  ∀ v, infinite_state u t = Some v → length v = Z.to_nat (dim u).
Proof.
  unfold infinite_state, zeros. case_decide as Hd; cbn.
  - split; [split; [done|by intros []]|].
    intros v [= <-]. by rewrite length_foldl_accumulate, length_replicate.
  - split; [done|]. by intros v.
Qed.

Lemma infinite_state_no_row (u : universe T) t :
  levels u !! t = None → infinite_state u t = zeros (dim u).
Proof.
  intros Hrow. unfold infinite_state. rewrite Hrow.
  by destruct (zeros (dim u)).
Qed.

(** X6.  After [run(steps, maxLevel)] on a universe as the constructor
    leaves it, [infinite_state] at time 0 and at every time from [steps]
    on is what [zeros(dim)] gives, the zero vector (or its RangeError):
    these times have no row in [levels], and the level-0 state in
    [history] is not consulted. *)
Theorem infinite_state_zero_without_row (u0 : universe T) cur steps maxLevel t :
  length (history u0) = 1 → levels u0 = ∅ →
  t = 0 ∨ steps ≤ t →
  let out := run draws u0 steps maxLevel cur in
  let u := (final_state out).1 in
  infinite_state u t = zeros (dim u).
Proof.
  intros Hone Hempty Ht. cbv zeta.
  destruct (run_shape draws u0 cur steps maxLevel Hone)
    as (_ & _ & _ & _ & _ & _ & Hnone & _).
  apply infinite_state_no_row. rewrite Hnone, Hempty by lia. apply lookup_empty.
Qed.
End AggregateEdges.

Section Recurrence.
Context {T : Type} `{JSNumber T}.
Variable draws : nat -> T.

(** Every level written by the loop came from the level below and its
    memory by one call of [evolve]. *)
Lemma level_loop_rule t count : ∀ level (u : universe T) cur u' cur' row,
  level_loop draws t level count u cur = Returned (u', cur') →
  levels u !! t = Some row →
  1 ≤ level →
  ∀ l, level ≤ l < level + count →
    ∃ v c c', levels u' !! t ≫= (.!! l) = Some v ∧
      evolve draws u' (levels u' !! t ≫= (.!! (l - 1))) (level_memory u' t l) l c
      = Some (v, c').
Proof.
  induction count as [|count IH]; intros level u cur u' cur' row Hrun Hrow Hlevel l Hl;
    [lia|].
  cbn [level_loop] in Hrun. rewrite Hrow in Hrun.
  destruct (if 1 <? t then _ else _) as [mem_layer|] eqn:Emem; [|done].
  destruct (evolve _ _ _ _ _ _) as [[state c]|] eqn:Eev; [|done].
  rewrite (write_level_Some _ _ _ _ _ Hrow) in Hrun.
  set (u1 := set_levels u (<[t := <[level := state]> row]> (levels u))) in *.
  assert (Hrow1 : levels u1 !! t = Some (<[level := state]> row)).
  { cbn. by rewrite lookup_insert_eq. }
  destruct (decide (l = level)) as [->|Hne];
    [|apply (IH (S level) u1 c u' cur' _ Hrun Hrow1); lia].
  destruct (level_loop_returned draws _ _ _ _ _ _ _ _ Hrun Hrow1)
    as (_ & _ & Hm & Hs & Hother & row' & Hrow' & Hkeep & _).
  exists state, cur, c.
  rewrite Hrow'. cbn [mbind option_bind].
  rewrite !Hkeep by lia.
  rewrite lookup_insert_eq, lookup_insert_ne by lia.
  split; [done|].
  rewrite (evolve_same_model draws u u') by done.
  rewrite <- Eev. f_equal.
  unfold level_memory. destruct (1 <? t) eqn:Et.
  - apply Nat.ltb_lt in Et. rewrite Hother by lia. cbn.
    rewrite lookup_insert_ne by lia.
    destruct (levels u !! (t - 1)) as [before|]; [|done].
    by injection Emem as <-.
  - injection Emem as <-. rewrite Hrow'. cbn.
    rewrite Hkeep by lia. by rewrite lookup_insert_ne by lia.
Qed.

(** A step taken in order computes time [t] by the rule. *)
Lemma step_rule (u : universe T) t maxLevel cur u' cur' :
  step draws u t maxLevel cur = Returned (u', cur') →
  0 < t → length (history u) = t →
  follows_rule draws u' t.
Proof.
  intros Hstep Ht Hlen.
  pose proof (step_returned draws _ _ _ _ _ _ Hstep Ht)
    as (base_now & c & row & Hev & Hh & _ & Hm & Hs & _ & Hrow & H0 & Hdom).
  assert (Hprefix : ∀ k, k < t → history u' !! k = history u !! k).
  { intros k Hk. rewrite Hh. apply lookup_app_l. lia. }
  split.
  - exists base_now, cur, c. split.
    + rewrite Hh, lookup_app_r by lia.
      by replace (t - length (history u)) with 0 by lia.
    + rewrite (evolve_same_model draws u u') by done.
      rewrite <- Hev. rewrite Hprefix by lia. f_equal.
      unfold base_memory. destruct (1 <? t) eqn:Et.
      * apply Nat.ltb_lt in Et. apply Hprefix. lia.
      * apply Hprefix. lia.
  - intros l v Hl Hv.
    assert (l < Nat.max 1 maxLevel) as Hlt.
    { apply Hdom. rewrite Hrow in Hv. by eexists. }
    unfold step in Hstep.
    destruct (t =? 0) eqn:E0; [apply Nat.eqb_eq in E0; lia|].
    cbn [history set_levels] in Hstep. rewrite evolve_set_levels in Hstep.
    destruct (evolve _ _ _ _ _ _) as [[b c1]|]; [|done].
    erewrite write_level_Some in Hstep; [|cbn; by rewrite lookup_insert_eq].
    eapply level_loop_rule with (l := l) in Hstep;
      [|cbn; by rewrite lookup_insert_eq|lia|lia].
    destruct Hstep as (v' & c2 & c3 & Hv' & Hrule).
    rewrite Hv in Hv'. injection Hv' as <-. by exists c2, c3.
Qed.

(** The rule of a time stays true when later steps leave that time,
    the time before it and the states up to it alone. *)
Lemma follows_rule_kept (u u' : universe T) t :
  modelType u' = modelType u → systemType u' = systemType u →
  (∀ k, k ≤ t → history u' !! k = history u !! k) →
  (∀ k, k ≤ t → levels u' !! k = levels u !! k) →
  follows_rule draws u t → follows_rule draws u' t.
Proof.
  intros Hm Hs Hh Hl [Hbase Hlevels].
  assert (Hbm : base_memory u' t = base_memory u t).
  { unfold base_memory. destruct (1 <? t); apply Hh; lia. }
  split.
  - destruct Hbase as (v & c & c' & Hv & Hev). exists v, c, c'.
    rewrite (evolve_same_model draws u u') by done.
    by rewrite !Hh, Hbm by lia.
  - intros l v Hl1 Hv. rewrite Hl in Hv by lia.
    destruct (Hlevels l v Hl1 Hv) as (c & c' & Hev). exists c, c'.
    rewrite (evolve_same_model draws u u') by done.
    rewrite Hl by lia. rewrite <- Hev. f_equal.
    unfold level_memory. destruct (1 <? t); by rewrite Hl by lia.
Qed.

Lemma run_from_rule maxLevel count : ∀ t (u : universe T) cur u' cur',
  0 < t → in_order u t maxLevel →
  run_from draws t count maxLevel u cur = Returned (u', cur') →
  ∀ k, t ≤ k < t + count → follows_rule draws u' k.
Proof.
  induction count as [|count IH]; intros t u cur u' cur' Ht Hord Hrun k Hk; [lia|].
  cbn [run_from] in Hrun.
  destruct (step draws u t maxLevel cur) as [[u1 c1]|] eqn:Estep; [|done].
  pose proof (step_returned draws _ _ _ _ _ _ Estep Ht)
    as (base_now & c & row & _ & Hh & _ & _ & _ & _ & Hrow & _ & Hdom).
  assert (Hord1 : in_order u1 (S t) maxLevel).
  { destruct Hord as [Hlen _]. split; [rewrite Hh, length_app; cbn; lia|].
    intros _. exists row. by replace (S t - 1) with t by lia. }
  destruct (decide (k = t)) as [->|Hne];
    [|apply (IH (S t) u1 c1 u' cur'); [lia|done|done|lia]].
  destruct (run_from_spec draws maxLevel count (S t) u1 c1)
    as (u2 & c2 & Hrun2 & _ & _ & Hm & Hs & Hhist & Hlev & _); [lia|done|].
  rewrite Hrun in Hrun2. injection Hrun2 as <- <-.
  apply (follows_rule_kept u1 u' t); try done.
  - intros j Hj. apply Hhist. lia.
  - intros j Hj. apply Hlev. lia.
  - destruct Hord as [Hlen _]. by apply (step_rule u t maxLevel cur u1 c1).
Qed.

(** X7.  After [run(steps, maxLevel)] on a universe with one state in
    [history] (as the constructor leaves it) every time [1 <= t < steps]
    follows the rule of the engine: [history[t]] is
    [evolve(history[t-1], memory, 0)] with the memory [history[t-2]]
    (or [history[t-1]] when [t = 1]), and every derived level
    [levels[t][l]] is [evolve(levels[t][l-1], memory, l)] with the
    memory [levels[t-1][l-1]] (or [levels[t][l-1]] when [t = 1]). *)
Theorem run_follows_rule (u0 : universe T) cur steps maxLevel t :
  length (history u0) = 1 →
  1 ≤ t < steps →
  follows_rule draws (final_state (run draws u0 steps maxLevel cur)).1 t.
Proof.
  intros Hone Ht.
  assert (Hord : in_order u0 1 maxLevel) by (split; [done|lia]).
  destruct (run_from_spec draws maxLevel (steps - 1) 1 u0 cur)
    as (u & c & Hrun & _); [lia|done|].
  unfold run. rewrite Hrun. cbn [final_state fst].
  apply (run_from_rule maxLevel (steps - 1) 1 u0 cur u c); [lia|done|done|lia].
Qed.
End Recurrence.

Section ModelEdges.
Context {T : Type} `{JSNumber T}.
Variable draws : nat -> T.

(** X8.  [evolveOscillators] returns a vector as long as its input,
    carries every component from index [2 * floor(dim / 2)] on (the
    unpaired last one of an odd dimension) over unchanged, and calls
    [Math.random()] once per pair in the open system and never
    otherwise. *)
Theorem evolveOscillators_pairs_only (prev : vec T) systemType cur :
  let out := evolveOscillators draws prev systemType cur in
  length out.1 = length prev ∧
  (∀ j, 2 * (length prev / 2) ≤ j → out.1 !! j = prev !! j) ∧
  out.2 = cur + (if is_open systemType then length prev / 2 else 0).
Proof.
  cbv zeta.
  destruct (evolveOscillators_spec draws prev systemType cur) as (Hlen & Hcur & Hrest & _).
  split; [done|]. split; [done|].
  rewrite Hcur. unfold noise_draws. by rewrite positive_osc_noiseScale.
Qed.

(** X9.  Outside the open system [evolveIsing] draws nothing and returns
    the constant vector whose every component is
    [tanh(beta * (J * m + h))], [m] being the mean of the input (the
    sum divided by [dim || 1]); in the open system it calls
    [Math.random()] once per component. *)
Theorem evolveIsing_mean_field (prev : vec T) systemType cur :
  let out := evolveIsing draws prev systemType cur in
  length out.1 = length prev ∧
  out.2 = cur + (if is_open systemType then length prev else 0) ∧
  (is_open systemType = false →
   out.1 = replicate (length prev)
             (num_tanh (lit ising_beta * (lit ising_J * ising_mean prev + lit ising_h))%js)).
Proof.
  cbv zeta. unfold evolveIsing.
  destruct (ising_loop_spec draws (ising_mean prev) systemType (length prev)
              (replicate (length prev) nan) cur) as (Hlen & Hcur & _ & Hsites).
  { by rewrite length_replicate. }
  rewrite length_replicate in Hlen.
  split; [done|]. split.
  - rewrite Hcur. unfold noise_draws. by rewrite positive_ising_noiseScale.
  - intros Hopen. apply list_eq. intros i.
    destruct (decide (i < length prev)) as [Hi|Hi].
    + rewrite (Hsites i Hi), positive_ising_noiseScale, Hopen.
      symmetry. by apply lookup_replicate_2.
    + rewrite !lookup_ge_None_2; [done|rewrite length_replicate; lia|lia].
Qed.
End ModelEdges.

(** * Where the stored numbers come from *)

Section Provenance.
Context {T : Type} `{JSNumber T}.
Variable P : T → Prop.
Hypothesis P_closed : closed_under P.
Variable draws : nat → T.
Hypothesis P_draws : ∀ k, P (draws k).

Lemma closed_lit q : P (lit q).
Proof. by destruct P_closed as (? & _). Qed.

Lemma closed_add x y : P x → P y → P (x + y)%js.
Proof. destruct P_closed as (_ & Hc & _). apply Hc. Qed.

Lemma closed_sub x y : P x → P y → P (x - y)%js.
Proof. destruct P_closed as (_ & _ & Hc & _). apply Hc. Qed.

Lemma closed_mul x y : P x → P y → P (x * y)%js.
Proof. destruct P_closed as (_ & _ & _ & Hc & _). apply Hc. Qed.

Lemma closed_div x y : P x → P y → P (x / y)%js.
Proof. destruct P_closed as (_ & _ & _ & _ & Hc & _). apply Hc. Qed.

Lemma closed_sin x : P x → P (num_sin x).
Proof. destruct P_closed as (_ & _ & _ & _ & _ & Hc & _). apply Hc. Qed.

Lemma closed_cos x : P x → P (num_cos x).
Proof. destruct P_closed as (_ & _ & _ & _ & _ & _ & Hc & _). apply Hc. Qed.

Lemma closed_tanh x : P x → P (num_tanh x).
Proof. destruct P_closed as (_ & _ & _ & _ & _ & _ & _ & Hc). apply Hc. Qed.

(** A read inside the vector finds a number of [P]. *)
Lemma closed_at_index (v : vec T) i :
  Forall P v → i < length v → P (at_index v i).
Proof.
  intros Hv Hi. unfold at_index.
  destruct (lookup_lt_is_Some_2 v i Hi) as [x Hx]. rewrite Hx.
  by apply (Forall_lookup_1 _ _ _ _ Hv Hx).
Qed.

Lemma closed_noise q k : P (noise draws q k).
Proof.
  unfold noise. repeat first [apply closed_mul | apply closed_sub | apply closed_lit].
  apply P_draws.
Qed.

Lemma closed_imap (f : nat → T → T) (v : vec T) :
  (∀ i x, v !! i = Some x → P (f i x)) → Forall P (imap f v).
Proof.
  intros Hf. apply Forall_lookup. intros i y.
  rewrite list_lookup_imap. destruct (v !! i) as [x|] eqn:Hx; [|done].
  intros [= <-]. by apply Hf.
Qed.

Lemma closed_blendVec (a b : vec T) alpha :
  Forall P a → Forall P b → length a ≤ length b → P alpha →
  Forall P (blendVec a b alpha).
Proof.
  intros Ha Hb Hlen Halpha. apply closed_imap. intros i x Hx.
  pose proof (lookup_lt_Some _ _ _ Hx).
  repeat first [apply closed_add | apply closed_mul | apply closed_sub | apply closed_lit
               | done | apply closed_at_index; [done|lia]].
  by apply (Forall_lookup_1 _ _ _ _ Ha Hx).
Qed.

Lemma closed_nonlinear (prev memory : vec T) level :
  Forall P prev → Forall P memory → length prev ≤ length memory →
  Forall P (nonlinear prev memory level).
Proof.
  intros Hp Hm Hlen. unfold nonlinear. apply closed_blendVec.
  - apply Forall_fmap. eapply Forall_impl; [exact Hp|]. apply closed_sin.
  - apply Forall_fmap. eapply Forall_impl; [exact Hm|]. apply closed_cos.
  - unfold sinVec, cosVec. by rewrite !length_fmap.
  - apply closed_div; [apply closed_lit|].
    apply closed_add; apply closed_lit.
Qed.

Lemma closed_osc_damped (prev : vec T) systemType i :
  Forall P prev → i < length prev / 2 →
  P (osc_damped prev systemType (length prev / 2) i).
Proof.
  intros Hp Hi.
  assert (2 * (length prev / 2) ≤ length prev).
  { pose proof (Nat.div_mod_eq (length prev) 2). lia. }
  unfold osc_damped.
  destruct (0 <? i) eqn:E1; destruct (i <? length prev / 2 - 1) eqn:E2.
  all: try apply Nat.ltb_lt in E1; try apply Nat.ltb_lt in E2.
  all: repeat first [apply closed_add | apply closed_mul | apply closed_sub | apply closed_lit
                    | apply closed_at_index; [done|lia]].
Qed.

Lemma closed_evolveOscillators (prev : vec T) systemType cur :
  Forall P prev → Forall P (evolveOscillators draws prev systemType cur).1.
Proof.
  intros Hp.
  destruct (evolveOscillators_spec draws prev systemType cur) as (Hlen & _ & Hrest & Hpairs).
  assert (Hn : 2 * (length prev / 2) ≤ length prev).
  { pose proof (Nat.div_mod_eq (length prev) 2). lia. }
  apply Forall_lookup. intros j y Hy.
  destruct (decide (2 * (length prev / 2) ≤ j)) as [Hj|Hj].
  - rewrite Hrest in Hy by done. by apply (Forall_lookup_1 _ _ _ _ Hp Hy).
  - assert (Hi : j / 2 < length prev / 2).
    { apply Nat.Div0.div_lt_upper_bound. lia. }
    destruct (Hpairs (j / 2) Hi) as [Hx Hv].
    pose proof (Nat.div_mod_eq j 2) as Hdm.
    assert (j mod 2 = 0 ∨ j mod 2 = 1) as [Hpar|Hpar].
    { pose proof (Nat.mod_upper_bound j 2). lia. }
    + replace (2 * (j / 2)) with j in Hx by lia.
      rewrite Hx in Hy. apply (inj Some) in Hy. rewrite <- Hy.
      repeat first [apply closed_osc_damped; done | apply closed_add | apply closed_mul
                   | apply closed_lit | apply closed_at_index; [done|lia]].
    + replace (2 * (j / 2) + 1) with j in Hv by lia.
      rewrite Hv in Hy. apply (inj Some) in Hy. rewrite <- Hy.
      destruct (positive _);
        repeat first [apply closed_osc_damped; done | apply closed_noise | apply closed_add].
Qed.

Lemma closed_sum (v : vec T) k :
  Forall P v → k ≤ length v →
  P (for_loop 0 k (λ i m, (m + at_index v i)%js) (lit 0)).
Proof.
  intros Hv. induction k as [|k IH]; intros Hk; [apply closed_lit|].
  rewrite for_loop_S. apply closed_add; [apply IH; lia|].
  apply closed_at_index; [done|lia].
Qed.

Lemma closed_ising_mean (v : vec T) : Forall P v → P (ising_mean v).
Proof.
  intros Hv. unfold ising_mean. apply closed_div; [by apply closed_sum|apply closed_lit].
Qed.

Lemma closed_evolveIsing (prev : vec T) systemType cur :
  Forall P prev → Forall P (evolveIsing draws prev systemType cur).1.
Proof.
  intros Hp. unfold evolveIsing.
  destruct (ising_loop_spec draws (ising_mean prev) systemType (length prev)
              (replicate (length prev) nan) cur) as (Hlen & _ & _ & Hsites).
  { by rewrite length_replicate. }
  rewrite length_replicate in Hlen.
  apply Forall_lookup. intros i y Hy.
  pose proof (lookup_lt_Some _ _ _ Hy) as Hi. rewrite Hlen in Hi.
  rewrite (Hsites i Hi) in Hy. apply (inj Some) in Hy. rewrite <- Hy.
  pose proof (closed_ising_mean prev Hp) as Hm.
  apply closed_tanh, closed_mul; [apply closed_lit|].
  destruct (positive _);
    repeat first [done | apply closed_noise | apply closed_add | apply closed_mul
                 | apply closed_lit].
Qed.

(** [evolve] on a state of [P], with a memory of [P] that is at least
    as long, returns a state of [P]. *)
Lemma closed_evolve (u : universe T) prev memory level cur v cur' :
  evolve draws u (Some prev) memory level cur = Some (v, cur') →
  Forall P prev →
  (∀ m, memory = Some m → Forall P m ∧ length prev ≤ length m) →
  Forall P v.
Proof.
  unfold evolve. intros Hev Hp Hm.
  repeat case_match; cbn [mbind option_bind] in Hev.
  - injection Hev as Hev. apply (f_equal fst) in Hev. cbn in Hev. subst v.
    by apply closed_evolveOscillators.
  - injection Hev as Hev. apply (f_equal fst) in Hev. cbn in Hev. subst v.
    by apply closed_evolveIsing.
  - destruct memory as [m|]; [|done]. cbn in Hev. injection Hev as <- _.
    destruct (Hm m eq_refl). by apply closed_nonlinear.
Qed.

Lemma universe_within_write (u : universe T) t level v row :
  universe_within P u → levels u !! t = Some row → Forall P v →
  universe_within P (set_levels u (<[t := <[level := v]> row]> (levels u))).
Proof.
  intros [Hh Hl] Hrow Hv. split; [done|].
  intros t' row' l v'. cbn.
  destruct (decide (t' = t)) as [->|Hne].
  - rewrite lookup_insert_eq. intros [= <-].
    destruct (decide (l = level)) as [->|Hnl].
    + rewrite lookup_insert_eq. by intros [= <-].
    + rewrite lookup_insert_ne by done. by apply (Hl t).
  - rewrite lookup_insert_ne by done. apply Hl.
Qed.

Lemma universe_within_clear (u : universe T) t :
  universe_within P u → universe_within P (set_levels u (<[t := ∅]> (levels u))).
Proof.
  intros [Hh Hl]. split; [done|].
  intros t' row' l v'. cbn.
  destruct (decide (t' = t)) as [->|Hne].
  - rewrite lookup_insert_eq. intros [= <-]. by rewrite lookup_empty.
  - rewrite lookup_insert_ne by done. apply Hl.
Qed.

Lemma universe_within_push (u : universe T) v :
  universe_within P u → Forall P v →
  universe_within P (set_history u (history u ++ [v])).
Proof.
  intros [Hh Hl] Hv. split; [|done].
  cbn. apply Forall_app. split; [done|]. by apply Forall_singleton.
Qed.

Lemma level_loop_within n t count : ∀ level (u : universe T) cur,
  all_length n u → universe_within P u →
  universe_within P (final_state (level_loop draws t level count u cur)).1.
Proof.
  induction count as [|count IH]; intros level u cur Hlen Hin; [done|].
  cbn [level_loop].
  destruct (levels u !! t) as [row|] eqn:Hrow; [|done].
  destruct (if 1 <? t then _ else _) as [mem_layer|] eqn:Emem; [|done].
  destruct (row !! (level - 1)) as [prev|] eqn:Hprev;
    [|by rewrite evolve_undefined].
  destruct (evolve _ _ _ _ _ _) as [[state c]|] eqn:Eev; [|done].
  rewrite (write_level_Some _ _ _ _ _ Hrow).
  pose proof (length_evolve _ _ _ _ _ _ _ _ Eev) as Hstate.
  destruct Hlen as [Hlh Hll]. destruct Hin as [Hrh Hrl].
  assert (Hmem : ∀ m, mem_layer = Some m → Forall P m ∧ length prev ≤ length m).
  { intros m ->. rewrite (Hll t row (level - 1) prev Hrow Hprev).
    destruct (1 <? t).
    - destruct (levels u !! (t - 1)) as [before|] eqn:Hb; [|done].
      injection Emem as Hm. split.
      + by apply (Hrl (t - 1) before (level - 1)).
      + by rewrite (Hll (t - 1) before (level - 1) m Hb).
    - injection Emem as [= ->]. split; [by apply (Hrl t row (level - 1))|].
      by rewrite (Hll t row (level - 1) m Hrow). }
  apply IH.
  - apply all_length_write; [done..|].
    rewrite Hstate. by apply (Hll t row (level - 1)).
  - apply universe_within_write; [done..|].
    apply (closed_evolve _ _ _ _ _ _ _ Eev); [|done].
    by apply (Hrl t row (level - 1)).
Qed.

Lemma step_within n (u : universe T) t maxLevel cur :
  all_length n u → universe_within P u →
  universe_within P (final_state (step draws u t maxLevel cur)).1.
Proof.
  intros Hlen Hin. unfold step. destruct (t =? 0); [done|].
  cbn [history set_levels]. rewrite evolve_set_levels.
  destruct (history u !! (t - 1)) as [prev|] eqn:Hprev.
  2:{ rewrite evolve_undefined. by apply universe_within_clear. }
  destruct (evolve _ _ _ _ _ _) as [[base_now c]|] eqn:Eev.
  2:{ by apply universe_within_clear. }
  pose proof (length_evolve _ _ _ _ _ _ _ _ Eev) as Hbase.
  assert (Hprev_in : Forall P prev).
  { destruct Hin as [Hrh _]. by apply (Forall_lookup_1 _ _ _ _ Hrh Hprev). }
  assert (Hbase_in : Forall P base_now).
  { apply (closed_evolve _ _ _ _ _ _ _ Eev); [done|].
    intros m Hm. rewrite (all_length_history n u _ _ Hlen Hprev).
    destruct (1 <? t).
    - split; [destruct Hin as [Hrh _]; by apply (Forall_lookup_1 _ _ _ _ Hrh Hm)|].
      by rewrite (all_length_history n u _ _ Hlen Hm).
    - injection Hm as <-. split; [done|].
      by rewrite (all_length_history n u _ _ Hlen Hprev). }
  erewrite write_level_Some; [|cbn; by rewrite lookup_insert_eq].
  apply (level_loop_within n).
  - apply (all_length_write n
             (set_history (set_levels u (<[t:=∅]> (levels u))) (history u ++ [base_now]))
             t 0 base_now ∅).
    + apply (all_length_push n (set_levels u (<[t:=∅]> (levels u)))).
      * by apply all_length_clear.
      * rewrite Hbase. by eapply all_length_history.
    + cbn. by rewrite lookup_insert_eq.
    + rewrite Hbase. by eapply all_length_history.
  - apply (universe_within_write
             (set_history (set_levels u (<[t:=∅]> (levels u))) (history u ++ [base_now]))
             t 0 base_now ∅); [|cbn; by rewrite lookup_insert_eq|done].
    apply (universe_within_push (set_levels u (<[t:=∅]> (levels u)))); [|done].
    by apply universe_within_clear.
Qed.

Lemma run_from_within n maxLevel count : ∀ t (u : universe T) cur,
  all_length n u → universe_within P u →
  universe_within P (final_state (run_from draws t count maxLevel u cur)).1.
Proof.
  induction count as [|count IH]; intros t u cur Hlen Hin; [done|].
  cbn [run_from].
  pose proof (step_within n u t maxLevel cur Hlen Hin) as Hr1.
  destruct (step_all_length draws n u t maxLevel cur Hlen) as [Hl1 _].
  destruct (step draws u t maxLevel cur) as [[u1 c1]|[u1 c1]]; [|done].
  by apply IH.
Qed.

Lemma retro_influence_within n (u : universe T) t_future t_past strength :
  P strength → all_length n u → universe_within P u →
  universe_within P (final_state (retro_influence u t_future t_past strength)).
Proof.
  intros Hs Hlen Hin. unfold retro_influence.
  destruct (_ || _); [done|].
  unfold get_state. cbn [Nat.eqb].
  destruct (history u !! t_future) as [f|] eqn:Hf; [|done].
  destruct (history u !! t_past) as [p|] eqn:Hp; [|done].
  cbn [from_option final_state]. destruct Hin as [Hrh Hrl]. split; [|done].
  cbn [history set_history]. apply Forall_insert; [done|].
  pose proof (Forall_lookup_1 _ _ _ _ Hrh Hf) as Hfr.
  pose proof (Forall_lookup_1 _ _ _ _ Hrh Hp) as Hpr.
  pose proof (all_length_history n u _ _ Hlen Hf) as Hfl.
  pose proof (all_length_history n u _ _ Hlen Hp) as Hpl.
  apply closed_imap. intros i x Hx.
  pose proof (lookup_lt_Some _ _ _ Hx).
  apply closed_add; [by apply (Forall_lookup_1 _ _ _ _ Hpr Hx)|].
  unfold at_index. rewrite lookup_retro_delta.
  destruct (lookup_lt_is_Some_2 f i) as [a Ha]; [lia|]. rewrite Ha. cbn.
  apply closed_mul; [|done]. apply closed_sub.
  - by apply (Forall_lookup_1 _ _ _ _ Hfr Ha).
  - apply closed_at_index; [done|lia].
Qed.

(** X10.  No number stored in a universe comes from an undefined read.
    Let [P] be any set of numbers that holds the literals and is kept
    by the arithmetic operations and by [Math.sin], [Math.cos] and
    [Math.tanh]; nothing is asked of the NaN that reading [undefined]
    gives.  Start from a universe whose stored vectors are all of one
    length and hold numbers of [P], and let the random draws and the
    strengths be in [P]: whatever calls of [step], [run] and
    [retro_influence] are made, and whether they return or throw, every
    number in [history] and in [levels] is in [P].  So every stored
    number is made from seed components, draws and literals by
    arithmetic alone: no read past the end of a vector or of an empty
    slot ever reaches a stored value. *)
Theorem stored_numbers_come_from_arithmetic n (u0 u : universe T) :
  all_length n u0 → universe_within P u0 →
  reachable_with P draws u0 u →
  universe_within P u.
Proof.
  intros Hlen0 Hin0 Hreach.
  assert (Hinv : all_length n u ∧ universe_within P u); [|apply Hinv].
  induction Hreach as [|u t maxLevel c _ [IHl IHr]|u steps maxLevel c _ [IHl IHr]
                       |u tf tp s Hs _ [IHl IHr]].
  - done.
  - split; [by apply step_all_length|by apply (step_within n)].
  - split; [by apply run_from_all_length|by apply (run_from_within n)].
  - split; [by apply retro_influence_all_length|by apply (retro_influence_within n)].
Qed.
End Provenance.

(** * Properties in real arithmetic *)

Section RealClosure.
Variable draws : nat → jsnum.
Hypothesis real_draws : ∀ k, is_real (draws k).

Lemma real_lit q : is_real (lit q).
Proof. done. Qed.

Lemma real_add x y : is_real x → is_real y → is_real (x + y)%js.
Proof. by destruct x, y. Qed.

Lemma real_sub x y : is_real x → is_real y → is_real (x - y)%js.
Proof. by destruct x, y. Qed.

Lemma real_mul x y : is_real x → is_real y → is_real (x * y)%js.
Proof. by destruct x, y. Qed.

Lemma real_div x y : is_real x → is_real y → is_real (x / y)%js.
Proof. by destruct x, y. Qed.

(** The real numbers are kept by the arithmetic of the instance. *)
Lemma is_real_closed : closed_under is_real.
Proof.
  split; [apply real_lit|]. split; [apply real_add|]. split; [apply real_sub|].
  split; [apply real_mul|]. split; [apply real_div|].
  split; [by intros []|]. split; by intros [].
Qed.

Lemma real_at_index (v : vec jsnum) i :
  real_vector v → i < length v → is_real (at_index v i).
Proof. apply closed_at_index. Qed.

Lemma real_noise q k : is_real (noise draws q k).
Proof. apply closed_noise; [apply is_real_closed|apply real_draws]. Qed.

Lemma real_imap (f : nat → jsnum → jsnum) (v : vec jsnum) :
  (∀ i x, v !! i = Some x → is_real (f i x)) → real_vector (imap f v).
Proof. apply closed_imap. Qed.

Lemma real_sum (v : vec jsnum) k :
  real_vector v → k ≤ length v →
  is_real (for_loop 0 k (λ i m, (m + at_index v i)%js) (lit 0)).
Proof. apply closed_sum, is_real_closed. Qed.

Lemma real_ising_mean (v : vec jsnum) : real_vector v → is_real (ising_mean v).
Proof. apply closed_ising_mean, is_real_closed. Qed.

Lemma run_from_stays_real n maxLevel count t (u : universe jsnum) cur :
  all_length n u → real_universe u →
  real_universe (final_state (run_from draws t count maxLevel u cur)).1.
Proof. apply (run_from_within is_real is_real_closed draws real_draws). Qed.

Lemma retro_influence_stays_real n (u : universe jsnum) t_future t_past (strength : R) :
  all_length n u → real_universe u →
  real_universe (final_state (retro_influence u t_future t_past (Num strength))).
Proof. by apply (retro_influence_within is_real is_real_closed). Qed.
End RealClosure.

Section Bounds.
Variable draws : nat → jsnum.
Hypothesis real_draws : ∀ k, is_real (draws k).

Lemma tanh_within_unit x : (-1 < tanh x < 1)%R.
Proof.
  unfold tanh, sinh, cosh.
  pose proof (exp_pos x) as Ha. pose proof (exp_pos (- x)) as Hb.
  set (a := exp x) in *. set (b := exp (- x)) in *.
  replace ((a - b) / 2 / ((a + b) / 2))%R with ((a - b) / (a + b))%R by (field; lra).
  split.
  - apply Rmult_lt_reg_r with (a + b)%R; [lra|].
    unfold Rdiv. rewrite Rmult_assoc, Rinv_l by lra. lra.
  - apply Rmult_lt_reg_r with (a + b)%R; [lra|].
    unfold Rdiv. rewrite Rmult_assoc, Rinv_l by lra. lra.
Qed.

Lemma Q2R_inject_nat n : Q2R (inject_Z (Z.of_nat n)) = INR n.
Proof. unfold Q2R. cbn. rewrite <- INR_IZR_INZ. field. Qed.

Lemma alpha_within_unit level :
  ∃ a, (lit 1 / (lit 1 + lit_nat level))%js = Num a ∧ (0 < a <= 1)%R.
Proof.
  eexists. split; [reflexivity|].
  rewrite Q2R_inject_nat. pose proof (pos_INR level) as Hl.
  replace (Q2R 1) with 1%R by (unfold Q2R; cbn; field).
  split.
  - apply Rdiv_lt_0_compat; lra.
  - apply Rmult_le_reg_r with (1 + INR level)%R; [lra|].
    unfold Rdiv. rewrite Rmult_assoc, Rinv_l by lra. lra.
Qed.

Lemma nonlinear_within_unit (prev memory : vec jsnum) level :
  real_vector prev → real_vector memory → length prev ≤ length memory →
  within (λ r, -1 <= r <= 1)%R (nonlinear prev memory level).
Proof.
  intros Hp Hm Hlen. unfold nonlinear.
  destruct (alpha_within_unit level) as (a & -> & Ha).
  apply Forall_lookup. intros i y. unfold blendVec.
  rewrite list_lookup_imap. unfold sinVec, cosVec, at_index.
  rewrite !list_lookup_fmap.
  destruct (prev !! i) as [x|] eqn:Hx; [|done].
  pose proof (lookup_lt_Some _ _ _ Hx).
  destruct (lookup_lt_is_Some_2 memory i) as [z Hz]; [lia|]. rewrite Hz.
  pose proof (Forall_lookup_1 _ _ _ _ Hp Hx) as Hxr.
  pose proof (Forall_lookup_1 _ _ _ _ Hm Hz) as Hzr.
  destruct x as [x|]; [|done]. destruct z as [z|]; [|done].
  cbn. intros [= <-].
  pose proof (SIN_bound x). pose proof (COS_bound z).
  replace (Q2R 1) with 1%R by (unfold Q2R; cbn; field). nra.
Qed.

Lemma evolveIsing_within_unit (prev : vec jsnum) systemType cur :
  real_vector prev →
  within (λ r, -1 < r < 1)%R (evolveIsing draws prev systemType cur).1.
Proof.
  intros Hp. unfold evolveIsing.
  destruct (ising_loop_spec draws (ising_mean prev) systemType (length prev)
              (replicate (length prev) nan) cur) as (Hlen & _ & _ & Hsites).
  { by rewrite length_replicate. }
  rewrite length_replicate in Hlen.
  apply Forall_lookup. intros i y Hy.
  pose proof (lookup_lt_Some _ _ _ Hy) as Hi. rewrite Hlen in Hi.
  rewrite (Hsites i Hi) in Hy. apply (inj Some) in Hy. rewrite <- Hy.
  assert (Hfield : ∀ x, is_real x →
            match num_tanh (lit ising_beta * x)%js with
            | Num r => (-1 < r < 1)%R
            | NaN => False
            end).
  { intros [x|] Hx; [|done]. cbn. apply tanh_within_unit. }
  apply Hfield.
  pose proof (real_ising_mean prev Hp) as Hm.
  destruct (positive _);
    repeat first [done | apply (real_noise draws real_draws) | apply real_add
                 | apply real_mul | apply real_lit].
Qed.

(** One call of [evolve] outside the oscillators model, on real
    arguments of one length, lands in [-1, 1]. *)
Lemma evolve_within_unit (u : universe jsnum) prev memory level cur v cur' :
  modelType u ≠ "oscillators"%string →
  evolve draws u (Some prev) memory level cur = Some (v, cur') →
  real_vector prev →
  (∀ m, memory = Some m → real_vector m ∧ length prev ≤ length m) →
  within (λ r, -1 <= r <= 1)%R v.
Proof.
  unfold evolve. intros Hmodel Hev Hp Hm.
  apply String.eqb_neq in Hmodel. rewrite Hmodel in Hev.
  destruct (String.eqb (modelType u) "ising"); cbn [mbind option_bind] in Hev.
  - injection Hev as Hev. apply (f_equal fst) in Hev. cbn in Hev. subst v.
    eapply Forall_impl; [by apply evolveIsing_within_unit|].
    intros [r|]; [lra|done].
  - destruct memory as [m|]; [|done]. cbn in Hev. injection Hev as <- _.
    destruct (Hm m eq_refl). by apply nonlinear_within_unit.
Qed.

(** X11.  The nonlinear and the Ising dynamics are bounded.  After
    [run(steps, maxLevel)] on a universe as the constructor leaves it
    (one state in [history], no row in [levels]) of a model other than
    oscillators, with a seed of real numbers, every state [history[t]]
    with [1 <= t < steps] and every vector of [levels] has all its
    components in [-1, 1]. *)
Theorem run_states_within_unit (u0 : universe jsnum) seed cur steps maxLevel :
  modelType u0 ≠ "oscillators"%string →
  history u0 = [seed] → levels u0 = ∅ → real_vector seed →
  let out := run draws u0 steps maxLevel cur in
  let u := (final_state out).1 in
  (∀ t v, 1 ≤ t → history u !! t = Some v → within (λ r, -1 <= r <= 1)%R v) ∧
  (∀ t l v, levels u !! t ≫= (.!! l) = Some v → within (λ r, -1 <= r <= 1)%R v).
Proof.
  intros Hmodel0 Hh Hl Hseed. cbv zeta.
  set (c0 := cur).
  set (n := length seed).
  assert (Hone : length (history u0) = 1) by (by rewrite Hh).
  assert (Hlen0 : all_length n u0).
  { split.
    - rewrite Hh. by apply Forall_singleton.
    - intros t row level v. by rewrite Hl, lookup_empty. }
  assert (Hreal0 : real_universe u0).
  { split.
    - rewrite Hh. by apply Forall_singleton.
    - intros t row level v. by rewrite Hl, lookup_empty. }
  pose proof (run_from_all_length draws n maxLevel (steps - 1) 1 u0 c0 Hlen0) as [Hlen _].
  pose proof (run_from_stays_real draws real_draws n maxLevel (steps - 1) 1 u0 c0
                Hlen0 Hreal0) as Hreal.
  destruct (run_from_spec draws maxLevel (steps - 1) 1 u0 c0)
    as (u & c & Hrun & [Hhlen _] & _ & Hm & _); [lia|split; [done|lia]|].
  assert (Hrule : ∀ t, 1 ≤ t < 1 + (steps - 1) → follows_rule draws u t).
  { intros t Ht.
    apply (run_from_rule draws maxLevel (steps - 1) 1 u0 c0 u c);
      [lia|split; [done|lia]|done|lia]. }
  unfold run. rewrite Hrun in *. cbn [final_state fst] in *.
  assert (Hmodel1 : modelType u ≠ "oscillators"%string) by (by rewrite Hm).
  destruct Hlen as [Hlh Hll]. destruct Hreal as [Hrh Hrl].
  split.
  - intros t v Ht Hv.
    pose proof (lookup_lt_Some _ _ _ Hv) as Hlt.
    destruct (Hrule t) as [(v' & c1 & c2 & Hv' & Hev) _]; [lia|].
    rewrite Hv in Hv'. injection Hv' as <-.
    destruct (lookup_lt_is_Some_2 (history u) (t - 1)) as [p Hp]; [lia|].
    rewrite Hp in Hev.
    apply (evolve_within_unit u p _ _ _ _ _ Hmodel1 Hev).
    + by apply (Forall_lookup_1 _ _ _ _ Hrh Hp).
    + intros m Hmem. unfold base_memory in Hmem.
      rewrite (Forall_lookup_1 _ _ _ _ Hlh Hp).
      destruct (1 <? t).
      * split; [by apply (Forall_lookup_1 _ _ _ _ Hrh Hmem)|].
        by rewrite (Forall_lookup_1 _ _ _ _ Hlh Hmem).
      * split; [by apply (Forall_lookup_1 _ _ _ _ Hrh Hmem)|].
        by rewrite (Forall_lookup_1 _ _ _ _ Hlh Hmem).
  - intros t l v Hv.
    destruct (levels u !! t) as [row|] eqn:Hrow; [|done]. cbn in Hv.
    destruct (run_shape draws u0 cur steps maxLevel Hone)
      as (_ & _ & _ & _ & _ & _ & Hnone & Hrows).
    fold c0 in Hnone, Hrows. unfold run in Hnone, Hrows.
    rewrite Hrun in Hnone, Hrows. cbn [final_state fst] in Hnone, Hrows.
    destruct (decide (1 ≤ t < steps)) as [Ht|Ht];
      [|by rewrite Hnone, Hl, lookup_empty in Hrow by done].
    destruct (decide (l = 0)) as [->|Hl0].
    + destruct (Hrows t Ht) as (base & row' & Hbase & Hrow' & H0 & _).
      rewrite Hrow in Hrow'. injection Hrow' as <-.
      rewrite Hv in H0. injection H0 as <-.
      destruct (Hrule t) as [(v' & c1 & c2 & Hv' & Hev) _]; [lia|].
      rewrite Hbase in Hv'. injection Hv' as <-.
      destruct (lookup_lt_is_Some_2 (history u) (t - 1)) as [p Hp]; [lia|].
      rewrite Hp in Hev.
      apply (evolve_within_unit u p _ _ _ _ _ Hmodel1 Hev).
      * by apply (Forall_lookup_1 _ _ _ _ Hrh Hp).
      * intros m Hmem. unfold base_memory in Hmem.
        rewrite (Forall_lookup_1 _ _ _ _ Hlh Hp).
        destruct (1 <? t);
          (split; [by apply (Forall_lookup_1 _ _ _ _ Hrh Hmem)|];
           by rewrite (Forall_lookup_1 _ _ _ _ Hlh Hmem)).
    + destruct (Hrule t) as [_ Hlevels]; [lia|].
      destruct (Hlevels l v) as (c1 & c2 & Hev); [lia|by rewrite Hrow|].
      rewrite Hrow in Hev. cbn in Hev.
      destruct (row !! (l - 1)) as [p|] eqn:Hp;
        [|by rewrite evolve_undefined in Hev].
      apply (evolve_within_unit u p _ _ _ _ _ Hmodel1 Hev).
      * by apply (Hrl t row (l - 1)).
      * intros m Hmem. unfold level_memory in Hmem.
        rewrite (Hll t row (l - 1) p Hrow Hp).
        destruct (1 <? t).
        -- destruct (levels u !! (t - 1)) as [before|] eqn:Hb; [|done]. cbn in Hmem.
           split; [by apply (Hrl (t - 1) before (l - 1))|].
           by rewrite (Hll (t - 1) before (l - 1) m Hb).
        -- rewrite Hrow in Hmem. cbn in Hmem.
           split; [by apply (Hrl t row (l - 1))|].
           by rewrite (Hll t row (l - 1) m Hrow).
Qed.
End Bounds.

Section RealDiagnostics.

Lemma Q2R_half : Q2R (1 # 2) = (1 / 2)%R.
Proof. unfold Q2R. cbn [Qnum Qden]. lra. Qed.

Lemma Q2R_one : Q2R 1 = 1%R.
Proof. unfold Q2R. cbn [Qnum Qden]. lra. Qed.

Lemma Q2R_zero : Q2R 0 = 0%R.
Proof. unfold Q2R. cbn [Qnum Qden]. lra. Qed.

Lemma oscillatorEnergy_loop (state : vec jsnum) k :
  real_vector state → 2 * k ≤ length state →
  ∃ e, for_loop 0 k
         (λ i E, (E + lit (1 # 2) * (at_index state (2 * i) * at_index state (2 * i)
                                     + at_index state (2 * i + 1)
                                       * at_index state (2 * i + 1)))%js)
         (lit 0) = Num e ∧ (0 <= e)%R.
Proof.
  intros Hs. induction k as [|k IH]; intros Hk.
  - eexists. split; [reflexivity|]. rewrite Q2R_zero. lra.
  - rewrite for_loop_S. destruct IH as (e & -> & He); [lia|].
    destruct (lookup_lt_is_Some_2 state (2 * (0 + k))) as [x Hx]; [lia|].
    destruct (lookup_lt_is_Some_2 state (2 * (0 + k) + 1)) as [v Hv]; [lia|].
    destruct (real_entry state _ x Hs Hx) as [a ->].
    destruct (real_entry state _ v Hs Hv) as [b ->].
    unfold at_index. rewrite Hx, Hv. eexists. split; [reflexivity|].
    rewrite Q2R_half. nra.
Qed.

Lemma sum_loop (state : vec jsnum) k :
  real_vector state → k ≤ length state →
  ∃ m, for_loop 0 k (λ i m, (m + at_index state i)%js) (lit 0) = Num m.
Proof.
  intros Hs Hk.
  pose proof (real_sum state k Hs Hk) as Hr.
  destruct (for_loop _ _ _ _) as [m|]; [by exists m|done].
Qed.

(** X13.  The signs of the diagnostic energies in real arithmetic, on
    a state of real numbers: [oscillatorEnergy] is never negative and
    [isingEnergy] is never positive (it is 0 for the empty state). *)
Theorem energies_have_a_sign (state : vec jsnum) :
  real_vector state →
  (∃ e, oscillatorEnergy state = Num e ∧ (0 <= e)%R) ∧
  (∃ e, isingEnergy state = Num e ∧ (e <= 0)%R ∧ (state = [] → e = 0%R)).
Proof.
  intros Hs. split.
  - unfold oscillatorEnergy. apply oscillatorEnergy_loop; [done|].
    pose proof (Nat.div_mod_eq (length state) 2). lia.
  - unfold isingEnergy. destruct (length state =? 0) eqn:E0.
    + eexists. split; [reflexivity|]. rewrite Q2R_zero. split; [lra|]. intros _. lra.
    + apply Nat.eqb_neq in E0.
      destruct (sum_loop state (length state) Hs) as [m ->]; [done|].
      eexists. split; [reflexivity|]. split.
      * rewrite Q2R_inject_nat. pose proof (pos_INR (length state)) as Hn.
        rewrite Qreals.Q2R_opp, Q2R_half, Q2R_one.
        set (q := (m / INR (length state))%R).
        assert (0 <= INR (length state) * (q * q))%R by (apply Rmult_le_pos; nra).
        nra.
      * intros ->. done.
Qed.

Lemma squares_loop (v : vec jsnum) k :
  real_vector v → k ≤ length v →
  ∃ e, for_loop 0 k (λ i acc, (acc + at_index v i * at_index v i)%js) (lit 0) = Num e ∧
       (0 <= e)%R ∧
       (e = 0%R ↔ ∀ i, i < k → v !! i = Some (Num 0)).
Proof.
  intros Hv. induction k as [|k IH]; intros Hk.
  - eexists. split; [reflexivity|]. rewrite Q2R_zero. split; [lra|].
    split; [intros _ i Hi; lia|done].
  - rewrite for_loop_S. destruct IH as (e & -> & He & Hzero); [lia|].
    destruct (lookup_lt_is_Some_2 v (0 + k)) as [x Hx]; [lia|].
    destruct (real_entry v _ x Hv Hx) as [a ->].
    unfold at_index. rewrite Hx. eexists. split; [reflexivity|].
    cbn in Hx. split; [nra|]. split.
    + intros Hsum. assert (e = 0 ∧ a = 0)%R as [He0 Ha0] by nra.
      intros i Hi. destruct (decide (i = k)) as [->|Hne].
      * by rewrite Hx, Ha0.
      * apply Hzero; [done|lia].
    + intros Hall. assert (e = 0)%R as -> by (apply Hzero; intros i Hi; apply Hall; lia).
      specialize (Hall k (Nat.lt_succ_diag_r k)). rewrite Hx in Hall.
      injection Hall as ->. lra.
Qed.

(** X14.  The norm of a vector of numbers is a number that is never
    negative, and the norm of a vector of zeros (the empty vector
    included) is 0. *)
Theorem norm_is_not_negative (v : vec jsnum) :
  real_vector v →
  ∃ r, norm v = Num r ∧ (0 <= r)%R ∧ (Forall (λ x, x = Num 0) v → r = 0%R).
Proof.
  intros Hv. unfold norm.
  destruct (squares_loop v (length v) Hv) as (e & -> & He & Hzero); [done|].
  cbn. destruct (Rle_dec 0 e) as [_|Hn]; [|done].
  exists (sqrt e). split; [done|]. split; [apply sqrt_pos|].
  intros Hall. assert (e = 0)%R as ->; [|apply sqrt_0].
  apply Hzero. intros i Hi.
  destruct (lookup_lt_is_Some_2 v i Hi) as [x Hx].
  by rewrite Hx, (Forall_lookup_1 _ _ _ _ Hall Hx).
Qed.
End RealDiagnostics.

(** * Properties of the callers *)

Section Parsing.

Lemma trim_start_app ws s :
  Forall (λ c, is_white_space c = true) ws → trim_start (ws ++ s) = trim_start s.
Proof.
  induction 1 as [|c ws Hc _ IH]; [done|]. cbn. by rewrite Hc.
Qed.

Lemma leading_digits_app ds rest :
  Forall (λ c, is_digit c = true) ds →
  leading_digits (ds ++ rest) = ((λ c, Z.of_N c - 48)%Z <$> ds) ++ leading_digits rest.
Proof.
  induction 1 as [|c ds Hc _ IH]; [done|]. cbn. by rewrite Hc, IH.
Qed.

Lemma is_digit_unit n : is_digit (48 + n mod 10) = true.
Proof.
  unfold is_digit. assert (n mod 10 < 10)%N by (apply N.mod_lt; lia).
  generalize dependent (n mod 10)%N. intros d Hd.
  apply andb_true_iff. split; apply N.leb_le; lia.
Qed.

Lemma is_digit_not_white_space c : is_digit c = true → is_white_space c = false.
Proof.
  unfold is_digit, is_white_space, white_space_units. intros Hc.
  apply andb_true_iff in Hc as [H1 H2]. apply N.leb_le in H1, H2.
  apply orb_false_iff. split.
  - cbn. repeat (apply orb_false_iff; split); try done; apply N.eqb_neq; lia.
  - apply andb_false_iff. left. apply N.leb_gt. lia.
Qed.

Lemma is_digit_not_sign c :
  is_digit c = true → (c =? 43)%N || (c =? 45)%N = false ∧ c ≠ 45%N.
Proof.
  unfold is_digit. intros Hc.
  apply andb_true_iff in Hc as [H1 H2]. apply N.leb_le in H1, H2.
  split; [|lia]. apply orb_false_iff. split; apply N.eqb_neq; lia.
Qed.

Lemma decimal_value_snoc l d :
  decimal_value (l ++ [d]) = (10 * decimal_value l + d)%Z.
Proof. unfold decimal_value. by rewrite foldl_app. Qed.

(** The digits that [decimal_digits] puts in front of [acc], and their
    value. *)
Lemma decimal_digits_spec fuel : ∀ n acc,
  N.to_nat n < fuel →
  ∃ c ds, decimal_digits fuel n acc = (c :: ds) ++ acc ∧
          Forall (λ c, is_digit c = true) (c :: ds) ∧
          decimal_value ((λ c, Z.of_N c - 48)%Z <$> (c :: ds)) = Z.of_N n.
Proof.
  induction fuel as [|fuel IH]; intros n acc Hfuel; [lia|].
  cbn [decimal_digits].
  assert (Hmod : (n mod 10 < 10)%N) by (apply N.mod_lt; lia).
  assert (Hdiv : n = (10 * (n / 10) + n mod 10)%N) by (apply N.div_mod; lia).
  pose proof (is_digit_unit n) as Hunit.
  generalize dependent (n mod 10)%N. intros d Hd Hdiv Hunit.
  generalize dependent (n / 10)%N. intros q Hdiv.
  destruct (q =? 0)%N eqn:Ediv.
  - apply N.eqb_eq in Ediv. exists (48 + d)%N, [].
    split; [done|]. split; [by apply Forall_singleton|].
    change (decimal_value _) with (10 * 0 + (Z.of_N (48 + d) - 48))%Z. lia.
  - apply N.eqb_neq in Ediv.
    destruct (IH q ((48 + d)%N :: acc)) as (c & ds & Heq & Hdig & Hval); [lia|].
    exists c, (ds ++ [(48 + d)%N]).
    split; [rewrite Heq; cbn; by rewrite <- app_assoc|].
    split.
    + rewrite app_comm_cons. apply Forall_app. split; [done|].
      by apply Forall_singleton.
    + rewrite app_comm_cons, fmap_app.
      change ((λ c, Z.of_N c - 48)%Z <$> [(48 + d)%N]) with [(Z.of_N (48 + d) - 48)%Z].
      rewrite decimal_value_snoc, Hval. lia.
Qed.

Lemma parseInt_digits c ds rest :
  Forall (λ c, is_digit c = true) (c :: ds) →
  leading_digits rest = [] →
  parseInt (c :: ds ++ rest)
    = Some (decimal_value ((λ c, Z.of_N c - 48)%Z <$> (c :: ds))) ∧
  parseInt (45%N :: c :: ds ++ rest)
    = Some (- decimal_value ((λ c, Z.of_N c - 48)%Z <$> (c :: ds)))%Z.
Proof.
  intros Hdig Hstop.
  pose proof (Forall_inv Hdig) as Hc. pose proof (Forall_inv_tail Hdig) as Hds.
  destruct (is_digit_not_sign c Hc) as [Hsign Hne].
  assert (Hlead : leading_digits (c :: ds ++ rest)
                  = (Z.of_N c - 48)%Z :: ((λ c, Z.of_N c - 48)%Z <$> ds)).
  { cbn [leading_digits]. rewrite Hc, leading_digits_app, Hstop by done.
    by rewrite app_nil_r. }
  split.
  - unfold parseInt. cbn [trim_start].
    rewrite (is_digit_not_white_space c Hc).
    assert ((match c :: ds ++ rest with
             | 45%N :: _ => (-1)%Z
             | _ => 1%Z
             end) = 1%Z) as ->.
    { destruct c as [|[]]; try done. repeat (destruct p; try done). }
    rewrite Hsign, Hlead. cbn [fmap list_fmap]. f_equal; lia.
  - unfold parseInt. cbn [trim_start].
    change (is_white_space 45) with false. cbv iota.
    change ((45 =? 43)%N || (45 =? 45)%N) with true. cbv iota.
    rewrite Hlead. cbn [fmap list_fmap]. f_equal; lia.
Qed.

(** X15.  [parseInt] reads back what [String] prints.  For every
    integer [z] that a number holds exactly (below 2^53 in size),
    [parseInt(ws + String(z) + rest, 10)] is [z], whatever white space
    [ws] stands in front and whatever text [rest] follows, as long as
    [rest] does not begin with a digit. *)
Theorem parseInt_reads_String ws z rest :
  (Z.abs z < 2 ^ 53)%Z →
  Forall (λ c, is_white_space c = true) ws →
  match rest with c :: _ => is_digit c = false | [] => True end →
  parseInt (ws ++ String_of_integer z ++ rest) = Some z.
Proof.
  intros _.
  intros Hws Hrest.
  assert (Hstop : leading_digits rest = []).
  { destruct rest as [|c rest]; [done|]. cbn. by rewrite Hrest. }
  assert (Htrim : ∀ s, parseInt (ws ++ s) = parseInt s).
  { intros s. unfold parseInt. by rewrite trim_start_app. }
  rewrite Htrim. unfold String_of_integer.
  destruct (decimal_digits_spec (S (N.to_nat (Z.to_N (Z.abs z)))) (Z.to_N (Z.abs z)) [])
    as (c & ds & -> & Hdig & Hval); [lia|].
  rewrite app_nil_r.
  destruct (parseInt_digits c ds rest Hdig Hstop) as [Hpos Hneg].
  destruct (z <? 0)%Z eqn:Ez.
  - apply Z.ltb_lt in Ez. cbn [app]. rewrite Hneg, Hval. f_equal. lia.
  - apply Z.ltb_ge in Ez. cbn [app]. rewrite Hpos, Hval. f_equal. lia.
Qed.
End Parsing.

Section Parameters.

Lemma parseInt_String_of_integer z : parseInt (String_of_integer z) = Some z.
Proof.
  unfold String_of_integer.
  destruct (decimal_digits_spec (S (N.to_nat (Z.to_N (Z.abs z)))) (Z.to_N (Z.abs z)) [])
    as (c & ds & -> & Hdig & Hval); [lia|].
  rewrite app_nil_r.
  destruct (parseInt_digits c ds [] Hdig eq_refl) as [Hpos Hneg].
  rewrite app_nil_r in Hpos, Hneg.
  destruct (z <? 0)%Z eqn:Ez.
  - apply Z.ltb_lt in Ez. rewrite Hneg, Hval. f_equal. lia.
  - apply Z.ltb_ge in Ez. rewrite Hpos, Hval. f_equal. lia.
Qed.

Lemma field_value_parsed el lo hi fallback n :
  el ≫= parseInt = Some n → field_value el lo hi fallback = Z.min hi (Z.max lo n).
Proof.
  unfold field_value, clampInt. destruct el as [value|]; [|done]. cbn. by intros ->.
Qed.

Lemma field_value_fallback el lo hi fallback :
  el ≫= parseInt = None → field_value el lo hi fallback = fallback.
Proof.
  unfold field_value, clampInt. destruct el as [value|]; [|done]. cbn. by intros ->.
Qed.

Lemma field_value_range el lo hi fallback :
  (lo ≤ hi)%Z → (lo ≤ fallback ≤ hi)%Z → (lo ≤ field_value el lo hi fallback ≤ hi)%Z.
Proof.
  intros Hlo Hfb. destruct (el ≫= parseInt) as [n|] eqn:E.
  - rewrite (field_value_parsed _ _ _ _ _ E). lia.
  - by rewrite (field_value_fallback _ _ _ _ E).
Qed.

Lemma field_value_String (present : option (list N)) z lo hi fallback :
  field_value ((λ _, String_of_integer z) <$> present) lo hi fallback
  = match present with
    | Some _ => Z.min hi (Z.max lo z)
    | None => fallback
    end.
Proof.
  destruct present; [|done]. cbn. unfold clampInt.
  by rewrite parseInt_String_of_integer.
Qed.

(** X16.  The ranges of the parameters that [getParameters] returns.
    [steps], [maxLevels], [dim] and the ensemble size are always inside
    their ranges.  [t0] and the observer level are inside theirs only
    when their field holds a number: an absent or unreadable field
    gives the fallback 30 (or 10) unclamped, whatever [steps] and
    [maxLevels] are.  When both time fields hold numbers,
    [0 <= t0 <= t1 <= steps - 1], and [t0 < t1] unless [t0] is the last
    index [steps - 1]. *)
Theorem getParameters_ranges (c : controls) :
  let p := getParameters c in
  (10 ≤ g_steps p ≤ 500)%Z ∧ (5 ≤ g_maxLevels p ≤ 100)%Z ∧ (2 ≤ g_dim p ≤ 40)%Z ∧
  (if g_multiverseEnabled p then (2 ≤ g_multiverseCount p ≤ 40)%Z
   else g_multiverseCount p = 0%Z) ∧
  (1 ≤ g_t1 p)%Z ∧
  match t0El c ≫= parseInt with
  | Some _ => (0 ≤ g_t0 p ≤ g_steps p - 1)%Z
  | None => g_t0 p = 30%Z
  end ∧
  match levelEl c ≫= parseInt with
  | Some _ => (0 ≤ g_obsLevel p ≤ g_maxLevels p - 1)%Z
  | None => g_obsLevel p = 10%Z
  end ∧
  (is_Some (t0El c ≫= parseInt) → is_Some (t1El c ≫= parseInt) →
   (g_t0 p ≤ g_t1 p ≤ g_steps p - 1)%Z ∧ (g_t0 p < g_t1 p ∨ g_t0 p = g_steps p - 1)%Z).
Proof.
  cbv zeta. unfold getParameters. cbn [g_steps g_maxLevels g_dim g_multiverseEnabled
    g_multiverseCount g_t0 g_t1 g_obsLevel].
  pose proof (field_value_range (stepsEl c) 10 500 120) as Hsteps.
  pose proof (field_value_range (levelsEl c) 5 100 60) as Hlevels.
  pose proof (field_value_range (dimEl c) 2 40 DEFAULT_DIM) as Hdim.
  pose proof (field_value_range (multiCountEl c) 2 40 10) as Hcount.
  unfold DEFAULT_DIM in *.
  set (steps := field_value (stepsEl c) 10 500 120) in *.
  set (maxLevels := field_value (levelsEl c) 5 100 60) in *.
  assert (Ht0 : match t0El c ≫= parseInt with
                | Some _ => (0 ≤ field_value (t0El c) 0 (steps - 1) 30 ≤ steps - 1)%Z
                | None => field_value (t0El c) 0 (steps - 1) 30 = 30%Z
                end).
  { destruct (t0El c ≫= parseInt) as [n|] eqn:E.
    - rewrite (field_value_parsed _ _ _ _ _ E). lia.
    - by rewrite (field_value_fallback _ _ _ _ E). }
  assert (Ht1 : match t1El c ≫= parseInt with
                | Some _ => (1 ≤ field_value (t1El c) 1 (steps - 1) 90 ≤ steps - 1)%Z
                | None => field_value (t1El c) 1 (steps - 1) 90 = 90%Z
                end).
  { destruct (t1El c ≫= parseInt) as [n|] eqn:E.
    - rewrite (field_value_parsed _ _ _ _ _ E). lia.
    - by rewrite (field_value_fallback _ _ _ _ E). }
  assert (Hobs : match levelEl c ≫= parseInt with
                 | Some _ => (0 ≤ field_value (levelEl c) 0 (maxLevels - 1) 10
                              ≤ maxLevels - 1)%Z
                 | None => field_value (levelEl c) 0 (maxLevels - 1) 10 = 10%Z
                 end).
  { destruct (levelEl c ≫= parseInt) as [n|] eqn:E.
    - rewrite (field_value_parsed _ _ _ _ _ E). lia.
    - by rewrite (field_value_fallback _ _ _ _ E). }
  set (t0 := field_value (t0El c) 0 (steps - 1) 30) in *.
  set (t1 := field_value (t1El c) 1 (steps - 1) 90) in *.
  split; [lia|]. split; [lia|]. split; [lia|].
  split; [destruct (default false (multiEl c)); lia|].
  split.
  { destruct (t1 <=? t0)%Z eqn:E; [|apply Z.leb_gt in E];
      destruct (t0El c ≫= parseInt), (t1El c ≫= parseInt); lia. }
  split; [done|]. split; [done|].
  intros [n0 Hn0] [n1 Hn1]. rewrite Hn0 in Ht0. rewrite Hn1 in Ht1.
  destruct (t1 <=? t0)%Z eqn:E; [apply Z.leb_le in E|apply Z.leb_gt in E]; lia.
Qed.

(** The parameters of the call that follows a write-back. *)
Lemma getParameters_written_back (c : controls) :
  getParameters (written_back c)
  = let p := getParameters c in
    let steps := g_steps p in
    let t0 := match t0El c with
              | Some _ => Z.min (steps - 1) (Z.max 0 (g_t0 p))
              | None => 30%Z
              end in
    let t1 := match t1El c with
              | Some _ => Z.min (steps - 1) (Z.max 1 (g_t1 p))
              | None => 90%Z
              end in
    let t1 := if (t1 <=? t0)%Z then Z.min (steps - 1) (t0 + 1) else t1 in
    IntegerParameters steps (g_maxLevels p) t0 t1 (g_obsLevel p) (g_dim p)
                      (g_multiverseEnabled p) (g_multiverseCount p).
Proof.
  unfold written_back. unfold getParameters at 1.
  cbn [stepsEl levelsEl t0El t1El levelEl dimEl multiEl multiCountEl].
  by rewrite !field_value_String.
Qed.

Lemma getParameters_range_steps (c : controls) :
  (10 ≤ g_steps (getParameters c) ≤ 500)%Z.
Proof. unfold getParameters. cbn [g_steps]. by apply field_value_range. Qed.

(** X17.  [getParameters] settles by its second call.  A call writes
    [t0] and [t1] back into their fields, so the next call reads its
    own output.  The second call may still change them (a fallback
    [t0 = 30] that was written unclamped is moved into
    [0 .. steps - 1]); the third call returns the parameters of the
    second and leaves the fields as the second left them. *)
Theorem getParameters_settles (c : controls) :
  let c1 := written_back c in
  let c2 := written_back c1 in
  getParameters c2 = getParameters c1 ∧ written_back c2 = c2.
Proof.
  cbv zeta.
  assert (Hstable : ∀ c', getParameters (written_back (written_back c'))
                          = getParameters (written_back c')).
  { intros c'.
    rewrite (getParameters_written_back (written_back c')).
    replace (t0El (written_back c'))
      with ((λ _ : list N, String_of_integer (g_t0 (getParameters c'))) <$> t0El c')
      by done.
    replace (t1El (written_back c'))
      with ((λ _ : list N, String_of_integer (g_t1 (getParameters c'))) <$> t1El c')
      by done.
    rewrite (getParameters_written_back c'). cbv zeta.
    cbn [g_steps g_maxLevels g_dim g_multiverseEnabled g_multiverseCount g_t0 g_t1
         g_obsLevel].
    pose proof (getParameters_range_steps c') as Hsteps.
    set (steps := g_steps (getParameters c')) in *.
    generalize (g_t0 (getParameters c')) (g_t1 (getParameters c')). intros t0 t1.
    destruct (t0El c') as [y0|], (t1El c') as [y1|]; cbn [fmap option_fmap option_map].
    all: f_equal; try lia.
    all: repeat match goal with
                | |- context [(?a <=? ?b)%Z] =>
                    let E := fresh "E" in
                    destruct (a <=? b)%Z eqn:E;
                    [apply Z.leb_le in E|apply Z.leb_gt in E]
                end; lia. }
  split; [apply Hstable|].
  specialize (Hstable c). set (c1 := written_back c) in *.
  assert (Hwb : ∀ c', written_back c'
            = Controls (stepsEl c') (levelsEl c')
                ((λ _, String_of_integer (g_t0 (getParameters c'))) <$> t0El c')
                ((λ _, String_of_integer (g_t1 (getParameters c'))) <$> t1El c')
                (levelEl c') (dimEl c') (multiEl c') (multiCountEl c')) by done.
  rewrite (Hwb (written_back c1)), Hstable. rewrite (Hwb c1).
  cbn [stepsEl levelsEl t0El t1El levelEl dimEl multiEl multiCountEl].
  f_equal.
  - by destruct (t0El c1).
  - by destruct (t1El c1).
Qed.
End Parameters.

Section Callers.
Context {T : Type} `{JSNumber T} `{JSMath T}.
Variable draws : nat -> T.

(** [retro_influence] never throws on a universe whose [history] holds
    vectors, and touches nothing but one entry of [history]. *)
Lemma retro_influence_returns (u : universe T) t_future t_past strength :
  ∃ u', retro_influence u t_future t_past strength = Returned u' ∧
    length (history u') = length (history u) ∧
    levels u' = levels u ∧ dim u' = dim u.
Proof.
  unfold retro_influence, get_state. cbn [Nat.eqb].
  destruct (length (history u) <=? t_future) eqn:E1; [by exists u|].
  destruct (length (history u) <=? t_past) eqn:E2; [by exists u|].
  apply Nat.leb_gt in E1, E2. cbn [orb].
  destruct (lookup_lt_is_Some_2 (history u) t_future E1) as [f ->].
  destruct (lookup_lt_is_Some_2 (history u) t_past E2) as [p ->].
  cbn [from_option]. eexists. split; [done|].
  cbn [history levels dim set_history]. by rewrite length_insert.
Qed.

Lemma get_state_0_Value (u : universe T) t :
  (∃ v, get_state u t 0 = Value v) ↔ t < length (history u).
Proof.
  unfold get_state. cbn [Nat.eqb]. split.
  - intros [v Hv]. destruct (history u !! t) eqn:E; [|done].
    by apply lookup_lt_Some in E.
  - intros Ht. destruct (lookup_lt_is_Some_2 (history u) t Ht) as [v ->]. by exists v.
Qed.

(** When the engine part of [runBrowserSimulation] runs through. *)
Lemma simulation_metrics_is_Some (p : parameters T) cur :
  is_Some (simulation_metrics draws p cur) ↔
    (0 ≤ p_dim p < 2 ^ 32)%Z ∧
    p_t0 p < Nat.max 1 (p_steps p) ∧
    (p_obsLevel p = 0 ∨ (1 ≤ p_t0 p ∧ p_obsLevel p < Nat.max 1 (p_maxLevels p))).
Proof.
  unfold simulation_metrics, new_LivingUniverse.
  destruct (construct draws (p_dim p) (p_modelType p) (p_systemType p) None cur)
    as [u0 c0] eqn:Ec.
  pose proof (construct_fields draws (p_dim p) (p_modelType p) (p_systemType p) None cur)
    as (Hd0 & Hh0 & Hl0).
  cbv zeta in Hd0, Hh0, Hl0. rewrite Ec in Hd0, Hh0, Hl0. cbn [fst] in Hd0, Hh0, Hl0.
  assert (Hone : length (history u0) = 1) by (by rewrite Hh0).
  pose proof (run_shape draws u0 c0 (p_steps p) (p_maxLevels p) Hone) as Hshape.
  cbv zeta in Hshape.
  destruct (run draws u0 (p_steps p) (p_maxLevels p) c0) as [[u1 c1]|[u1 c1]];
    destruct Hshape as (Hret & Hlen & _ & Hd1 & _ & _ & Hnone & Hrows); [|done].
  cbn [final_state fst] in Hlen, Hd1, Hnone, Hrows.
  destruct (retro_influence_returns u1 (p_t1 p) (p_t0 p) (p_strength p))
    as (u2 & -> & Hlen2 & Hlev2 & Hd2).
  pose proof (get_state_0_Value u1 (p_t0 p)) as Hg1.
  pose proof (get_state_0_Value u2 (p_t0 p)) as Hg2.
  rewrite Hlen2 in Hg2. rewrite Hlen in Hg1, Hg2.
  destruct (decide (p_t0 p < Nat.max 1 (p_steps p))) as [Ht0|Ht0]; cycle 1.
  { split; [|by intros (_ & ? & _)].
    destruct (get_state u1 (p_t0 p) 0) as [v| |]; try by intros [].
    exfalso. apply Ht0, Hg1. by exists v. }
  destruct (proj2 Hg1 Ht0) as [before ->]. destruct (proj2 Hg2 Ht0) as [after Hafter].
  rewrite Hafter.
  assert (Hdim : (0 ≤ p_dim p < 2 ^ 32)%Z ↔ (0 ≤ dim u2 < 2 ^ 32)%Z).
  { rewrite Hd2, Hd1, Hd0. unfold DEFAULT_DIM. case_decide; lia. }
  unfold infinite_state, zeros.
  destruct (decide (0 ≤ dim u2 < 2 ^ 32)%Z) as [Hdok|Hdok]; cycle 1.
  { cbn [mbind option_bind]. split; [by intros []|].
    intros (? & _). exfalso. by apply Hdok, Hdim. }
  apply Hdim in Hdok. cbn [mbind option_bind].
  unfold perceive, get_state, norm_of.
  destruct (p_obsLevel p =? 0) eqn:El.
  { apply Nat.eqb_eq in El.
    destruct (lookup_lt_is_Some_2 (history u2) (p_t0 p)) as [v ->]; [lia|].
    cbn. split; [intros _; split; [done|split; [done|by left]]|by eexists]. }
  apply Nat.eqb_neq in El. rewrite Hlev2.
  destruct (decide (1 ≤ p_t0 p < p_steps p)) as [Ht|Ht].
  - destruct (Hrows _ Ht) as (base & row & _ & -> & _ & Hdom).
    destruct (row !! p_obsLevel p) as [v|] eqn:Ev; cbn.
    + split; [|by eexists]. intros _. do 2 (split; [done|]). right.
      split; [lia|]. apply Hdom. by eexists.
    + split; [by intros []|]. intros (_ & _ & [?|[_ Hl]]); [done|].
      apply Hdom in Hl. rewrite Ev in Hl. by destruct Hl.
  - rewrite Hnone, Hl0, lookup_empty by done. cbn.
    split; [by intros []|]. intros (_ & _ & [?|[? _]]); [done|lia].
Qed.
End Callers.

Section Page.
Context {T : Type} `{JSNumber T} `{JSMath T}.
Variable draws : nat -> T.

Lemma getParameters_bounds (c : controls) :
  let g := getParameters c in
  (10 ≤ g_steps g ≤ 500)%Z ∧ (5 ≤ g_maxLevels g ≤ 100)%Z ∧ (2 ≤ g_dim g ≤ 40)%Z ∧
  (0 ≤ g_t0 g)%Z ∧ (0 ≤ g_t1 g)%Z ∧ (0 ≤ g_obsLevel g)%Z ∧
  (is_Some (t0El c ≫= parseInt) → (g_t0 g ≤ g_steps g - 1)%Z) ∧
  (is_Some (levelEl c ≫= parseInt) → (g_obsLevel g ≤ g_maxLevels g - 1)%Z).
Proof.
  cbv zeta. unfold getParameters. cbn [g_steps g_maxLevels g_dim g_t0 g_t1 g_obsLevel].
  pose proof (field_value_range (stepsEl c) 10 500 120) as Hsteps.
  pose proof (field_value_range (levelsEl c) 5 100 60) as Hlevels.
  pose proof (field_value_range (dimEl c) 2 40 DEFAULT_DIM) as Hdim.
  unfold DEFAULT_DIM in *.
  set (steps := field_value (stepsEl c) 10 500 120) in *.
  set (maxLevels := field_value (levelsEl c) 5 100 60) in *.
  assert (Ht0 : (0 ≤ field_value (t0El c) 0 (steps - 1) 30)%Z ∧
                (is_Some (t0El c ≫= parseInt) →
                 (field_value (t0El c) 0 (steps - 1) 30 ≤ steps - 1)%Z)).
  { destruct (t0El c ≫= parseInt) as [n|] eqn:E.
    - rewrite (field_value_parsed _ _ _ _ _ E). lia.
    - rewrite (field_value_fallback _ _ _ _ E). split; [lia|]. by intros []. }
  assert (Ht1 : (0 ≤ field_value (t1El c) 1 (steps - 1) 90)%Z).
  { destruct (t1El c ≫= parseInt) as [n|] eqn:E.
    - rewrite (field_value_parsed _ _ _ _ _ E). lia.
    - rewrite (field_value_fallback _ _ _ _ E). lia. }
  assert (Hobs : (0 ≤ field_value (levelEl c) 0 (maxLevels - 1) 10)%Z ∧
                 (is_Some (levelEl c ≫= parseInt) →
                  (field_value (levelEl c) 0 (maxLevels - 1) 10 ≤ maxLevels - 1)%Z)).
  { destruct (levelEl c ≫= parseInt) as [n|] eqn:E.
    - rewrite (field_value_parsed _ _ _ _ _ E). lia.
    - rewrite (field_value_fallback _ _ _ _ E). split; [lia|]. by intros []. }
  set (t0 := field_value (t0El c) 0 (steps - 1) 30) in *.
  set (t1 := field_value (t1El c) 1 (steps - 1) 90) in *.
  destruct Ht0 as [Ht0 Hp0]. destruct Hobs as [Hobs Hpl].
  do 3 (split; [lia|]). split; [lia|].
  split; [destruct (t1 <=? t0)%Z; lia|]. by split.
Qed.

(** X18.  When the engine part of [runBrowserSimulation] runs through
    (construct, run, read the state at [t0], retro-influence, read
    again, aggregate, observe): exactly when [dim] is a valid array
    length, [t0] is a time of the run, and the observer either looks at
    level 0 or at a level below [maxLevels] at a time [t0 >= 1].  So it
    throws for [t0 = 0] with an observer level [>= 1], where [levels]
    has no row, and for a [t0] beyond the run. *)
Theorem simulation_metrics_runs_through (p : parameters T) cur :
  is_Some (simulation_metrics draws p cur) ↔
    (0 ≤ p_dim p < 2 ^ 32)%Z ∧
    p_t0 p < Nat.max 1 (p_steps p) ∧
    (p_obsLevel p = 0 ∨ (1 ≤ p_t0 p ∧ p_obsLevel p < Nat.max 1 (p_maxLevels p))).
Proof. apply simulation_metrics_is_Some. Qed.

(** X19.  The same for the parameters that [getParameters] reads from
    the page.  The run goes through exactly when [t0 < steps] and the
    observer level is 0 or [t0 >= 1] with a level below [maxLevels].
    When the fields of [t0] and of the level hold numbers this leaves
    one failing case: [t0 = 0] with an observer level [>= 1]. *)
Theorem page_run_goes_through (c : controls) strength modelType systemType cur :
  let g := getParameters c in
  let out := simulation_metrics draws
               (engine_parameters g strength modelType systemType) cur in
  (is_Some out ↔
     (g_t0 g < g_steps g)%Z ∧
     (g_obsLevel g = 0 ∨ (1 ≤ g_t0 g ∧ g_obsLevel g < g_maxLevels g))%Z) ∧
  (is_Some (t0El c ≫= parseInt) → is_Some (levelEl c ≫= parseInt) →
   (is_Some out ↔ (g_obsLevel g = 0 ∨ 1 ≤ g_t0 g)%Z)).
Proof.
  cbv zeta.
  pose proof (getParameters_bounds c) as (Hs & Hm & Hd & Ht0 & _ & Hl & Hp0 & Hpl).
  cbv zeta in Hs, Hm, Hd, Ht0, Hl, Hp0, Hpl.
  rewrite simulation_metrics_is_Some. unfold engine_parameters.
  cbn [p_dim p_t0 p_steps p_obsLevel p_maxLevels].
  set (g := getParameters c) in *.
  split.
  - split.
    + intros (_ & Ht & Hobs). split; [lia|]. destruct Hobs as [Hobs|Hobs]; [left|right]; lia.
    + intros (Ht & Hobs). split; [lia|]. split; [lia|].
      destruct Hobs as [Hobs|Hobs]; [left|right]; lia.
  - intros Hnum0 Hlv. specialize (Hp0 Hnum0). specialize (Hpl Hlv). split.
    + intros (_ & Ht & Hobs). destruct Hobs as [Hobs|Hobs]; [left|right]; lia.
    + intros Hobs. split; [lia|]. split; [lia|].
      destruct Hobs as [Hobs|Hobs]; [left|right]; lia.
Qed.
End Page.

Section Ensemble.
Context {T : Type} `{JSNumber T} `{JSMath T}.
Variable draws : nat -> T.

(** One round of the ensemble, written out: the only statements that
    can throw are the two [norm] calls on an undefined state and the
    [zeros] of [infinite_state]. *)
Lemma ensemble_round_spec (p : parameters T) acc cur :
  ∃ u0 c0 u1 c1 u2,
    construct draws (p_dim p) (p_modelType p) (p_systemType p) None cur = (u0, c0) ∧
    run draws u0 (p_steps p) (p_maxLevels p) c0 = Returned (u1, c1) ∧
    retro_influence u1 (p_t1 p) (p_t0 p) (p_strength p) = Returned u2 ∧
    length (history u1) = Nat.max 1 (p_steps p) ∧
    length (history u2) = Nat.max 1 (p_steps p) ∧
    dim u2 = (if decide (p_dim p = 0%Z) then DEFAULT_DIM else p_dim p) ∧
    ensemble_round draws p (acc, cur)
    = match history u1 !! p_t0 p, history u2 !! p_t0 p, infinite_state u2 (p_t0 p) with
      | Some before, Some after, Some inf_state =>
          Returned (Sums (sumInf acc + norm inf_state)%js
                         (sumDelta acc + (norm after - norm before))%js
                         (sumInfSq acc + norm inf_state * norm inf_state)%js,
                    c1)
      | _, _, _ => Threw (acc, c1)
      end.
Proof.
  unfold ensemble_round, new_LivingUniverse.
  destruct (construct draws (p_dim p) (p_modelType p) (p_systemType p) None cur)
    as [u0 c0] eqn:Ec.
  pose proof (construct_fields draws (p_dim p) (p_modelType p) (p_systemType p) None cur)
    as (Hd0 & Hh0 & _).
  cbv zeta in Hd0, Hh0. rewrite Ec in Hd0, Hh0. cbn [fst snd] in *.
  assert (Hone : length (history u0) = 1) by (by rewrite Hh0).
  pose proof (run_shape draws u0 c0 (p_steps p) (p_maxLevels p) Hone) as Hshape.
  cbv zeta in Hshape.
  destruct (run draws u0 (p_steps p) (p_maxLevels p) c0) as [[u1 c1]|[u1 c1]] eqn:Erun;
    destruct Hshape as (Hret & Hlen & _ & Hd1 & _); [|done].
  cbn [final_state fst snd] in *.
  destruct (retro_influence_returns u1 (p_t1 p) (p_t0 p) (p_strength p))
    as (u2 & Hretro & Hlen2 & _ & Hd2).
  exists u0, c0, u1, c1, u2. rewrite Hretro.
  do 3 (split; [done|]). split; [done|]. split; [by rewrite Hlen2|].
  split; [by rewrite Hd2, Hd1|].
  unfold get_state. cbn [Nat.eqb].
  destruct (history u1 !! p_t0 p) as [before|] eqn:Hb; cbn [from_option norm_of]; [|done].
  destruct (history u2 !! p_t0 p) as [after|] eqn:Ha; cbn [from_option norm_of].
  - by destruct (infinite_state u2 (p_t0 p)).
  - apply lookup_lt_Some in Hb. apply lookup_ge_None in Ha. lia.
Qed.

Lemma ensemble_round_returned (p : parameters T) st :
  returned (ensemble_round draws p st) = true ↔
  (0 ≤ p_dim p < 2 ^ 32)%Z ∧ p_t0 p < Nat.max 1 (p_steps p).
Proof.
  destruct st as [acc cur].
  destruct (ensemble_round_spec p acc cur)
    as (u0 & c0 & u1 & c1 & u2 & _ & _ & _ & Hlen1 & Hlen2 & Hdim & ->).
  pose proof (infinite_state_has_dim u2 (p_t0 p)) as Hinf.
  assert (Hok : (0 ≤ dim u2 < 2 ^ 32)%Z ↔ (0 ≤ p_dim p < 2 ^ 32)%Z).
  { rewrite Hdim. unfold DEFAULT_DIM. case_decide; lia. }
  destruct (decide (p_t0 p < Nat.max 1 (p_steps p))) as [Ht|Ht].
  - destruct (lookup_lt_is_Some_2 (history u1) (p_t0 p)) as [b ->]; [lia|].
    destruct (lookup_lt_is_Some_2 (history u2) (p_t0 p)) as [a ->]; [lia|].
    destruct (infinite_state u2 (p_t0 p)) as [v|]; cbn [returned].
    + split; [intros _|done]. split; [|done]. apply Hok.
      destruct (decide (0 ≤ dim u2 < 2 ^ 32)%Z) as [|Hno]; [done|].
      by apply Hinf in Hno.
    + split; [done|]. intros [Hd _]. exfalso.
      apply Hok in Hd. destruct Hinf as [Hinf _]. by apply Hinf in Hd.
  - rewrite (lookup_ge_None_2 (history u1)) by lia. cbn [returned].
    split; [done|]. by intros [_ ?].
Qed.

Lemma ensemble_loop_returned (p : parameters T) count : ∀ st,
  returned (ensemble_loop draws p count st) = true ↔
  count = 0 ∨ ((0 ≤ p_dim p < 2 ^ 32)%Z ∧ p_t0 p < Nat.max 1 (p_steps p)).
Proof.
  induction count as [|count IH]; intros st.
  - cbn. split; [by left|done].
  - cbn [ensemble_loop].
    pose proof (ensemble_round_returned p st) as Hround.
    destruct (ensemble_round draws p st) as [st'|st']; cbn [returned] in *.
    + rewrite IH. split; [intros _; right; by apply Hround|].
      intros [?|?]; [lia|by right].
    + split; [done|]. intros [?|Hc]; [lia|]. by apply Hround in Hc.
Qed.

(** X20.  What [updateMultiverseStats] does.  It computes nothing when
    the mode is off or the count is 0.  Otherwise it samples [count]
    universes and computes the three statistics exactly when [dim] is a
    valid array length and [t0] is a time of the run, and throws in all
    other cases; the observer level plays no part. *)
Theorem updateMultiverseStats_outcome enabled count (p : parameters T) cur :
  match (updateMultiverseStats draws enabled count p cur).1 with
  | NoStatistics => enabled = false ∨ count = 0
  | Statistics _ _ _ =>
      enabled = true ∧ 0 < count ∧
      (0 ≤ p_dim p < 2 ^ 32)%Z ∧ p_t0 p < Nat.max 1 (p_steps p)
  | StatisticsThrew =>
      enabled = true ∧ 0 < count ∧
      ¬ ((0 ≤ p_dim p < 2 ^ 32)%Z ∧ p_t0 p < Nat.max 1 (p_steps p))
  end.
Proof.
  unfold updateMultiverseStats.
  destruct enabled; cbn [negb orb]; [|by left].
  destruct (count =? 0) eqn:Ec; [apply Nat.eqb_eq in Ec; by right|].
  apply Nat.eqb_neq in Ec.
  pose proof (ensemble_loop_returned p count (Sums (lit 0) (lit 0) (lit 0), cur)) as Hloop.
  destruct (ensemble_loop draws p count (Sums (lit 0) (lit 0) (lit 0), cur))
    as [[acc c]|[acc c]]; cbn [returned fst] in *.
  - do 2 (split; [done || lia|]). destruct Hloop as [Hloop _].
    destruct (Hloop eq_refl) as [?|?]; [lia|done].
  - do 2 (split; [done || lia|]). intros Hc.
    destruct Hloop as [_ Hloop]. by specialize (Hloop (or_intror Hc)).
Qed.
End Ensemble.

Section EnsembleReal.
Variable draws : nat → jsnum.
Hypothesis real_draws : ∀ k, is_real (draws k).

Lemma norm_real (v : vec jsnum) :
  real_vector v → ∃ r, norm v = Num r ∧ (0 <= r)%R.
Proof.
  intros Hv. unfold norm.
  destruct (squares_loop v (length v) Hv) as (e & -> & He & _); [done|].
  cbn. destruct (Rle_dec 0 e) as [_|Hn]; [|done].
  exists (sqrt e). split; [done|apply sqrt_pos].
Qed.

Lemma real_accumulate (acc s : vec jsnum) w :
  real_vector acc → real_vector s → length acc ≤ length s → is_real w →
  real_vector (accumulate acc s w).
Proof.
  intros Hacc Hs Hlen Hw. apply real_imap. intros j a Ha.
  pose proof (lookup_lt_Some _ _ _ Ha).
  apply real_add; [by apply (Forall_lookup_1 _ _ _ _ Hacc Ha)|].
  apply real_mul; [|done]. apply real_at_index; [done|lia].
Qed.

Lemma real_foldl_accumulate n (levelMap : gmap nat (vec jsnum)) keys : ∀ acc,
  (∀ i, i ∈ keys → ∃ s, levelMap !! i = Some s ∧ real_vector s ∧ length s = n) →
  real_vector acc → length acc ≤ n →
  real_vector (foldl (λ acc i, accumulate acc (default [] (levelMap !! i)) (weight i))
                 acc keys).
Proof.
  induction keys as [|k keys IH]; intros acc Hkeys Hacc Hl; [exact Hacc|].
  cbn [foldl]. apply IH.
  - intros i Hi. apply Hkeys. by right.
  - destruct (Hkeys k) as (s & -> & Hs & Hsl); [by left|].
    change (default [] (Some s)) with s.
    apply real_accumulate; [done|done|lia|done].
  - by rewrite length_accumulate.
Qed.

(** The aggregate of a universe of real vectors that are at least [dim]
    long is real. *)
Lemma real_infinite_state n (u : universe jsnum) t v :
  all_length n u → real_universe u → Z.to_nat (dim u) ≤ n →
  infinite_state u t = Some v → real_vector v.
Proof.
  intros [_ Hlen] [_ Hreal] Hdim. unfold infinite_state, zeros, sorted_keys.
  case_decide; [|done]. cbn [mbind option_bind]. intros [= <-].
  apply (real_foldl_accumulate n).
  - intros i. rewrite merge_sort_Permutation, elem_of_elements, elem_of_dom.
    intros [s Hs]. exists s. split; [done|].
    destruct (levels u !! t) as [row|] eqn:Hrow; cbn [from_option] in Hs;
      [|by rewrite lookup_empty in Hs].
    split; [by apply (Hreal t row i)|by apply (Hlen t row i)].
  - by apply Forall_replicate.
  - by rewrite length_replicate.
Qed.

(** In real arithmetic a round of the ensemble that returns adds a
    norm, which is never negative, to the first sum and real numbers to
    the other two. *)
Lemma ensemble_round_real (p : parameters jsnum) (s a b c : R) cur :
  p_strength p = Num s →
  (0 ≤ p_dim p < 2 ^ 32)%Z → p_t0 p < Nat.max 1 (p_steps p) →
  ∃ (inf delta : R) cur',
    ensemble_round draws p (Sums (Num a) (Num b) (Num c), cur)
    = Returned (Sums (Num (a + inf)) (Num (b + delta)) (Num (c + inf * inf)), cur') ∧
    (0 <= inf)%R.
Proof.
  intros Hs Hd Ht.
  destruct (ensemble_round_spec draws p (Sums (Num a) (Num b) (Num c)) cur)
    as (u0 & c0 & u1 & c1 & u2 & Hc & Hrun & Hretro & Hlen1 & Hlen2 & Hdim & ->).
  pose proof (construct_fields draws (p_dim p) (p_modelType p) (p_systemType p) None cur)
    as (Hd0 & Hh0 & Hl0).
  cbv zeta in Hd0, Hh0, Hl0. rewrite Hc in Hd0, Hh0, Hl0. cbn [fst] in Hd0, Hh0, Hl0.
  set (n := Z.to_nat (dim u0)).
  assert (Hall0 : all_length n u0).
  { split.
    - rewrite Hh0. apply Forall_singleton. apply length_randVec.
    - intros t row level v. by rewrite Hl0, lookup_empty. }
  assert (Hreal0 : real_universe u0).
  { split.
    - rewrite Hh0. apply Forall_singleton. cbn.
      apply Forall_fmap, Forall_forall. intros k _. apply real_draws.
    - intros t row level v. by rewrite Hl0, lookup_empty. }
  pose proof (run_from_all_length draws n (p_maxLevels p) (p_steps p - 1) 1 u0 c0 Hall0)
    as [Hall1 Hd1].
  pose proof (run_from_stays_real draws real_draws n (p_maxLevels p) (p_steps p - 1) 1
                u0 c0 Hall0 Hreal0) as Hreal1.
  unfold run in Hrun. rewrite Hrun in Hall1, Hd1, Hreal1.
  cbn [final_state fst] in Hall1, Hd1, Hreal1.
  pose proof (retro_influence_all_length n u1 (p_t1 p) (p_t0 p) (p_strength p) Hall1)
    as [Hall2 Hd2].
  pose proof (retro_influence_stays_real n u1 (p_t1 p) (p_t0 p) s Hall1 Hreal1) as Hreal2.
  rewrite <- Hs in Hreal2. rewrite Hretro in Hall2, Hd2, Hreal2.
  cbn [final_state] in Hall2, Hd2, Hreal2.
  destruct (lookup_lt_is_Some_2 (history u1) (p_t0 p)) as [before Hb]; [lia|].
  destruct (lookup_lt_is_Some_2 (history u2) (p_t0 p)) as [after Ha]; [lia|].
  rewrite Hb, Ha.
  destruct (infinite_state u2 (p_t0 p)) as [inf_state|] eqn:Hinf; cycle 1.
  { apply infinite_state_has_dim in Hinf. exfalso. apply Hinf.
    rewrite Hdim. unfold DEFAULT_DIM. case_decide; lia. }
  destruct (norm_real before) as (nb & -> & _);
    [by apply (Forall_lookup_1 _ _ _ _ (proj1 Hreal1) Hb)|].
  destruct (norm_real after) as (na & -> & _);
    [by apply (Forall_lookup_1 _ _ _ _ (proj1 Hreal2) Ha)|].
  destruct (norm_real inf_state) as (ni & -> & Hni).
  { apply (real_infinite_state n u2 (p_t0 p)); try done. rewrite Hd2, Hd1. unfold n. lia. }
  by exists ni, (na - nb)%R, c1.
Qed.

Lemma ensemble_loop_real (p : parameters jsnum) (s : R) count : ∀ (a b c : R) cur,
  p_strength p = Num s →
  (0 ≤ p_dim p < 2 ^ 32)%Z → p_t0 p < Nat.max 1 (p_steps p) →
  (0 <= a)%R →
  ∃ (a' b' c' : R) cur',
    ensemble_loop draws p count (Sums (Num a) (Num b) (Num c), cur)
    = Returned (Sums (Num a') (Num b') (Num c'), cur') ∧
    (0 <= a')%R.
Proof.
  induction count as [|count IH]; intros a b c cur Hs Hd Ht Ha.
  - by exists a, b, c, cur.
  - cbn [ensemble_loop].
    destruct (ensemble_round_real p s a b c cur Hs Hd Ht) as (inf & delta & cur1 & -> & Hinf).
    apply IH; try done. lra.
Qed.

(** X21.  In real arithmetic the ensemble statistics are numbers.  With
    the mode on, a count of at least 1, a real strength, real draws, a
    valid [dim] and a [t0] inside the run, [updateMultiverseStats]
    computes three real numbers, of which the mean norm and the
    variance are never negative. *)
Theorem ensemble_statistics_are_real (p : parameters jsnum) (s : R) count cur :
  p_strength p = Num s →
  (0 ≤ p_dim p < 2 ^ 32)%Z → p_t0 p < Nat.max 1 (p_steps p) →
  0 < count →
  ∃ (meanInf meanDelta varInf : R) cur',
    updateMultiverseStats draws true count p cur
    = (Statistics (Num meanInf) (Num meanDelta) (Num varInf), cur') ∧
    (0 <= meanInf)%R ∧ (0 <= varInf)%R.
Proof.
  intros Hs Hd Ht Hcount. unfold updateMultiverseStats. cbn [negb orb].
  destruct (count =? 0) eqn:Ec; [apply Nat.eqb_eq in Ec; lia|].
  change (lit 0) with (Num (Q2R 0)).
  destruct (ensemble_loop_real p s count (Q2R 0) (Q2R 0) (Q2R 0) cur Hs Hd Ht)
    as (a & b & c & cur' & -> & Ha); [rewrite Q2R_zero; lra|].
  cbn [sumInf sumDelta sumInfSq].
  unfold lit_nat. change (lit ?q) with (Num (Q2R q)). rewrite Q2R_inject_nat.
  assert (0 < INR count)%R as Hn by (apply lt_0_INR; lia).
  eexists _, _, _, cur'. split; [reflexivity|]. split.
  - apply Rmult_le_pos; [done|]. left. by apply Rinv_0_lt_compat.
  - rewrite Q2R_zero. apply Rmax_l.
Qed.
End EnsembleReal.

Section LastRuns.
Context {A : Type}.

Lemma shift_to_five_drop {B : Type} (historyArr : list B) :
  shift_to_five historyArr = drop (length historyArr - 5) historyArr.
Proof.
  induction historyArr as [|x rest IH]; [done|].
  cbn [shift_to_five]. destruct (5 <? length (x :: rest)) eqn:E.
  - apply Nat.ltb_lt in E. cbn [length] in *. rewrite IH.
    by replace (S (length rest) - 5) with (S (length rest - 5)) by lia.
  - apply Nat.ltb_ge in E. by replace (length (x :: rest) - 5) with 0 by lia.
Qed.

(** X22.  The list of the last runs.  After any number of runs it holds
    the five most recent ones, oldest first, and run number [k]
    (counted from 1) carries the id [min(k, 6)]: the id is taken from
    the length of the list, which stays at 5, so from the sixth run on
    every new entry is numbered 6. *)
Theorem record_run_ids (runs : list A) :
  foldl record_run [] runs
  = drop (length runs - 5) (imap (λ k fields, (Nat.min (k + 1) 6, fields)) runs).
Proof.
  induction runs as [|fields runs IH] using rev_ind; [done|].
  rewrite foldl_app. cbn [foldl]. rewrite IH. unfold record_run.
  rewrite shift_to_five_drop, imap_app, !length_app, length_drop, length_imap.
  cbn [imap length]. rewrite Nat.add_0_r.
  set (ids := imap (λ k f, (Nat.min (k + 1) 6, f)) runs).
  assert (Hlen : length ids = length runs) by apply length_imap.
  replace (length runs - (length runs - 5) + 1) with (Nat.min (length runs + 1) 6) by lia.
  set (entry := (Nat.min (length runs + 1) 6, fields)).
  rewrite !drop_app, !length_drop, Hlen, drop_drop.
  replace (length runs - 5 + (Nat.min (length runs + 1) 6 - 5)) with (length runs + 1 - 5)
    by lia.
  f_equal. f_equal. lia.
Qed.
End LastRuns.

Section Signal.
Context {T : Type} `{JSNumber T} `{JSMath T}.
Variable draws : nat -> T.

(** The engine part of [runBrowserSimulation], written out.  The
    aggregate and every level from 1 on are read from [levels], which
    [retro_influence] leaves alone, so they can be read before it. *)
Lemma simulation_metrics_spec (p : parameters T) cur :
  ∃ u0 c0 u1 c1 u2,
    construct draws (p_dim p) (p_modelType p) (p_systemType p) None cur = (u0, c0) ∧
    run draws u0 (p_steps p) (p_maxLevels p) c0 = Returned (u1, c1) ∧
    retro_influence u1 (p_t1 p) (p_t0 p) (p_strength p) = Returned u2 ∧
    simulation_metrics draws p cur
    = match history u1 !! p_t0 p, history u2 !! p_t0 p with
      | Some state_before, Some state_after =>
          inf_state ← infinite_state u1 (p_t0 p);
          obs_norm ← norm_of (if p_obsLevel p =? 0 then Value state_after
                              else perceive u1 (p_obsLevel p) (p_t0 p));
          Some (Metrics (norm state_before) (norm state_after)
                  (norm state_after - norm state_before)%js
                  (energy_of (p_modelType p) state_after (norm state_after)
                   - energy_of (p_modelType p) state_before (norm state_before))%js
                  (norm inf_state) obs_norm (norm <$> history u2), c1)
      | _, _ => None
      end.
Proof.
  unfold simulation_metrics, new_LivingUniverse.
  destruct (construct draws (p_dim p) (p_modelType p) (p_systemType p) None cur)
    as [u0 c0] eqn:Ec.
  pose proof (construct_fields draws (p_dim p) (p_modelType p) (p_systemType p) None cur)
    as (_ & Hh0 & _).
  cbv zeta in Hh0. rewrite Ec in Hh0. cbn [fst snd] in *.
  assert (Hone : length (history u0) = 1) by (by rewrite Hh0).
  pose proof (run_shape draws u0 c0 (p_steps p) (p_maxLevels p) Hone) as Hshape.
  cbv zeta in Hshape.
  destruct (run draws u0 (p_steps p) (p_maxLevels p) c0) as [[u1 c1]|[u1 c1]] eqn:Erun;
    destruct Hshape as (Hret & _); [|done].
  destruct (retro_influence_returns u1 (p_t1 p) (p_t0 p) (p_strength p))
    as (u2 & Hretro & Hlen2 & Hlev2 & Hd2).
  exists u0, c0, u1, c1, u2. rewrite Hretro.
  do 3 (split; [done|]).
  unfold perceive, get_state. cbn [Nat.eqb].
  destruct (history u1 !! p_t0 p) as [before|] eqn:Hb; cbn [from_option]; [|done].
  destruct (history u2 !! p_t0 p) as [after|] eqn:Ha; cbn [from_option];
    [|apply lookup_lt_Some in Hb; apply lookup_ge_None in Ha; lia].
  unfold infinite_state. rewrite Hlev2, Hd2.
  by destruct (p_obsLevel p =? 0).
Qed.

(** X23.  The retrocausal signal does not reach the aggregate.  Run the
    engine part of [runBrowserSimulation] twice from the same random
    draws, with another [t1] and another strength: both runs throw or
    both return, and then they show the same norm of the state before
    the signal, the same norm of [infinite_state(t0)] and, for an
    observer level [>= 1], the same observer norm.  [retro_influence]
    replaces [history[t0]] and never writes to [levels], from which the
    aggregate and the higher levels are read. *)
Theorem signal_does_not_reach_aggregate (p : parameters T) t1' strength' cur :
  let p' := Parameters (p_steps p) (p_maxLevels p) (p_t0 p) t1' strength'
              (p_obsLevel p) (p_dim p) (p_modelType p) (p_systemType p) in
  let shown (level_0 : bool) (out : metrics T * nat) :=
    (norm_before out.1, inf_norm out.1,
     if level_0 then None else Some (obs_norm out.1), out.2) in
  shown (p_obsLevel p =? 0) <$> simulation_metrics draws p' cur
  = shown (p_obsLevel p =? 0) <$> simulation_metrics draws p cur.
Proof.
  cbv zeta.
  destruct (simulation_metrics_spec p cur)
    as (u0 & c0 & u1 & c1 & u2 & Hc & Hrun & Hretro & ->).
  destruct (simulation_metrics_spec
              (Parameters (p_steps p) (p_maxLevels p) (p_t0 p) t1' strength'
                 (p_obsLevel p) (p_dim p) (p_modelType p) (p_systemType p)) cur)
    as (u0' & c0' & u1' & c1' & u2' & Hc' & Hrun' & Hretro' & ->).
  cbn [p_steps p_maxLevels p_t0 p_t1 p_strength p_obsLevel p_dim p_modelType p_systemType]
    in *.
  rewrite Hc in Hc'. injection Hc' as <- <-.
  rewrite Hrun in Hrun'. injection Hrun' as <- <-.
  destruct (retro_influence_returns u1 (p_t1 p) (p_t0 p) (p_strength p))
    as (v & Hv & Hlen & _). rewrite Hretro in Hv. injection Hv as <-.
  destruct (retro_influence_returns u1 t1' (p_t0 p) strength')
    as (v & Hv & Hlen' & _). rewrite Hretro' in Hv. injection Hv as <-.
  destruct (history u1 !! p_t0 p) as [before|] eqn:Hb; cycle 1.
  { done. }
  destruct (lookup_lt_is_Some_2 (history u2) (p_t0 p)) as [a ->];
    [apply lookup_lt_Some in Hb; lia|].
  destruct (lookup_lt_is_Some_2 (history u2') (p_t0 p)) as [a' ->];
    [apply lookup_lt_Some in Hb; lia|].
  destruct (infinite_state u1 (p_t0 p)) as [inf_state|]; [|done].
  cbn [mbind option_bind].
  destruct (p_obsLevel p =? 0); cbn [norm_of mbind option_bind fmap option_fmap option_map].
  - done.
  - by destruct (norm_of (perceive u1 (p_obsLevel p) (p_t0 p))).
Qed.
End Signal.

(** * The further properties at concrete inputs *)

Section FurtherWitnesses.

Lemma step_beyond_history_throws_witness :
  let draws := λ _ : nat, Num 0 in
  let u := Universe 1 "nonlinear" "isolated" [[Num 0]] ∅ in
  length (history u) < 3 ∧
  step draws u 3 2 0 = Threw (set_levels u (<[3 := ∅]> (levels u)), 0).
Proof.
  cbv zeta. split; [cbn; lia|].
  apply (step_beyond_history_throws (λ _ : nat, Num 0)
           (Universe 1 "nonlinear" "isolated" [[Num 0]] ∅) 3 2 0).
  cbn. lia.
Defined.

Lemma run_builds_rectangular_table_witness :
  let draws := λ _ : nat, Num 0 in
  let u0 := Universe 2 "ising" "closed" [[Num 0; Num 1]] ∅ in
  let out := run draws u0 3 2 0 in
  let u := (final_state out).1 in
  (length (history u0) = 1 ∧ levels u0 = ∅) ∧
  returned out = true ∧
  length (history u) = Nat.max 1 3 ∧
  history u !! 0 = history u0 !! 0 ∧
  (∀ t, is_Some (levels u !! t) ↔ 1 ≤ t < 3) ∧
  (∀ t l, is_Some (levels u !! t ≫= (.!! l)) ↔ 1 ≤ t < 3 ∧ l < Nat.max 1 2).
Proof.
  cbv zeta. split; [split; reflexivity|].
  apply (run_builds_rectangular_table (λ _ : nat, Num 0)
           (Universe 2 "ising" "closed" [[Num 0; Num 1]] ∅) 0 3 2); reflexivity.
Defined.

Lemma get_state_after_run_witness :
  let draws := λ _ : nat, Num 0 in
  let u0 := Universe 2 "ising" "closed" [[Num 0; Num 1]] ∅ in
  let u := (final_state (run draws u0 3 2 0)).1 in
  (length (history u0) = 1 ∧ levels u0 = ∅) ∧
  get_state u 0 1 = TypeError.
Proof.
  cbv zeta. split; [split; reflexivity|].
  apply (get_state_after_run (λ _ : nat, Num 0)
           (Universe 2 "ising" "closed" [[Num 0; Num 1]] ∅) 0 3 2 0 1); reflexivity.
Defined.

Lemma infinite_state_zero_without_row_witness :
  let draws := λ _ : nat, Num 0 in
  let u0 := Universe 2 "ising" "closed" [[Num 0; Num 1]] ∅ in
  let u := (final_state (run draws u0 3 2 0)).1 in
  (length (history u0) = 1 ∧ levels u0 = ∅ ∧ (0 = 0 ∨ 3 ≤ 0)) ∧
  infinite_state u 0 = zeros (dim u).
Proof.
  cbv zeta. split; [split; [reflexivity|split; [reflexivity|by left]]|].
  apply (infinite_state_zero_without_row (λ _ : nat, Num 0)
           (Universe 2 "ising" "closed" [[Num 0; Num 1]] ∅) 0 3 2 0);
    [reflexivity|reflexivity|by left].
Defined.

Lemma run_follows_rule_witness :
  let draws := λ _ : nat, Num 0 in
  let u0 := Universe 2 "ising" "closed" [[Num 0; Num 1]] ∅ in
  (length (history u0) = 1 ∧ 1 ≤ 2 < 3) ∧
  follows_rule draws (final_state (run draws u0 3 2 0)).1 2.
Proof.
  cbv zeta. split; [split; [reflexivity|lia]|].
  apply (run_follows_rule (λ _ : nat, Num 0)
           (Universe 2 "ising" "closed" [[Num 0; Num 1]] ∅) 0 3 2 2); [reflexivity|lia].
Defined.

Lemma stored_numbers_come_from_arithmetic_witness :
  let draws := λ _ : nat, Num 0 in
  let u0 := Universe 1 "nonlinear" "open" [[Num 1]] ∅ in
  let u := final_state (retro_influence (final_state (run draws u0 3 2 0)).1 2 0 (Num 0.5)) in
  (closed_under is_real ∧ (∀ k, is_real (draws k)) ∧ all_length 1 u0 ∧
   universe_within is_real u0 ∧ reachable_with is_real draws u0 u) ∧
  universe_within is_real u.
Proof.
  cbv zeta.
  assert (Hdraws : ∀ k : nat, is_real ((λ _ : nat, Num 0) k)) by (intros k; exact I).
  assert (Hlen : all_length 1 (Universe 1 "nonlinear" "open" [[Num 1]] ∅)).
  { split; [by repeat constructor|]. intros t row level v. cbn [levels]. by rewrite lookup_empty. }
  assert (Hin : universe_within is_real (Universe 1 "nonlinear" "open" [[Num 1]] ∅)).
  { split; [by repeat constructor|]. intros t row level v. cbn [levels]. by rewrite lookup_empty. }
  assert (Hreach : reachable_with is_real (λ _ : nat, Num 0)
            (Universe 1 "nonlinear" "open" [[Num 1]] ∅)
            (final_state (retro_influence
               (final_state (run (λ _ : nat, Num 0)
                  (Universe 1 "nonlinear" "open" [[Num 1]] ∅) 3 2 0)).1 2 0 (Num 0.5)))).
  { apply with_retro; [exact I|]. apply with_run, with_new. }
  split.
  { split; [apply is_real_closed|]. split; [exact Hdraws|]. split; [exact Hlen|].
    split; [exact Hin|exact Hreach]. }
  exact (stored_numbers_come_from_arithmetic is_real is_real_closed (λ _ : nat, Num 0)
           Hdraws 1 _ _ Hlen Hin Hreach).
Defined.

Lemma run_states_within_unit_witness :
  let draws := λ _ : nat, Num 0 in
  let u0 := Universe 1 "nonlinear" "isolated" [[Num 5]] ∅ in
  let u := (final_state (run draws u0 3 2 0)).1 in
  ((∀ k, is_real (draws k)) ∧ modelType u0 ≠ "oscillators"%string ∧
   history u0 = [[Num 5]] ∧ levels u0 = ∅ ∧ real_vector [Num 5]) ∧
  (∀ t v, 1 ≤ t → history u !! t = Some v → within (λ r, -1 <= r <= 1)%R v) ∧
  (∀ t l v, levels u !! t ≫= (.!! l) = Some v → within (λ r, -1 <= r <= 1)%R v).
Proof.
  cbv zeta.
  assert (Hdraws : ∀ k : nat, is_real ((λ _ : nat, Num 0) k)) by (intros k; exact I).
  assert (Hseed : real_vector [Num 5]) by (by repeat constructor).
  split; [by repeat split|].
  apply (run_states_within_unit (λ _ : nat, Num 0) Hdraws
           (Universe 1 "nonlinear" "isolated" [[Num 5]] ∅) [Num 5] 0 3 2);
    [discriminate|reflexivity|reflexivity|exact Hseed].
Defined.

Lemma energies_have_a_sign_witness :
  real_vector [Num 1; Num 2; Num 3] ∧
  (∃ e, oscillatorEnergy [Num 1; Num 2; Num 3] = Num e ∧ (0 <= e)%R) ∧
  (∃ e, isingEnergy [Num 1; Num 2; Num 3] = Num e ∧ (e <= 0)%R ∧
        ([Num 1; Num 2; Num 3] = [] → e = 0%R)).
Proof.
  assert (Hv : real_vector [Num 1; Num 2; Num 3]) by (by repeat constructor).
  split; [exact Hv|]. exact (energies_have_a_sign [Num 1; Num 2; Num 3] Hv).
Defined.

Lemma norm_is_not_negative_witness :
  real_vector [Num 3; Num 4] ∧
  ∃ r, norm [Num 3; Num 4] = Num r ∧ (0 <= r)%R ∧
       (Forall (λ x, x = Num 0) [Num 3; Num 4] → r = 0%R).
Proof.
  assert (Hv : real_vector [Num 3; Num 4]) by (by repeat constructor).
  split; [exact Hv|]. exact (norm_is_not_negative [Num 3; Num 4] Hv).
Defined.

Lemma parseInt_reads_String_witness :
  ((Z.abs (-42) < 2 ^ 53)%Z ∧
   Forall (λ c, is_white_space c = true) [32; 9]%N ∧ is_digit 112 = false) ∧
  parseInt ([32; 9]%N ++ String_of_integer (-42) ++ [112; 120]%N) = Some (-42)%Z.
Proof.
  assert (Hws : Forall (λ c, is_white_space c = true) [32; 9]%N)
    by (repeat constructor).
  split; [split; [lia|split; [exact Hws|reflexivity]]|].
  apply (parseInt_reads_String [32; 9]%N (-42) [112; 120]%N); [lia|exact Hws|reflexivity].
Defined.

Lemma ensemble_statistics_are_real_witness :
  let draws := λ _ : nat, Num 0 in
  let p := Parameters 3 2 1 2 (Num 0.5) 0 2 "ising" "open" in
  ((∀ k, is_real (draws k)) ∧ p_strength p = Num 0.5 ∧
   (0 ≤ p_dim p < 2 ^ 32)%Z ∧ p_t0 p < Nat.max 1 (p_steps p) ∧ 0 < 4) ∧
  ∃ (meanInf meanDelta varInf : R) cur',
    updateMultiverseStats draws true 4 p 0
    = (Statistics (Num meanInf) (Num meanDelta) (Num varInf), cur') ∧
    (0 <= meanInf)%R ∧ (0 <= varInf)%R.
Proof.
  cbv zeta.
  assert (Hdraws : ∀ k : nat, is_real ((λ _ : nat, Num 0) k)) by (intros k; exact I).
  split; [split; [exact Hdraws|]; cbn; repeat split; lia|].
  apply (ensemble_statistics_are_real (λ _ : nat, Num 0) Hdraws
           (Parameters 3 2 1 2 (Num 0.5) 0 2 "ising" "open") 0.5 4 0);
    [reflexivity|cbn; lia|cbn; lia|lia].
Defined.
End FurtherWitnesses.
